(** * Tuple store backends: key/path codec and storage operations

    A shallow embedding of
    [great_expectations/data_context/store/tuple_store_backend.py].

    Conventions of the embedding.
    - A Python [str] is a [list ascii]; literals are written [L "..."].
    - A call either returns, raises, or leaves the modelled fragment of
      Python ([result]).  The fragment boundary is explicit: a format
      string or a regular expression using syntax that is not modelled
      yields [Unsupported], never a made-up answer.
    - [os.path] is [posixpath]: the separator is "/".
    - The superclass [StoreBackend] is an interface ([StoreBackend]
      record): its methods are fields of the backend object.
    - The local filesystem is a finite map from absolute, resolved paths
      to nodes; the S3 client is an interface over an abstract bucket
      state. *)

From Stdlib Require Import Ascii String.
From stdpp Require Import base tactics option list gmap strings fin_maps.

Local Open Scope list_scope.
Local Open Scope nat_scope.

(** ** Python strings *)

Abbreviation str := (list ascii).

Definition L (s : string) : str := list_ascii_of_string s.

Definition chr_slash : ascii := "/"%char.
Definition chr_backslash : ascii := "\"%char.
Definition chr_dot : ascii := "."%char.
Definition chr_lbrace : ascii := "{"%char.
Definition chr_rbrace : ascii := "}"%char.
Definition chr_newline : ascii := "010"%char.
Definition chr_cr : ascii := "013"%char.

(** [s.startswith(p)] *)
Fixpoint startswith (s p : str) {struct p} : bool :=
  match p, s with
  | [], _ => true
  | _ :: _, [] => false
  | c :: p', a :: s' => bool_decide (a = c) && startswith s' p'
  end.

(** [s.endswith(p)] *)
Definition endswith (s p : str) : bool :=
  startswith (reverse s) (reverse p).

(** [sub in s] *)
Fixpoint contains (sub s : str) : bool :=
  startswith s sub ||
  match s with
  | [] => false
  | _ :: s' => contains sub s'
  end.

(** [s.split(c)] for a one-character separator: never the empty list. *)
Fixpoint split_on (c : ascii) (s : str) : list str :=
  match s with
  | [] => [[]]
  | a :: s' =>
      if bool_decide (a = c) then [] :: split_on c s'
      else match split_on c s' with
           | [] => [[a]]
           | w :: ws => (a :: w) :: ws
           end
  end.

(** [sep.join(l)] *)
Fixpoint join (sep : str) (l : list str) : str :=
  match l with
  | [] => []
  | [w] => w
  | w :: ws => w ++ sep ++ join sep ws
  end.

(** [s.rstrip(c)] for a one-character set. *)
Fixpoint rstrip (c : ascii) (s : str) : str :=
  match s with
  | [] => []
  | a :: s' =>
      match rstrip c s' with
      | [] => if bool_decide (a = c) then [] else [a]
      | r => a :: r
      end
  end.

(** [s.replace("\\", "\\\\")] *)
Definition double_backslashes (s : str) : str :=
  flat_map (λ a, if bool_decide (a = chr_backslash) then [a; a] else [a]) s.

Definition all_char (c : ascii) (s : str) : bool :=
  forallb (λ a, bool_decide (a = c)) s.

(** ** posixpath *)

(** The pair [(p[:i], p[i:])] with [i = p.rfind("/") + 1]. *)
Fixpoint cut_last_slash (p : str) : str * str :=
  match p with
  | [] => ([], [])
  | a :: p' =>
      let '(h, t) := cut_last_slash p' in
      if bool_decide (a = chr_slash) then
        match h with
        | [] => ([a], p')
        | _ => (a :: h, t)
        end
      else
        match h with
        | [] => ([], a :: t)
        | _ => (a :: h, t)
        end
  end.

(** [os.path.split] *)
Definition os_path_split (p : str) : str * str :=
  let '(head, tail) := cut_last_slash p in
  (if negb (all_char chr_slash head) then rstrip chr_slash head else head, tail).

(** [os.path.dirname] *)
Definition os_path_dirname (p : str) : str := fst (os_path_split p).

(** [os.path.join(a, b)] *)
Definition os_path_join2 (a b : str) : str :=
  if startswith b [chr_slash] then b
  else if bool_decide (a = []) || endswith a [chr_slash] then a ++ b
  else a ++ [chr_slash] ++ b.

(** [os.path.join(a, *p)]; the call [os.path.join()] with no argument is a
    [TypeError] and is represented by [None]. *)
Definition os_path_join (parts : list str) : option str :=
  match parts with
  | [] => None
  | a :: p => Some (foldl os_path_join2 a p)
  end.

(** The loop of [normpath] over the components. *)
Fixpoint normpath_comps (initial_slashes : bool) (new_comps : list str)
    (comps : list str) : list str :=
  match comps with
  | [] => new_comps
  | comp :: rest =>
      if bool_decide (comp = []) || bool_decide (comp = L ".") then
        normpath_comps initial_slashes new_comps rest
      else if negb (bool_decide (comp = L ".."))
              || (negb initial_slashes && bool_decide (new_comps = []))
              || bool_decide (last new_comps = Some (L "..")) then
        normpath_comps initial_slashes (new_comps ++ [comp]) rest
      else
        normpath_comps initial_slashes (removelast new_comps) rest
  end.

(** [os.path.normpath] *)
Definition os_path_normpath (path : str) : str :=
  if bool_decide (path = []) then L "."
  else
    let initial_slashes :=
      if startswith path (L "/") then
        if startswith path (L "//") && negb (startswith path (L "///"))
        then 2 else 1
      else 0 in
    let comps := normpath_comps (negb (bool_decide (initial_slashes = 0))) []
                   (split_on chr_slash path) in
    let path' := replicate initial_slashes chr_slash ++ join (L "/") comps in
    if bool_decide (path' = []) then L "." else path'.

(** [os.path.isabs] *)
Definition os_path_isabs (p : str) : bool := startswith p (L "/").

(** ** Outcomes of a call *)

(** The [ValueError]s of the module, by raise site, and those of
    [str.format]. *)
Inductive value_error :=
  | SuffixWithTemplate
  | ForbiddenSubstring
  | PrefixMismatch
  | SuffixMismatch
  | NotReversible
  | BaseDirectoryNotAbsolute
  | RootDirectoryNotAbsolute
  | FormatSingleBrace
  | FormatTooManyDigits.

Inductive exn :=
  | ValueError (why : value_error)
  | TypeError
  | IndexError
  | AttributeError
  | StoreBackendError
  | FileNotFoundError
  | FileExistsError
  | IsADirectoryError
  | NotADirectoryError
  | OSError
  | ShutilError
  | ClientError
  | OtherError (tag : nat).

Inductive result (A : Type) :=
  | Ok (a : A)
  | Raise (e : exn)
  | Unsupported.
Arguments Ok {A} a.
Arguments Raise {A} e.
Arguments Unsupported {A}.

Definition bind {A B} (c : result A) (k : A → result B) : result B :=
  match c with
  | Ok a => k a
  | Raise e => Raise e
  | Unsupported => Unsupported
  end.

Notation "'do' x <- c ; k" := (bind c (λ x, k))
  (at level 10, x pattern, c at level 100, k at level 200).

Definition raises {A} (c : result A) : Prop := ∃ e, c = Raise e.

(** ** Placeholders of a template *)

Definition is_digit (a : ascii) : bool :=
  let n := nat_of_ascii a in (48 <=? n) && (n <=? 57).

(** [int(ds)] for a string of decimal digits. *)
Definition int_of_digits (ds : str) : N :=
  foldl (λ acc a, (10 * acc + (N_of_ascii a - 48))%N) 0%N ds.

(** The template cut at the matches of [r"{\d+}"], leftmost and
    non-overlapping, as [re.findall] and [re.sub] enumerate them. *)
Inductive tok :=
  | TChar (c : ascii)
  | TField (digits : str).

Definition flush (pending : option str) : list tok :=
  match pending with
  | None => []
  | Some ds => TChar chr_lbrace :: map TChar ds
  end.

Fixpoint scan_from (pending : option str) (s : str) : list tok :=
  match s with
  | [] => flush pending
  | a :: s' =>
      match pending with
      | Some ds =>
          if is_digit a then scan_from (Some (ds ++ [a])) s'
          else if bool_decide (a = chr_rbrace) && negb (bool_decide (ds = [])) then
            TField ds :: scan_from None s'
          else if bool_decide (a = chr_lbrace) then
            flush pending ++ scan_from (Some []) s'
          else flush pending ++ TChar a :: scan_from None s'
      | None =>
          if bool_decide (a = chr_lbrace) then scan_from (Some []) s'
          else TChar a :: scan_from None s'
      end
  end.

Definition scan (s : str) : list tok := scan_from None s.

Definition field_text (ds : str) : str := chr_lbrace :: ds ++ [chr_rbrace].

(** [re.findall(r"{\d+}", s)] *)
Definition re_findall_placeholders (s : str) : list str :=
  omap (λ t, match t with TField ds => Some (field_text ds) | TChar _ => None end)
       (scan s).

(** [len(set(l))] *)
Definition count_distinct (l : list str) : nat := length (remove_dups l).

(** ** [str.format] with positional string arguments

    Modelled: literal text, the escapes "{{" and "}}", and fields
    "{<digits>}".  A lone "}" and an unclosed "{" raise [ValueError] as in
    CPython; an index that does not fit [Py_ssize_t] raises [ValueError];
    an index past the arguments raises [IndexError].  Automatic numbering,
    names, attributes, conversions and format specifications are outside
    the fragment. *)

Inductive fstate :=
  | FText
  | FOpen (ds : str)
  | FClose.

Definition PY_SSIZE_T_MAX : N := 9223372036854775807%N.

Definition get_field (args : list str) (ds : str) : result str :=
  let n := int_of_digits ds in
  if (PY_SSIZE_T_MAX <? n)%N then Raise (ValueError FormatTooManyDigits)
  else match args !! N.to_nat n with
       | Some v => Ok v
       | None => Raise IndexError
       end.

Fixpoint format_from (args : list str) (st : fstate) (s : str) : result str :=
  match s with
  | [] =>
      match st with
      | FText => Ok []
      | FOpen _ => Raise (ValueError FormatSingleBrace)
      | FClose => Raise (ValueError FormatSingleBrace)
      end
  | a :: s' =>
      match st with
      | FText =>
          if bool_decide (a = chr_lbrace) then format_from args (FOpen []) s'
          else if bool_decide (a = chr_rbrace) then format_from args FClose s'
          else do r <- format_from args FText s'; Ok (a :: r)
      | FOpen ds =>
          if is_digit a then format_from args (FOpen (ds ++ [a])) s'
          else if bool_decide (a = chr_lbrace) && bool_decide (ds = []) then
            do r <- format_from args FText s'; Ok (a :: r)
          else if bool_decide (a = chr_rbrace) && negb (bool_decide (ds = [])) then
            do v <- get_field args ds;
            do r <- format_from args FText s'; Ok (v ++ r)
          else Unsupported
      | FClose =>
          if bool_decide (a = chr_rbrace) then
            do r <- format_from args FText s'; Ok (a :: r)
          else Raise (ValueError FormatSingleBrace)
      end
  end.

(** [s.format] applied to the unpacked tuple [args] *)
Definition str_format (s : str) (args : list str) : result str :=
  format_from args FText s.

(** ** The regular expressions built by the decoder

    After [re.sub] every placeholder is a named group around ".*";
    the rest of the template is regular-expression source.  Modelled: a
    character without special meaning matches itself, "." matches any
    character but a newline, and an escaped backslash matches a backslash.
    Any other special character, and any brace left over for the second
    [format], is outside the fragment. *)

Inductive ritem :=
  | RLit (c : ascii)
  | RAny
  | RGroup.

Definition re_special (c : ascii) : bool :=
  contains [c] (L "\^$*+?{}[]|()").

Fixpoint compile_toks (ts : list tok) : result (list ritem) :=
  match ts with
  | [] => Ok []
  | TField _ :: ts' => do r <- compile_toks ts'; Ok (RGroup :: r)
  | TChar c :: ts' =>
      if bool_decide (c = chr_backslash) then
        match ts' with
        | TChar c' :: ts'' =>
            if bool_decide (c' = chr_backslash) then
              do r <- compile_toks ts''; Ok (RLit c :: r)
            else Unsupported
        | _ => Unsupported
        end
      else if bool_decide (c = chr_dot) then
        do r <- compile_toks ts'; Ok (RAny :: r)
      else if re_special c then Unsupported
      else do r <- compile_toks ts'; Ok (RLit c :: r)
  end.

(** [re.compile(regex).match(s)]: a backtracking match at the start of [s],
    not anchored at its end; every group is greedy.  The result lists the
    captures of the groups in order. *)
Fixpoint re_match (r : list ritem) : str → option (list str) :=
  match r with
  | [] => λ _, Some []
  | RLit c :: r' => λ s,
      match s with
      | a :: s' => if bool_decide (a = c) then re_match r' s' else None
      | [] => None
      end
  | RAny :: r' => λ s,
      match s with
      | a :: s' => if bool_decide (a = chr_newline) then None else re_match r' s'
      | [] => None
      end
  | RGroup :: r' =>
      fix star (s : str) : option (list str) :=
        let stop := caps ← re_match r' s; Some ([] :: caps) in
        match s with
        | [] => stop
        | a :: s' =>
            if bool_decide (a = chr_newline) then stop
            else match star s' with
                 | Some (cap :: caps) => Some ((a :: cap) :: caps)
                 | _ => stop
                 end
        end
  end.

(** ** The superclass

    [StoreBackend] (store_backend.py) is not part of the sources at hand.
    Its constructor and its [_validate_key] are called through [super()];
    they are the two fields of this interface, and every statement below
    holds for each implementation of it. *)
Record StoreBackend := {
  StoreBackend_init : bool → option exn;
  StoreBackend_validate_key : list str → option exn;
}.

(** A call that returns nothing, or raises. *)
Definition call (raised : option exn) : result unit :=
  match raised with
  | None => Ok tt
  | Some e => Raise e
  end.

(** Modelled from the spec: [StoreBackend._validate_key], missing from the
    sources; the spec asks that "every component [be] non-empty".  It is
    used to instantiate the interface in examples only. *)
Definition spec_StoreBackend : StoreBackend := {|
  StoreBackend_init := λ _, None;
  StoreBackend_validate_key := λ key,
    if forallb (λ key_element, negb (bool_decide (key_element = []))) key
    then None else Some TypeError;
|}.

(** Truth value of an optional string attribute: [None] and "" are false. *)
Definition truthy (o : option str) : bool :=
  match o with
  | Some (_ :: _) => true
  | _ => false
  end.

(** A decoded key is a tuple whose slots are strings or [None]. *)
Abbreviation slots := (list (option str)).

Module TupleStoreBackend.

Record t := {
  super : StoreBackend;
  forbidden_substrings : list str;
  platform_specific_separator : bool;
  filepath_template : option str;
  filepath_prefix : option str;
  filepath_suffix : option str;
  key_length : option nat;
  _fixed_length_key : bool;
}.

Definition _validate_key (self : t) (key : list str) : result unit :=
  do _ <- call (StoreBackend_validate_key (super self) key);
  if existsb (λ key_element,
        existsb (λ substring, contains substring key_element)
                (forbidden_substrings self)) key
  then Raise (ValueError ForbiddenSubstring)
  else Ok tt.

Definition _convert_key_to_filepath (self : t) (key : list str) : result str :=
  do _ <- _validate_key self key;
  do converted_string <-
    (if truthy (filepath_template self)
     then str_format (default [] (filepath_template self)) key
     else Ok (join (L "/") key));
  let converted_string :=
    if truthy (filepath_prefix self)
    then default [] (filepath_prefix self) ++ L "/" ++ converted_string
    else converted_string in
  let converted_string :=
    if truthy (filepath_suffix self)
    then converted_string ++ default [] (filepath_suffix self)
    else converted_string in
  Ok (if platform_specific_separator self
      then os_path_normpath converted_string
      else converted_string).

(** Lines 105-117: the prefix is checked and cut off. *)
Definition strip_prefix (self : t) (filepath : str) : result str :=
  if truthy (filepath_prefix self) then
    let prefix := default [] (filepath_prefix self) in
    if negb (startswith filepath prefix)
       && (length prefix + 1 <=? length filepath)
    then Raise (ValueError PrefixMismatch)
    else Ok (drop (length prefix + 1) filepath)
  else Ok filepath.

(** Lines 119-127: the suffix is checked and cut off. *)
Definition strip_suffix (self : t) (filepath : str) : result str :=
  if truthy (filepath_suffix self) then
    let suffix := default [] (filepath_suffix self) in
    if negb (endswith filepath suffix)
    then Raise (ValueError SuffixMismatch)
    else Ok (take (length filepath - length suffix) filepath)
  else Ok filepath.

(** Lines 132-136: the template the regular expression is built from. *)
Definition regex_template (self : t) : result str :=
  let template := default [] (filepath_template self) in
  if platform_specific_separator self then
    match os_path_join (split_on chr_slash template) with
    | Some joined => Ok (double_backslashes joined)
    | None => Raise TypeError
    end
  else Ok template.

(** The numeric index of a placeholder:
    [int(re.search(r"\d+", placeholder).group(0))]. *)
Definition tok_index (t : tok) : option N :=
  match t with
  | TField ds => Some (int_of_digits ds)
  | TChar _ => None
  end.

Definition placeholder_indices (template : str) : list N :=
  omap tok_index (scan template).

(** Lines 155-161: [new_key[tuple_index] = key_element], in template
    order; an index past the end of [new_key] is an [IndexError]. *)
Fixpoint fill (new_key : slots) (writes : list (N * str)) : result slots :=
  match writes with
  | [] => Ok new_key
  | (tuple_index, key_element) :: rest =>
      if (tuple_index <? N.of_nat (length new_key))%N
      then fill (<[N.to_nat tuple_index := Some key_element]> new_key) rest
      else Raise IndexError
  end.

(** Lines 129-163: the template branch of the decoder. *)
Definition match_template (self : t) (filepath : str) : result (option slots) :=
  do filepath_template <- regex_template self;
  do filepath_regex <- compile_toks (scan filepath_template);
  match re_match filepath_regex filepath with
  | None => Ok None
  | Some groups =>
      match key_length self with
      | None => Raise AttributeError
      | Some n =>
          do new_key <- fill (replicate n None)
                          (zip (placeholder_indices filepath_template) groups);
          Ok (Some new_key)
      end
  end.

(** Lines 119-168: what the decoder does once the prefix is gone. *)
Definition decode_stripped (self : t) (filepath : str) : result (option slots) :=
  do filepath <- strip_suffix self filepath;
  if truthy (filepath_template self) then match_template self filepath
  else Ok (Some (map Some (split_on chr_slash (os_path_normpath filepath)))).

Definition _convert_filepath_to_key (self : t) (filepath : str)
  : result (option slots) :=
  let filepath :=
    if platform_specific_separator self then os_path_normpath filepath
    else filepath in
  do filepath <- strip_prefix self filepath;
  decode_stripped self filepath.

(** [random.choice(list("ABCDEF0123456789"))]: [rand n] is the position
    picked by the [n]-th call. *)
Definition random_choice (rand : nat → nat) (n : nat) : ascii :=
  nth (rand n mod 16) (L "ABCDEF0123456789") "A"%char.

Definition get_random_hex (rand : nat → nat) (calls : nat) : str :=
  map (λ j, random_choice rand (calls + j)) (seq 0 4).

Definition verify_that_key_to_filepath_operation_is_reversible
    (rand : nat → nat) (self : t) : result unit :=
  match key_length self with
  | None => Raise AttributeError
  | Some n =>
      let key := map (λ i, get_random_hex rand (4 * i)) (seq 0 n) in
      do filepath <- _convert_key_to_filepath self key;
      do new_key <- _convert_filepath_to_key self filepath;
      if bool_decide (new_key = Some (map Some key)) then Ok tt
      else Raise (ValueError NotReversible)
  end.

(** The arguments of the constructor; [None] is Python's [None]. *)
Record args := {
  arg_filepath_template : option str;
  arg_filepath_prefix : option str;
  arg_filepath_suffix : option str;
  arg_forbidden_substrings : option (list str);
  arg_platform_specific_separator : bool;
  arg_fixed_length_key : bool;
}.

Definition __init__ (base : StoreBackend) (rand : nat → nat) (a : args)
  : result t :=
  do _ <- call (StoreBackend_init base (arg_fixed_length_key a));
  let forbidden :=
    default [L "/"; L "\"] (arg_forbidden_substrings a) in
  if bool_decide (arg_filepath_template a ≠ None)
     && bool_decide (arg_filepath_suffix a ≠ None)
  then Raise (ValueError SuffixWithTemplate)
  else
    do _ <- (match arg_filepath_prefix a with
             | Some prefix =>
                 match last prefix with
                 | Some c =>
                     if bool_decide ([c] ∈ forbidden)
                     then Raise StoreBackendError else Ok tt
                 | None => Ok tt
                 end
             | None => Ok tt
             end);
    let self := {|
      super := base;
      forbidden_substrings := forbidden;
      platform_specific_separator := arg_platform_specific_separator a;
      filepath_template := arg_filepath_template a;
      filepath_prefix := arg_filepath_prefix a;
      filepath_suffix := arg_filepath_suffix a;
      key_length := None;
      _fixed_length_key := arg_fixed_length_key a;
    |} in
    match arg_filepath_template a with
    | None => Ok self
    | Some template =>
        let self := {|
          super := base;
          forbidden_substrings := forbidden;
          platform_specific_separator := arg_platform_specific_separator a;
          filepath_template := arg_filepath_template a;
          filepath_prefix := arg_filepath_prefix a;
          filepath_suffix := arg_filepath_suffix a;
          key_length :=
            Some (count_distinct (re_findall_placeholders template));
          _fixed_length_key := arg_fixed_length_key a;
        |} in
        do _ <- verify_that_key_to_filepath_operation_is_reversible rand self;
        Ok {|
          super := base;
          forbidden_substrings := forbidden;
          platform_specific_separator := arg_platform_specific_separator a;
          filepath_template := arg_filepath_template a;
          filepath_prefix := arg_filepath_prefix a;
          filepath_suffix := arg_filepath_suffix a;
          key_length := key_length self;
          _fixed_length_key := true;
        |}
    end.

End TupleStoreBackend.

(** ** Calls that read and change a store

    A call on a store of type [S] returns an outcome and the store it
    leaves behind; what an operation changed before it raised stays
    changed. *)
Definition M (S A : Type) : Type := S → result A * S.

Definition ret {S A} (a : A) : M S A := λ st, (Ok a, st).
Definition throw {S A} (e : exn) : M S A := λ st, (Raise e, st).
Definition unsupported {S A} : M S A := λ st, (Unsupported, st).
Definition lift {S A} (r : result A) : M S A := λ st, (r, st).

Definition mbind {S A B} (c : M S A) (k : A → M S B) : M S B :=
  λ st, match c st with
        | (Ok a, st') => k a st'
        | (Raise e, st') => (Raise e, st')
        | (Unsupported, st') => (Unsupported, st')
        end.

Notation "'do!' x <- c ; k" := (mbind c (λ x, k))
  (at level 10, x pattern, c at level 100, k at level 200).

(** [try: c  except <handled>: handler] *)
Definition try_except {S A} (c : M S A) (handled : exn → bool) (handler : M S A)
  : M S A :=
  λ st, match c st with
        | (Raise e, st') => if handled e then handler st' else (Raise e, st')
        | other => other
        end.

(** ** The local filesystem

    A finite map from resolved absolute paths (lists of names, the root
    being the empty list) to nodes.  Paths are resolved lexically, as by
    [normpath]: there are no symbolic links.  A relative path depends on
    the working directory and is outside the model.

    The operating system resolves a path one component after the other,
    and fails where a directory on the way is missing or is a regular
    file, also on the way to a "..", and where a regular file is followed
    by a "/".  The lexical resolution agrees with it on the paths without
    ".." that end in a name, in a tree in which every entry lies in a
    directory; the statements about what a call finds at a path are made
    for such paths. *)
Module Posix.

Inductive node :=
  | File (content : str)
  | Dir.

Abbreviation fs := (gmap (list str) node).

Definition resolve (p : str) : option (list str) :=
  if startswith p (L "/")
  then Some (normpath_comps true [] (split_on chr_slash p))
  else None.

Definition with_path {A} (p : str) (k : list str → M fs A) : M fs A :=
  match resolve p with
  | Some q => k q
  | None => unsupported
  end.

Definition is_file (o : option node) : bool :=
  match o with Some (File _) => true | _ => false end.

Definition is_dir (o : option node) : bool :=
  match o with Some Dir => true | _ => false end.

(** A file on the way to [q]: the lookup fails with [ENOTDIR]. *)
Definition blocked (st : fs) (q : list str) : bool :=
  existsb (λ n, is_file (st !! take n q)) (seq 0 (length q)).

Definition missing (st : fs) (q : list str) : exn :=
  if blocked st q then NotADirectoryError else FileNotFoundError.

Definition parent (q : list str) : list str := removelast q.

(** The names in directory [d]. *)
Definition children (st : fs) (d : list str) : list str :=
  omap (λ '(q, _), if bool_decide (parent q = d) then last q else None)
       (map_to_list st).

Definition os_path_exists (p : str) : M fs bool :=
  with_path p (λ q st, (Ok (bool_decide (is_Some (st !! q))), st)).

Definition os_path_isfile (p : str) : M fs bool :=
  with_path p (λ q st, (Ok (is_file (st !! q)), st)).

Definition os_path_isdir (p : str) : M fs bool :=
  with_path p (λ q st, (Ok (is_dir (st !! q)), st)).

Definition os_listdir (p : str) : M fs (list str) :=
  with_path p (λ q st,
    match st !! q with
    | Some Dir => (Ok (children st q), st)
    | Some (File _) => (Raise NotADirectoryError, st)
    | None => (Raise (missing st q), st)
    end).

Definition os_rmdir (p : str) : M fs unit :=
  with_path p (λ q st,
    match st !! q with
    | Some Dir =>
        if bool_decide (q = []) then (Raise OSError, st)
        else if bool_decide (children st q = []) then (Ok tt, delete q st)
        else (Raise OSError, st)
    | Some (File _) => (Raise NotADirectoryError, st)
    | None => (Raise (missing st q), st)
    end).

Definition os_remove (p : str) : M fs unit :=
  with_path p (λ q st,
    match st !! q with
    | Some (File _) => (Ok tt, delete q st)
    | Some Dir => (Raise IsADirectoryError, st)
    | None => (Raise (missing st q), st)
    end).

(** [os.makedirs(p, exist_ok=True)]: the directories along [todo] below
    [reached] are created where they are missing. *)
Fixpoint makedirs_from (reached todo : list str) : M fs unit :=
  match todo with
  | [] => ret tt
  | name :: rest =>
      let d := reached ++ [name] in
      λ st,
        match st !! d with
        | None => makedirs_from d rest (<[d := Dir]> st)
        | Some Dir => makedirs_from d rest st
        | Some (File _) =>
            (Raise (match rest with
                    | [] => FileExistsError
                    | _ => NotADirectoryError
                    end), st)
        end
  end.

Definition os_makedirs (p : str) : M fs unit :=
  with_path p (makedirs_from []).

Definition is_ascii (a : ascii) : bool := nat_of_ascii a <? 128.

(** The newlines of a text read with universal newlines: "\r\n" and a
    lone "\r" are read as "\n". *)
Fixpoint universal_newlines (s : str) : str :=
  match s with
  | [] => []
  | a :: s' =>
      if bool_decide (a = chr_cr) then
        chr_newline ::
          match s' with
          | b :: s'' =>
              if bool_decide (b = chr_newline) then universal_newlines s''
              else universal_newlines s'
          | [] => []
          end
      else a :: universal_newlines s'
  end.

(** What a read in text mode returns for a file that holds [content]:
    the content is decoded with the default encoding of the platform and
    its newlines are translated.  For ASCII text every such encoding
    gives the text itself; other content is outside the model.  What
    [_set] wrote for an ASCII value, its UTF-8 encoding, is the value
    itself. *)
Definition read_text (content : str) : result str :=
  if forallb is_ascii content then Ok (universal_newlines content)
  else Unsupported.

(** [open(p).read()], in text mode *)
Definition read_file (p : str) : M fs str :=
  with_path p (λ q st,
    match st !! q with
    | Some (File content) => (read_text content, st)
    | Some Dir => (Raise IsADirectoryError, st)
    | None => (Raise (missing st q), st)
    end).

(** [open(p, "wb").write(content)] *)
Definition write_file (p : str) (content : str) : M fs unit :=
  with_path p (λ q st,
    match st !! q with
    | Some Dir => (Raise IsADirectoryError, st)
    | _ =>
        if is_dir (st !! parent q) && negb (bool_decide (q = []))
        then (Ok tt, <[q := File content]> st)
        else (Raise (missing st q), st)
    end).

(** [os.rename] of a regular file; renaming a directory moves a whole
    subtree and is outside the model: the statements about a move that
    returned are made for a source that is a regular file. *)
Definition os_rename (src dst : str) : M fs unit :=
  with_path src (λ qs, with_path dst (λ qd st,
    match st !! qs with
    | Some (File content) =>
        if bool_decide (qs = qd) then (Ok tt, st)
        else if is_dir (st !! qd) then (Raise IsADirectoryError, st)
        else if is_dir (st !! parent qd) && negb (bool_decide (qd = []))
        then (Ok tt, <[qd := File content]> (delete qs st))
        else (Raise (missing st qd), st)
    | Some Dir => (Unsupported, st)
    | None => (Raise (missing st qs), st)
    end)).

(** [os.path.basename(src.rstrip("/"))] *)
Definition _basename (p : str) : str :=
  snd (os_path_split (rstrip chr_slash p)).

(** [shutil.move] on one device. *)
Definition shutil_move (src dst : str) : M fs unit :=
  do! dst_is_dir <- os_path_isdir dst;
  if dst_is_dir then
    do! src_is_dir <- os_path_isdir src;
    if src_is_dir then unsupported
    else
      let real_dst := os_path_join2 dst (_basename src) in
      do! taken <- os_path_exists real_dst;
      if taken then throw ShutilError
      else os_rename src real_dst
  else os_rename src dst.

(** [os.path.commonprefix] of two lists. *)
Fixpoint commonprefix (l1 l2 : list str) : list str :=
  match l1, l2 with
  | a :: l1', b :: l2' =>
      if bool_decide (a = b) then a :: commonprefix l1' l2' else []
  | _, _ => []
  end.

(** [os.path.relpath(path, start)] of two absolute paths, for which
    [abspath] is [normpath].  The empty [path], a [ValueError] of
    posixpath, and relative paths, which depend on the working directory,
    are outside the model. *)
Definition os_path_relpath (path start : str) : result str :=
  if bool_decide (path = []) then Unsupported
  else
    match resolve start, resolve path with
    | Some start_list, Some path_list =>
        let i := length (commonprefix start_list path_list) in
        let rel_list :=
          replicate (length start_list - i) (L "..") ++ drop i path_list in
        match os_path_join rel_list with
        | None => Ok (L ".")
        | Some joined => Ok joined
        end
    | _, _ => Unsupported
    end.

(** The results of [f] on the elements of [l], one after the other, up
    to the first that is not a list. *)
Fixpoint collect {A B} (f : A → result (list B)) (l : list A)
  : result (list B) :=
  match l with
  | [] => Ok []
  | a :: l' =>
      do found <- f a;
      do others <- collect f l';
      Ok (found ++ others)
  end.

(** The length of the longest path of the store. *)
Definition max_depth (st : fs) : nat :=
  max_list_with (λ '(q, _), length q) (map_to_list st).

(** [os.walk(top)], top down, on the store [st]: the triples
    [(root, dirs, files)] of [top] and of the directories below it; a
    [top] that cannot be listed gives none.  A directory is listed in the
    order of [children] (the order of [scandir] is the file system's own);
    [fuel] bounds the depth of the walk. *)
Fixpoint walk_from (st : fs) (fuel : nat) (top : str)
  : result (list (str * list str * list str)) :=
  match fuel with
  | 0 => Unsupported
  | S fuel' =>
      match resolve top with
      | None => Unsupported
      | Some q =>
          if is_dir (st !! q) then
            let names := children st q in
            let dirs := List.filter (λ name, is_dir (st !! (q ++ [name]))) names in
            let nondirs :=
              List.filter (λ name, negb (is_dir (st !! (q ++ [name])))) names in
            do below <- collect (walk_from st fuel') (map (os_path_join2 top) dirs);
            Ok ((top, dirs, nondirs) :: below)
          else Ok []
      end
  end.

(** [list(os.walk(top))]: the store is not changed while it is walked. *)
Definition os_walk (top : str) : M fs (list (str * list str * list str)) :=
  λ st, (walk_from st (S (max_depth st)) top, st).

(** [os.path.relpath(path, start)] in the working directory [cwd], to which
    [abspath] joins a relative path; the empty [path] is outside the model,
    as above. *)
Definition os_path_relpath_in (cwd path start : str) : result str :=
  if bool_decide (path = []) then Unsupported
  else os_path_relpath (os_path_join2 cwd path) (os_path_join2 cwd start).

End Posix.

(** ** The filesystem backend *)
Module TupleFilesystemStoreBackend.
Import Posix.

Record t := {
  base : TupleStoreBackend.t;
  full_base_directory : str;
}.

Definition _convert_key_to_filepath (self : t) (key : list str) : M fs str :=
  lift (TupleStoreBackend._convert_key_to_filepath (base self) key).

Definition __init__ (sb : StoreBackend) (rand : nat → nat)
    (base_directory : str) (root_directory : option str)
    (a : TupleStoreBackend.args) : M fs t :=
  do! b <- lift (TupleStoreBackend.__init__ sb rand a);
  do! full <-
    (if os_path_isabs base_directory then ret base_directory
     else match root_directory with
          | None => throw (ValueError BaseDirectoryNotAbsolute)
          | Some root =>
              if negb (os_path_isabs root)
              then throw (ValueError RootDirectoryNotAbsolute)
              else ret (os_path_join2 root base_directory)
          end);
  do! _ <- os_makedirs (os_path_dirname full);
  ret {| base := b; full_base_directory := full |}.

Definition _get (self : t) (key : list str) : M fs str :=
  do! rel <- _convert_key_to_filepath self key;
  let filepath := os_path_join2 (full_base_directory self) rel in
  read_file filepath.

Definition _set (self : t) (key : list str) (value : str) : M fs str :=
  do! rel <- _convert_key_to_filepath self key;
  let filepath := os_path_join2 (full_base_directory self) rel in
  let '(path, filename) := os_path_split filepath in
  do! _ <- os_makedirs path;
  do! _ <- write_file filepath value;
  ret filepath.

(** The result of [_move] is the destination key, or [False] ([None]). *)
Definition _move (self : t) (source_key dest_key : list str)
  : M fs (option (list str)) :=
  do! source_rel <- _convert_key_to_filepath self source_key;
  let source_path := os_path_join2 (full_base_directory self) source_rel in
  do! dest_rel <- _convert_key_to_filepath self dest_key;
  let dest_path := os_path_join2 (full_base_directory self) dest_rel in
  let '(dest_dir, dest_filename) := os_path_split dest_path in
  do! found <- os_path_exists source_path;
  if found then
    do! _ <- os_makedirs dest_dir;
    do! _ <- shutil_move source_path dest_path;
    ret (Some dest_key)
  else ret None.

(** The [while] loop of [rrmdir]; each turn replaces [curpath] by its
    [dirname], so [length curpath + 1] turns are enough. *)
Fixpoint rrmdir_loop (fuel : nat) (mroot curpath : str) : M fs unit :=
  match fuel with
  | 0 => unsupported
  | S fuel' =>
      do! names <- os_listdir curpath;
      do! found <- os_path_exists curpath;
      if bool_decide (names = []) && found
         && negb (bool_decide (mroot = curpath))
      then
        let f2 := os_path_dirname curpath in
        do! _ <- os_rmdir curpath;
        rrmdir_loop fuel' mroot f2
      else ret tt
  end.

Definition rrmdir (self : t) (mroot curpath : str) : M fs unit :=
  try_except (rrmdir_loop (S (length curpath)) mroot curpath)
    (λ e, match e with
          | NotADirectoryError | FileNotFoundError => true
          | _ => false
          end)
    (ret tt).

Definition remove_key (self : t) (key : list str) : M fs bool :=
  do! rel <- _convert_key_to_filepath self key;
  let filepath := os_path_join2 (full_base_directory self) rel in
  do! found <- os_path_exists filepath;
  if found then
    let d_path := os_path_dirname filepath in
    do! _ <- os_remove filepath;
    do! _ <- rrmdir self (full_base_directory self) d_path;
    ret true
  else ret false.

Definition _has_key (self : t) (key : list str) : M fs bool :=
  do! rel <- _convert_key_to_filepath self key;
  os_path_isfile (os_path_join2 (full_base_directory self) rel).

(** Lines 286-296 of [list_keys]: the keys the file at [filepath], a path
    relative to the base directory, adds to [key_list].  The superclass's
    [is_ignored_key], which is not part of the sources at hand, is the
    argument [is_ignored_key]. *)
Definition list_keys_path (self : t) (is_ignored_key : slots → bool)
    (filepath : str) : result (list slots) :=
  let b := base self in
  if truthy (TupleStoreBackend.filepath_prefix b)
     && negb (startswith filepath (default [] (TupleStoreBackend.filepath_prefix b)))
  then Ok []
  else if truthy (TupleStoreBackend.filepath_suffix b)
          && negb (endswith filepath (default [] (TupleStoreBackend.filepath_suffix b)))
  then Ok []
  else
    do key <- TupleStoreBackend._convert_filepath_to_key b filepath;
    match key with
    | Some (key_element :: key') =>
        if is_ignored_key (key_element :: key') then Ok []
        else Ok [key_element :: key']
    | _ => Ok []
    end.

(** The body of the inner loop of [list_keys], for the file [file_] of the
    directory [root]. *)
Definition list_keys_file (self : t) (is_ignored_key : slots → bool)
    (root file_ : str) : result (list slots) :=
  let '(full_path, file_name) := os_path_split (os_path_join2 root file_) in
  do relative_path <- os_path_relpath full_path (full_base_directory self);
  let filepath :=
    if bool_decide (relative_path = L ".") then file_name
    else os_path_join2 relative_path file_name in
  list_keys_path self is_ignored_key filepath.

Definition list_keys (self : t) (is_ignored_key : slots → bool)
    (prefix : list str) : M fs (list slots) :=
  do! triples <- os_walk (foldl os_path_join2 (full_base_directory self) prefix);
  lift (collect (λ '(root, dirs, files),
                   collect (list_keys_file self is_ignored_key root) files)
                triples).

(** [protocol] is [None] when the argument is left out. *)
Definition get_url_for_key (self : t) (key : list str) (protocol : option str)
  : M fs str :=
  do! path <- _convert_key_to_filepath self key;
  let full_path := os_path_join2 (full_base_directory self) path in
  let protocol := default (L "file:") protocol in
  ret (protocol ++ L "//" ++ full_path).

End TupleFilesystemStoreBackend.

(** ** The S3 backend *)
Module TupleS3StoreBackend.

(** The two calls [remove_key] makes on the boto3 client, over a bucket
    store of type [S].  [list_objects] answers with the keys of the
    "Contents" entry of the response, or with the empty list when the
    response has none. *)
Record client (S : Type) := {
  list_objects : str → str → M S (list str);
  delete_objects : str → list str → M S unit;
}.
Arguments list_objects {S}.
Arguments delete_objects {S}.

Record t := {
  base : TupleStoreBackend.t;
  bucket : str;
  prefix : str;
}.

Definition remove_key {S} (s3 : client S) (self : t) (key : list str)
  : M S bool :=
  do! s3_key <- lift (TupleStoreBackend._convert_key_to_filepath (base self) key);
  if negb (bool_decide (s3_key = [])) then
    try_except
      (do! objects_to_delete <- list_objects s3 (bucket self) (prefix self);
       do! _ <- delete_objects s3 (bucket self) objects_to_delete;
       ret true)
      (λ e, match e with ClientError => true | _ => false end)
      (ret false)
  else ret false.

(** The other calls the backend makes on boto3, with the bucket as their
    first argument: [get_object] answers with the decoded body of the
    object, [get_bucket_location] with the "LocationConstraint" of the
    response, [Object_put] stores a body under a key, [Bucket_copy] copies
    the object of a source key to a destination key of the same bucket,
    and [Object_delete] deletes the object of a key.  Content type and
    encoding are not looked at. *)
Record boto3 (S : Type) := {
  s3_client : client S;
  get_object : str → str → M S str;
  get_bucket_location : str → M S (option str);
  Object_put : str → str → str → M S unit;
  Bucket_copy : str → str → str → M S unit;
  Object_delete : str → str → M S unit;
}.
Arguments s3_client {S}.
Arguments get_object {S}.
Arguments get_bucket_location {S}.
Arguments Object_put {S}.
Arguments Bucket_copy {S}.
Arguments Object_delete {S}.

Definition _get {S} (s3 : boto3 S) (self : t) (key : list str) : M S str :=
  do! path <- lift (TupleStoreBackend._convert_key_to_filepath (base self) key);
  let s3_object_key := os_path_join2 (prefix self) path in
  get_object s3 (bucket self) s3_object_key.

Definition _set {S} (s3 : boto3 S) (self : t) (key : list str) (value : str)
  : M S str :=
  do! path <- lift (TupleStoreBackend._convert_key_to_filepath (base self) key);
  let s3_object_key := os_path_join2 (prefix self) path in
  do! _ <- Object_put s3 (bucket self) s3_object_key value;
  ret s3_object_key.

Definition _move {S} (s3 : boto3 S) (self : t) (source_key dest_key : list str)
  : M S unit :=
  do! source_filepath <-
    lift (TupleStoreBackend._convert_key_to_filepath (base self) source_key);
  let source_filepath :=
    if negb (startswith source_filepath (prefix self))
    then os_path_join2 (prefix self) source_filepath
    else source_filepath in
  do! dest_filepath <-
    lift (TupleStoreBackend._convert_key_to_filepath (base self) dest_key);
  let dest_filepath :=
    if negb (startswith dest_filepath (prefix self))
    then os_path_join2 (prefix self) dest_filepath
    else dest_filepath in
  do! _ <- Bucket_copy s3 (bucket self) source_filepath dest_filepath;
  Object_delete s3 (bucket self) source_filepath.

(** The body of the loop of [list_keys]: the keys the object
    [s3_object_key] adds to [key_list], in the working directory [cwd]. *)
Definition list_keys_object (cwd : str) (self : t) (s3_object_key : str)
  : result (list slots) :=
  let b := base self in
  do s3_object_key <- Posix.os_path_relpath_in cwd s3_object_key (prefix self);
  if truthy (TupleStoreBackend.filepath_prefix b)
     && negb (startswith s3_object_key
                (default [] (TupleStoreBackend.filepath_prefix b)))
  then Ok []
  else if truthy (TupleStoreBackend.filepath_suffix b)
          && negb (endswith s3_object_key
                     (default [] (TupleStoreBackend.filepath_suffix b)))
  then Ok []
  else
    do key <- TupleStoreBackend._convert_filepath_to_key b s3_object_key;
    match key with
    | Some (key_element :: key') => Ok [key_element :: key']
    | _ => Ok []
    end.

Definition list_keys {S} (cwd : str) (s3 : boto3 S) (self : t)
  : M S (list slots) :=
  do! objects <- list_objects (s3_client s3) (bucket self) (prefix self);
  lift (Posix.collect (list_keys_object cwd self) objects).

Definition get_url_for_key {S} (s3 : boto3 S) (self : t) (key : list str)
  : M S str :=
  do! location <- get_bucket_location s3 (bucket self);
  let location :=
    match location with
    | None => L "s3"
    | Some location => L "s3-" ++ location
    end in
  do! s3_key <- lift (TupleStoreBackend._convert_key_to_filepath (base self) key);
  if bool_decide (prefix self = [])
  then ret (L "https://" ++ location ++ L ".amazonaws.com/" ++ bucket self
            ++ L "/" ++ s3_key)
  else ret (L "https://" ++ location ++ L ".amazonaws.com/" ++ bucket self
            ++ L "/" ++ prefix self ++ L "/" ++ s3_key).

(** [key in all_keys]: a key of strings is compared with the decoded
    keys. *)
Definition _has_key {S} (cwd : str) (s3 : boto3 S) (self : t) (key : list str)
  : M S bool :=
  do! all_keys <- list_keys cwd s3 self;
  ret (bool_decide (Some <$> key ∈ all_keys)).

End TupleS3StoreBackend.

(** ** The GCS backend *)
Module TupleGCSStoreBackend.

(** The calls the backend makes on google.cloud.storage, over a store of
    type [S], with the name of the bucket as their first argument:
    [download_as_string] answers with the decoded content of the blob of a
    name, [upload_from_string] stores a content under a name,
    [rename_blob] renames the blob of a name, and [list_blobs] answers
    with the names of the blobs for a prefix. *)
Record storage (S : Type) := {
  download_as_string : str → str → M S str;
  upload_from_string : str → str → str → M S unit;
  rename_blob : str → str → str → M S unit;
  list_blobs : str → str → M S (list str);
}.
Arguments download_as_string {S}.
Arguments upload_from_string {S}.
Arguments rename_blob {S}.
Arguments list_blobs {S}.

Record t := {
  base : TupleStoreBackend.t;
  bucket : str;
  prefix : str;
  project : str;
}.

Definition _get {S} (gcs : storage S) (self : t) (key : list str) : M S str :=
  do! path <- lift (TupleStoreBackend._convert_key_to_filepath (base self) key);
  let gcs_object_key := os_path_join2 (prefix self) path in
  download_as_string gcs (bucket self) gcs_object_key.

Definition _set {S} (gcs : storage S) (self : t) (key : list str) (value : str)
  : M S str :=
  do! path <- lift (TupleStoreBackend._convert_key_to_filepath (base self) key);
  let gcs_object_key := os_path_join2 (prefix self) path in
  do! _ <- upload_from_string gcs (bucket self) gcs_object_key value;
  ret gcs_object_key.

(** The second definition of [_move] in the class, which replaces the
    first. *)
Definition _move {S} (gcs : storage S) (self : t) (source_key dest_key : list str)
  : M S unit :=
  do! source_filepath <-
    lift (TupleStoreBackend._convert_key_to_filepath (base self) source_key);
  let source_filepath :=
    if negb (startswith source_filepath (prefix self))
    then os_path_join2 (prefix self) source_filepath
    else source_filepath in
  do! dest_filepath <-
    lift (TupleStoreBackend._convert_key_to_filepath (base self) dest_key);
  let dest_filepath :=
    if negb (startswith dest_filepath (prefix self))
    then os_path_join2 (prefix self) dest_filepath
    else dest_filepath in
  rename_blob gcs (bucket self) source_filepath dest_filepath.

(** The body of the loop of [list_keys]: the keys the blob
    [gcs_object_name] adds to [key_list], in the working directory
    [cwd]. *)
Definition list_keys_blob (cwd : str) (self : t) (gcs_object_name : str)
  : result (list slots) :=
  let b := base self in
  do gcs_object_key <- Posix.os_path_relpath_in cwd gcs_object_name (prefix self);
  if truthy (TupleStoreBackend.filepath_prefix b)
     && negb (startswith gcs_object_key
                (default [] (TupleStoreBackend.filepath_prefix b)))
  then Ok []
  else if truthy (TupleStoreBackend.filepath_suffix b)
          && negb (endswith gcs_object_key
                     (default [] (TupleStoreBackend.filepath_suffix b)))
  then Ok []
  else
    do key <- TupleStoreBackend._convert_filepath_to_key b gcs_object_key;
    match key with
    | Some (key_element :: key') => Ok [key_element :: key']
    | _ => Ok []
    end.

Definition list_keys {S} (cwd : str) (gcs : storage S) (self : t)
  : M S (list slots) :=
  do! blobs <- list_blobs gcs (bucket self) (prefix self);
  lift (Posix.collect (list_keys_blob cwd self) blobs).

Definition get_url_for_key (self : t) (key : list str) : result str :=
  do path <- TupleStoreBackend._convert_key_to_filepath (base self) key;
  let path :=
    if negb (startswith path (prefix self))
    then os_path_join2 (prefix self) path
    else path in
  Ok (L "https://storage.googleapis.com/" ++ bucket self ++ L "/" ++ path).

(** [key in all_keys]: a key of strings is compared with the decoded
    keys. *)
Definition _has_key {S} (cwd : str) (gcs : storage S) (self : t)
    (key : list str) : M S bool :=
  do! all_keys <- list_keys cwd gcs self;
  ret (bool_decide (Some <$> key ∈ all_keys)).

End TupleGCSStoreBackend.

(** ** Vocabulary of the statements *)

Import TupleStoreBackend.

Definition default_args (template prefix suffix : option str) (pss : bool) : args := {|
  arg_filepath_template := template;
  arg_filepath_prefix := prefix;
  arg_filepath_suffix := suffix;
  arg_forbidden_substrings := None;
  arg_platform_specific_separator := pss;
  arg_fixed_length_key := false;
|}.

(** The backend a successful construction yields, with the default
    forbidden substrings. *)
Definition backend (sb : StoreBackend) (template prefix suffix : option str)
    (pss : bool) : t := {|
  super := sb;
  forbidden_substrings := [L "/"; L "\"];
  platform_specific_separator := pss;
  filepath_template := template;
  filepath_prefix := prefix;
  filepath_suffix := suffix;
  key_length :=
    (λ template, count_distinct (re_findall_placeholders template)) <$> template;
  _fixed_length_key := bool_decide (template ≠ None);
|}.

(** The number of groups of a regular expression. *)
Fixpoint count_groups (r : list ritem) : nat :=
  match r with
  | [] => 0
  | RGroup :: r' => S (count_groups r')
  | _ :: r' => count_groups r'
  end.

(** A token that is not a stray brace. *)
Definition tok_plain (t : tok) : bool :=
  match t with
  | TChar c => negb (bool_decide (c = chr_lbrace)) && negb (bool_decide (c = chr_rbrace))
  | TField _ => true
  end.

(** A template whose only braces are those of its placeholders. *)
Definition plain_template (template : str) : bool :=
  forallb tok_plain (scan template).

(** Substitution of the arguments for the placeholders. *)
Fixpoint subst (args : list str) (ts : list tok) : result str :=
  match ts with
  | [] => Ok []
  | TChar c :: ts' => do r <- subst args ts'; Ok (c :: r)
  | TField ds :: ts' =>
      do v <- get_field args ds;
      do r <- subst args ts'; Ok (v ++ r)
  end.

(** A token the regular expression takes literally, up to ".": a
    placeholder, or a character without special meaning. *)
Definition tok_regular (t : tok) : bool :=
  match t with
  | TChar c => negb (re_special c)
  | TField _ => true
  end.

(** The item of the regular expression a regular token stands for. *)
Definition item_of (t : tok) : ritem :=
  match t with
  | TField _ => RGroup
  | TChar c => if bool_decide (c = chr_dot) then RAny else RLit c
  end.

(** Every placeholder but the first comes after a "/" that follows the
    placeholder before it; [pending] says that a placeholder was met since
    the last "/". *)
Fixpoint separated (pending : bool) (ts : list tok) : bool :=
  match ts with
  | [] => true
  | TChar c :: ts' =>
      separated (if bool_decide (c = chr_slash) then false else pending) ts'
  | TField _ :: ts' => negb pending && separated true ts'
  end.

(** A key component with neither "/" nor a newline. *)
Definition clean (s : str) : bool :=
  forallb (λ a, negb (bool_decide (a = chr_slash))
                && negb (bool_decide (a = chr_newline))) s.

(** The key component a placeholder stands for. *)
Definition component (key : list str) (ds : str) : str :=
  default [] (key !! N.to_nat (int_of_digits ds)).

(** The template with the key filled in. *)
Fixpoint fmt (key : list str) (ts : list tok) : str :=
  match ts with
  | [] => []
  | TChar c :: ts' => c :: fmt key ts'
  | TField ds :: ts' => component key ds ++ fmt key ts'
  end.

(** The key components at the placeholders, in template order. *)
Fixpoint captures (key : list str) (ts : list tok) : list str :=
  match ts with
  | [] => []
  | TChar _ :: ts' => captures key ts'
  | TField ds :: ts' => component key ds :: captures key ts'
  end.

Definition slashes (s : str) : nat :=
  length (filter (λ a, a = chr_slash) s).

Fixpoint slash_items (r : list ritem) : nat :=
  match r with
  | [] => 0
  | RLit c :: r' => (if bool_decide (c = chr_slash) then 1 else 0) + slash_items r'
  | _ :: r' => slash_items r'
  end.

(** The same backend with another setting of the path normalisation. *)
Definition with_separator (pss : bool) (self : t) : t := {|
  super := super self;
  forbidden_substrings := forbidden_substrings self;
  platform_specific_separator := pss;
  filepath_template := filepath_template self;
  filepath_prefix := filepath_prefix self;
  filepath_suffix := filepath_suffix self;
  key_length := key_length self;
  _fixed_length_key := _fixed_length_key self;
|}.

(** The encoded path before normalisation: the filled template between
    the prefix and the suffix. *)
Definition affixed (self : t) (body : str) : str :=
  let with_prefix :=
    if truthy (filepath_prefix self)
    then default [] (filepath_prefix self) ++ L "/" ++ body else body in
  if truthy (filepath_suffix self)
  then with_prefix ++ default [] (filepath_suffix self) else with_prefix.

(** A bucket that lists and deletes without paging or failure: the client
    used in examples.  The bucket name is not looked at. *)
Definition simple_s3 : TupleS3StoreBackend.client (gmap str str) := {|
  TupleS3StoreBackend.list_objects := λ _ prefix st,
    (Ok (filter (λ k, startswith k prefix = true) (map_to_list st).*1), st);
  TupleS3StoreBackend.delete_objects := λ _ keys st,
    (Ok tt, foldr delete st keys);
|}.

Definition s3_backend (prefix : str) : TupleS3StoreBackend.t := {|
  TupleS3StoreBackend.base := backend spec_StoreBackend None None None false;
  TupleS3StoreBackend.bucket := L "bucket";
  TupleS3StoreBackend.prefix := prefix;
|}.

(** The name of the object number [i] of the example bucket: three
    letters after "p/", so that the names come in the order of the
    numbers. *)
Definition object_name (i : nat) : str :=
  L "p/" ++ map (λ d, ascii_of_nat (97 + d)) [i / 676; (i / 26) mod 26; i mod 26].

(** A bucket given by the list of its keys, in the order of a listing.
    One [list_objects] answers with the first 1000 keys for the prefix and
    no more, as one call on S3 does; [delete_objects] deletes the keys it
    is given.  The bucket name is not looked at. *)
Definition paged_s3 : TupleS3StoreBackend.client (list str) := {|
  TupleS3StoreBackend.list_objects := λ _ prefix st,
    (Ok (take 1000 (List.filter (λ k, startswith k prefix) st)), st);
  TupleS3StoreBackend.delete_objects := λ _ keys st,
    (Ok tt, List.filter (λ k, negb (bool_decide (k ∈ keys))) st);
|}.

(** A project directory "/ge" holding its configuration file. *)
Definition project_fs : Posix.fs :=
  <[ [L "ge"; L "great_expectations.yml"] := Posix.File (L "config") ]>
    (<[ [L "ge"] := Posix.Dir ]> {[ [] := Posix.Dir ]}).

(** A filesystem backend is constructed for [base_directory] under the
    root directory "/ge", the value "v" is stored under the key
    ("a", "f"), and [call] is made on the backend. *)
Definition after_set {A} (base_directory : str)
    (call : TupleFilesystemStoreBackend.t → M Posix.fs A) : M Posix.fs A :=
  do! self <- TupleFilesystemStoreBackend.__init__ spec_StoreBackend (λ n, n)
                base_directory (Some (L "/ge")) (default_args None None None true);
  do! _ <- TupleFilesystemStoreBackend._set self [L "a"; L "f"] (L "v");
  call self.

(** A store under "/ge/store" that holds the value "v" under the key
    ("a", "f"). *)
Definition store_backend : TupleFilesystemStoreBackend.t := {|
  TupleFilesystemStoreBackend.base := backend spec_StoreBackend None None None true;
  TupleFilesystemStoreBackend.full_base_directory := L "/ge/store";
|}.

Definition store_fs : Posix.fs :=
  <[ [L "ge"; L "store"; L "a"; L "f"] := Posix.File (L "v") ]>
    (<[ [L "ge"; L "store"; L "a"] := Posix.Dir ]>
       (<[ [L "ge"; L "store"] := Posix.Dir ]>
          (<[ [L "ge"] := Posix.Dir ]> {[ [] := Posix.Dir ]}))).

(** [sub] occurs in [s]. *)
Definition occurs_in (sub s : str) : Prop := ∃ before after, s = before ++ sub ++ after.

(** The key the constructor draws for its self-check. *)
Definition random_key (rand : nat → nat) (n : nat) : list str :=
  map (λ i, get_random_hex rand (4 * i)) (seq 0 n).

(** The arguments of a constructor call with a template, the default
    forbidden substrings and no path normalisation. *)
Definition template_args (template : str) (prefix : option str) (fixed : bool)
  : args := {|
  arg_filepath_template := Some template;
  arg_filepath_prefix := prefix;
  arg_filepath_suffix := None;
  arg_forbidden_substrings := None;
  arg_platform_specific_separator := false;
  arg_fixed_length_key := fixed;
|}.

(** The number of literal "/" among the tokens of a template. *)
Fixpoint slash_toks (ts : list tok) : nat :=
  match ts with
  | [] => 0
  | TChar c :: ts' => (if bool_decide (c = chr_slash) then 1 else 0) + slash_toks ts'
  | TField _ :: ts' => slash_toks ts'
  end.

(** A name of a directory entry: not empty, not "." or "..", without "/". *)
Definition proper_name (s : str) : bool :=
  negb (bool_decide (s = [])) && negb (bool_decide (s = L "."))
  && negb (bool_decide (s = L "..")) && forallb (λ a, negb (bool_decide (a = chr_slash))) s.

(** The path [q] lies in the directory [d], at any depth. *)
Definition strictly_below (d q : list str) : Prop :=
  ∃ rest, rest ≠ [] ∧ q = d ++ rest.

(** The example store once its only key is removed. *)
Definition emptied_store_fs : Posix.fs :=
  <[ [L "ge"; L "store"] := Posix.Dir ]>
    (<[ [L "ge"] := Posix.Dir ]> {[ [] := Posix.Dir ]}).


(** A well-formed tree: the root is a directory, and every other entry
    lies in a directory. *)
Definition tree (st : Posix.fs) : Prop :=
  st !! [] = Some Posix.Dir
  ∧ ∀ q x, st !! q = Some x → q ≠ [] → st !! Posix.parent q = Some Posix.Dir.


(** Every name of the store is a proper name. *)
Definition proper_names (st : Posix.fs) : Prop :=
  ∀ q x, st !! q = Some x → Forall (λ s, proper_name s = true) q.

(** A regular file of the store, at the path [q] relative to the
    directory [b]. *)
Definition file_below (st : Posix.fs) (b q : list str) : Prop :=
  q ≠ [] ∧ ∃ content, st !! (b ++ q) = Some (Posix.File content).

(** Neither filter of [list_keys] skips [filepath]. *)
Definition selected (self : t) (filepath : str) : bool :=
  negb (truthy (filepath_prefix self)
        && negb (startswith filepath (default [] (filepath_prefix self))))
  && negb (truthy (filepath_suffix self)
           && negb (endswith filepath (default [] (filepath_suffix self)))).

(** A backend without template, prefix and suffix. *)
Definition plain (self : t) : Prop :=
  truthy (filepath_template self) = false
  ∧ truthy (filepath_prefix self) = false
  ∧ truthy (filepath_suffix self) = false.

(** The example store once its key is moved to ("b", "g"). *)
Definition moved_store_fs : Posix.fs :=
  <[ [L "ge"; L "store"; L "b"; L "g"] := Posix.File (L "v") ]>
    (delete [L "ge"; L "store"; L "a"; L "f"]
       (<[ [L "ge"; L "store"; L "b"] := Posix.Dir ]> store_fs)).

(** A bucket held in memory, without paging or failure other than a
    missing object: the boto3 of the examples.  There is one bucket, in the
    default region, and the bucket name is not looked at. *)
Definition simple_boto3 : TupleS3StoreBackend.boto3 (gmap str str) := {|
  TupleS3StoreBackend.s3_client := simple_s3;
  TupleS3StoreBackend.get_object := λ _ key st,
    match st !! key with
    | Some body => (Ok body, st)
    | None => (Raise ClientError, st)
    end;
  TupleS3StoreBackend.get_bucket_location := λ _ st, (Ok None, st);
  TupleS3StoreBackend.Object_put := λ _ key body st, (Ok tt, <[key := body]> st);
  TupleS3StoreBackend.Bucket_copy := λ _ source dest st,
    match st !! source with
    | Some body => (Ok tt, <[dest := body]> st)
    | None => (Raise ClientError, st)
    end;
  TupleS3StoreBackend.Object_delete := λ _ key st, (Ok tt, delete key st);
|}.

(** A bucket held in memory, without failure other than a missing blob:
    the storage client of the examples.  The bucket name is not looked
    at. *)
Definition simple_gcs : TupleGCSStoreBackend.storage (gmap str str) := {|
  TupleGCSStoreBackend.download_as_string := λ _ name st,
    match st !! name with
    | Some content => (Ok content, st)
    | None => (Raise AttributeError, st)
    end;
  TupleGCSStoreBackend.upload_from_string := λ _ name content st,
    (Ok tt, <[name := content]> st);
  TupleGCSStoreBackend.rename_blob := λ _ source dest st,
    match st !! source with
    | Some content => (Ok tt, <[dest := content]> (delete source st))
    | None => (Raise ClientError, st)
    end;
  TupleGCSStoreBackend.list_blobs := λ _ prefix st,
    (Ok (filter (λ k, startswith k prefix = true) (map_to_list st).*1), st);
|}.

Definition gcs_backend (prefix : str) : TupleGCSStoreBackend.t := {|
  TupleGCSStoreBackend.base := backend spec_StoreBackend None None None false;
  TupleGCSStoreBackend.bucket := L "bucket";
  TupleGCSStoreBackend.prefix := prefix;
  TupleGCSStoreBackend.project := L "project";
|}.
(** * Properties *)

(** ** Sanity checks of the path functions *)

Example normpath_examples :
  os_path_normpath (L "a/x/y/b-y.txt") = L "a/x/y/b-y.txt"
  ∧ os_path_normpath (L "./p/x") = L "p/x"
  ∧ os_path_normpath (L "a//b/../c/") = L "a/c"
  ∧ os_path_normpath (L "//a") = L "//a"
  ∧ os_path_normpath (L "///a/..") = L "/"
  ∧ os_path_normpath (L "../a") = L "../a"
  ∧ os_path_normpath (L "a/..") = L "."
  ∧ os_path_normpath (L "") = L ".".
Proof. repeat split; vm_compute; reflexivity. Qed.

Example split_examples :
  os_path_split (L "/tmp/base/a/f") = (L "/tmp/base/a", L "f")
  ∧ os_path_split (L "/tmp/base/") = (L "/tmp/base", L "")
  ∧ os_path_split (L "/f") = (L "/", L "f")
  ∧ os_path_split (L "//") = (L "//", L "")
  ∧ os_path_split (L "f") = (L "", L "f")
  ∧ os_path_split (L "a//f") = (L "a", L "f").
Proof. repeat split; vm_compute; reflexivity. Qed.

Example join_examples :
  os_path_join [L "/tmp/base/"; L "a/f"] = Some (L "/tmp/base/a/f")
  ∧ os_path_join [L "/tmp/base"; L "a/f"] = Some (L "/tmp/base/a/f")
  ∧ os_path_join [L "/tmp/base"; L "/etc"] = Some (L "/etc")
  ∧ os_path_join (split_on chr_slash (L "a//b")) = Some (L "a/b")
  ∧ os_path_join (split_on chr_slash (L "/a")) = Some (L "a")
  ∧ os_path_join (split_on chr_slash (L "a/")) = Some (L "a/").
Proof. repeat split; vm_compute; reflexivity. Qed.


(** ** Outcomes *)

Lemma bind_Ok_inv {A B} (c : result A) (k : A → result B) b :
  bind c k = Ok b → ∃ a, c = Ok a ∧ k a = Ok b.
Proof. destruct c; simpl; intros; eauto; discriminate. Qed.

(** ** Python strings *)

Lemma startswith_app (s p : str) : startswith (p ++ s) p = true.
Proof.
  induction p as [|c p IH]; simpl; [done|].
  rewrite bool_decide_true by done. exact IH.
Qed.

Lemma endswith_app (s p : str) : endswith (s ++ p) p = true.
Proof. unfold endswith. rewrite reverse_app. apply startswith_app. Qed.

(** ** Key validation *)

Lemma validate_key_Ok (self : t) (key : list str) :
  _validate_key self key = Ok tt ↔
  StoreBackend_validate_key (super self) key = None
  ∧ Forall (λ key_element,
       Forall (λ substring, contains substring key_element = false)
              (forbidden_substrings self)) key.
Proof.
  unfold _validate_key.
  destruct (StoreBackend_validate_key (super self) key) as [e|]; simpl.
  { split; [done|]. by intros [? _]. }
  destruct (existsb _ key) eqn:Hex.
  - split; [done|]. intros [_ Hall]. exfalso.
    apply existsb_exists in Hex as (el & Hel & Hex).
    apply existsb_exists in Hex as (sub & Hsub & Hc).
    rewrite Forall_forall in Hall. apply list_elem_of_In in Hel, Hsub.
    specialize (Hall _ Hel). rewrite Forall_forall in Hall.
    specialize (Hall _ Hsub). congruence.
  - split; [|done]. intros _. split; [done|].
    apply Forall_forall. intros el Hel. apply Forall_forall. intros sub Hsub.
    apply list_elem_of_In in Hel, Hsub.
    destruct (contains sub el) eqn:Hc; [|done].
    assert (existsb (λ key_element,
              existsb (λ substring, contains substring key_element)
                      (forbidden_substrings self)) key = true); [|congruence].
    apply existsb_exists. exists el. split; [done|].
    apply existsb_exists. eauto.
Qed.

(** C6: a key with a component containing "/" is rejected by key
    validation, and so by every encoding, when "/" is forbidden (as it is by
    default), whatever the template, prefix or suffix, and whatever the
    superclass validation does. *)
Theorem forbidden_slash_rejected (self : t) (key : list str) (key_element : str) :
  L "/" ∈ forbidden_substrings self →
  key_element ∈ key →
  contains (L "/") key_element = true →
  raises (_validate_key self key) ∧ raises (_convert_key_to_filepath self key).
Proof.
  intros Hforbidden Hel Hc.
  assert (raises (_validate_key self key)) as [e He].
  { unfold _validate_key.
    destruct (StoreBackend_validate_key (super self) key) as [e|]; simpl.
    { by exists e. }
    replace (existsb _ key) with true; [by eexists|].
    symmetry. apply existsb_exists. exists key_element.
    split; [by apply list_elem_of_In|].
    apply existsb_exists. exists (L "/"). split; [by apply list_elem_of_In|done]. }
  split; [by exists e|]. exists e.
  unfold _convert_key_to_filepath. by rewrite He.
Qed.

Lemma forbidden_slash_rejected_witness :
  L "/" ∈ forbidden_substrings
            (backend spec_StoreBackend (Some (L "{0}/{1}")) None None false)
  ∧ (raises (_validate_key
               (backend spec_StoreBackend (Some (L "{0}/{1}")) None None false)
               [L "a/b"; L "c"])
     ∧ raises (_convert_key_to_filepath
                 (backend spec_StoreBackend (Some (L "{0}/{1}")) None None false)
                 [L "a/b"; L "c"])).
Proof.
  split; [by apply list_elem_of_here|].
  apply (forbidden_slash_rejected _ _ (L "a/b")).
  - by apply list_elem_of_here.
  - by apply list_elem_of_here.
  - reflexivity.
Defined.

(** C10: a constructor call that passes both a template and a suffix
    raises; a call that returns with a suffix was given no template. *)
Theorem init_template_excludes_suffix (sb : StoreBackend) (rand : nat → nat)
    (a : args) :
  (arg_filepath_template a ≠ None → arg_filepath_suffix a ≠ None →
   raises (__init__ sb rand a))
  ∧ (∀ self, __init__ sb rand a = Ok self → arg_filepath_suffix a ≠ None →
       arg_filepath_template a = None ∧ filepath_template self = None
       ∧ filepath_suffix self = arg_filepath_suffix a).
Proof.
  unfold __init__. split.
  - intros Ht Hs.
    destruct (StoreBackend_init sb (arg_fixed_length_key a)) as [e|]; simpl.
    { by exists e. }
    rewrite !bool_decide_true by done. simpl. by eexists.
  - intros self Hinit Hs.
    destruct (StoreBackend_init sb (arg_fixed_length_key a)) as [e|];
      simpl in Hinit; [done|].
    rewrite (bool_decide_true (arg_filepath_suffix a ≠ None)) in Hinit by done.
    rewrite andb_true_r in Hinit. case_bool_decide as Ht; [done|].
    assert (arg_filepath_template a = None) as Hnone.
    { destruct (arg_filepath_template a); [|done]. by destruct Ht. }
    rewrite Hnone in Hinit. split; [done|].
    apply bind_Ok_inv in Hinit as (? & _ & Hself).
    injection Hself as <-. done.
Qed.

Lemma init_template_excludes_suffix_witness :
  raises (__init__ spec_StoreBackend (λ n, n)
            (default_args (Some (L "{0}")) None (Some (L ".json")) false))
  ∧ arg_filepath_template (default_args None None (Some (L ".json")) false) = None.
Proof.
  split.
  - apply (init_template_excludes_suffix spec_StoreBackend (λ n, n)
             (default_args (Some (L "{0}")) None (Some (L ".json")) false));
      discriminate.
  - eapply (init_template_excludes_suffix spec_StoreBackend (λ n, n)
              (default_args None None (Some (L ".json")) false)).
    + reflexivity.
    + discriminate.
Defined.

(** ** The scenario of the specification *)

(** C2: with the template "a/{0}/{1}/b-{1}.txt" and neither prefix nor
    suffix, the key ("x", "y") is encoded as "a/x/y/b-y.txt" and that path
    is decoded as ("x", "y"), with and without path normalisation. *)
Theorem scenario_template_roundtrip (sb : StoreBackend) (pss : bool) :
  StoreBackend_validate_key sb [L "x"; L "y"] = None →
  let self := backend sb (Some (L "a/{0}/{1}/b-{1}.txt")) None None pss in
  _convert_key_to_filepath self [L "x"; L "y"] = Ok (L "a/x/y/b-y.txt")
  ∧ _convert_filepath_to_key self (L "a/x/y/b-y.txt")
    = Ok (Some [Some (L "x"); Some (L "y")]).
Proof.
  intros Hsuper self. split.
  - unfold _convert_key_to_filepath, _validate_key. simpl super.
    rewrite Hsuper. destruct pss; vm_compute; reflexivity.
  - destruct pss; vm_compute; reflexivity.
Qed.

Lemma scenario_template_roundtrip_witness :
  _convert_key_to_filepath
    (backend spec_StoreBackend (Some (L "a/{0}/{1}/b-{1}.txt")) None None true)
    [L "x"; L "y"] = Ok (L "a/x/y/b-y.txt")
  ∧ _convert_filepath_to_key
      (backend spec_StoreBackend (Some (L "a/{0}/{1}/b-{1}.txt")) None None true)
      (L "a/x/y/b-y.txt")
    = Ok (Some [Some (L "x"); Some (L "y")]).
Proof. apply (scenario_template_roundtrip spec_StoreBackend true). reflexivity. Defined.

(** The constructor accepts the template of the scenario and yields the
    backend used above. *)
Example scenario_template_constructed :
  __init__ spec_StoreBackend (λ n, 7 * n + 3)
    (default_args (Some (L "a/{0}/{1}/b-{1}.txt")) None None true)
  = Ok (backend spec_StoreBackend (Some (L "a/{0}/{1}/b-{1}.txt")) None None true).
Proof. vm_compute. reflexivity. Qed.

(** ** The prefix check of the decoder *)

Lemma strip_suffix_raises (self : t) (filepath : str) e :
  strip_suffix self filepath = Raise e → e = ValueError SuffixMismatch.
Proof.
  unfold strip_suffix. repeat case_match; intros; simplify_eq; done.
Qed.

Lemma fill_raises (new_key : slots) writes e :
  fill new_key writes = Raise e → e = IndexError.
Proof.
  revert new_key. induction writes as [|[i v] writes IH]; intros new_key; simpl.
  - done.
  - case_match; [apply IH|]. by intros [= <-].
Qed.

Lemma compile_toks_not_raise (ts : list tok) e : compile_toks ts ≠ Raise e.
Proof.
  revert e. induction ts as [ts IH] using (induction_ltof1 _ length).
  unfold ltof in IH. intros e.
  destruct ts as [|[c|ds] ts]; simpl; [done| |].
  - repeat case_match; try done; subst.
    + destruct (compile_toks _) eqn:Hc; simpl; try done.
      exfalso. eapply (IH _ _ _ Hc).
    + destruct (compile_toks ts) eqn:Hc; simpl; try done.
      exfalso. eapply (IH _ _ _ Hc).
    + destruct (compile_toks ts) eqn:Hc; simpl; try done.
      exfalso. eapply (IH _ _ _ Hc).
  - destruct (compile_toks ts) eqn:Hc; simpl; try done.
    exfalso. eapply (IH _ _ _ Hc).
  Unshelve. all: simpl; lia.
Qed.

Lemma decode_stripped_no_prefix_error (self : t) (filepath : str) :
  decode_stripped self filepath ≠ Raise (ValueError PrefixMismatch).
Proof.
  unfold decode_stripped. intros H.
  destruct (strip_suffix self filepath) as [fp|e|] eqn:Hs; simpl in H.
  - case_match; [|done]. unfold match_template in H.
    destruct (regex_template self) as [tpl|e|] eqn:Ht; simpl in H; try done.
    { destruct (compile_toks (scan tpl)) as [re|e|] eqn:Hc; simpl in H; try done.
      - repeat case_match; try done.
        destruct (fill _ _) eqn:Hf; simpl in H; try done.
        apply fill_raises in Hf. congruence.
      - by apply compile_toks_not_raise in Hc. }
    unfold regex_template in Ht. repeat case_match; congruence.
  - apply strip_suffix_raises in Hs. congruence.
  - done.
Qed.

(** C3, as the code has it: the prefix check is made on the path after the
    optional normalisation.  A path that does not start with the prefix and
    has at least [len(prefix) + 1] characters raises the prefix error.  A
    shorter one raises no prefix error: [len(prefix) + 1] characters are cut
    off, which leaves the empty string, and decoding goes on with the suffix
    and the template. *)
Theorem decode_prefix_policy (self : t) (prefix filepath : str) :
  filepath_prefix self = Some prefix →
  prefix ≠ [] →
  let normalized :=
    if platform_specific_separator self then os_path_normpath filepath
    else filepath in
  startswith normalized prefix = false →
  (length prefix + 1 ≤ length normalized →
   _convert_filepath_to_key self filepath = Raise (ValueError PrefixMismatch))
  ∧ (length normalized < length prefix + 1 →
     _convert_filepath_to_key self filepath = decode_stripped self []
     ∧ _convert_filepath_to_key self filepath ≠ Raise (ValueError PrefixMismatch)).
Proof.
  intros Hprefix Hne normalized Hstart.
  unfold _convert_filepath_to_key. fold normalized.
  unfold strip_prefix. rewrite Hprefix. simpl.
  destruct prefix as [|c prefix]; [done|]. cbn [truthy].
  rewrite Hstart. cbn [negb andb]. split.
  - intros Hlen. rewrite (leb_correct _ _ Hlen). done.
  - intros Hlen. rewrite leb_correct_conv by lia. cbn [bind].
    rewrite drop_ge by lia.
    split; [done|]. apply decode_stripped_no_prefix_error.
Qed.

Lemma decode_prefix_policy_witness :
  _convert_filepath_to_key
    (backend spec_StoreBackend None (Some (L "pre")) None false) (L "other/x")
  = Raise (ValueError PrefixMismatch)
  ∧ _convert_filepath_to_key
      (backend spec_StoreBackend None (Some (L "pre")) None false) (L "ab")
    = decode_stripped
        (backend spec_StoreBackend None (Some (L "pre")) None false) [].
Proof.
  split.
  - apply (decode_prefix_policy
             (backend spec_StoreBackend None (Some (L "pre")) None false)
             (L "pre") (L "other/x")); [reflexivity|discriminate|reflexivity|].
    vm_compute. lia.
  - apply (decode_prefix_policy
             (backend spec_StoreBackend None (Some (L "pre")) None false)
             (L "pre") (L "ab")); [reflexivity|discriminate|reflexivity|].
    vm_compute. lia.
Defined.

(** C3 as stated fails twice.  With normalisation on, the input "./p/x"
    does not start with the prefix "p" and is long enough, yet it is
    decoded: the check sees "p/x".  And a short mismatching path is not
    decoded without error when a suffix is configured: the suffix check
    raises on what is left. *)
Lemma decode_prefix_policy_on_input_fails :
  (let self := backend spec_StoreBackend None (Some (L "p")) None true in
   startswith (L "./p/x") (L "p") = false
   ∧ length (L "p") + 1 ≤ length (L "./p/x")
   ∧ _convert_filepath_to_key self (L "./p/x") = Ok (Some [Some (L "x")]))
  ∧ (let self :=
       backend spec_StoreBackend None (Some (L "pre")) (Some (L ".json")) false in
     startswith (L "ab") (L "pre") = false
     ∧ length (L "ab") < length (L "pre") + 1
     ∧ _convert_filepath_to_key self (L "ab") = Raise (ValueError SuffixMismatch)).
Proof.
  split; (split; [reflexivity|split; [vm_compute; lia|vm_compute; reflexivity]]).
Qed.

(** ** Filling the decoded key *)

Lemma fill_length (new_key final : slots) writes :
  fill new_key writes = Ok final → length final = length new_key.
Proof.
  revert new_key. induction writes as [|[i v] writes IH]; intros new_key; simpl.
  - by intros [= <-].
  - case_match; [|done]. intros Hfill. apply IH in Hfill.
    by rewrite length_insert in Hfill.
Qed.

Lemma fill_untouched (new_key final : slots) writes (i : N) :
  fill new_key writes = Ok final →
  (∀ j i' v', writes !! j = Some (i', v') → i' ≠ i) →
  final !! N.to_nat i = new_key !! N.to_nat i.
Proof.
  revert new_key. induction writes as [|[i0 v0] writes IH]; intros new_key; simpl.
  - by intros [= <-].
  - case_match; [|done]. intros Hfill Hother.
    rewrite (IH _ Hfill).
    + apply list_lookup_insert_ne. intros Heq. apply N2Nat.inj in Heq.
      by apply (Hother 0 i0 v0).
    + intros j i' v' Hj. by apply (Hother (S j) i' v').
Qed.

(** The slot of an index holds what the last write to that index put
    there. *)
Lemma fill_last_write (new_key final : slots) writes (j : nat) (i : N) (v : str) :
  fill new_key writes = Ok final →
  writes !! j = Some (i, v) →
  (∀ j' i' v', j < j' → writes !! j' = Some (i', v') → i' ≠ i) →
  final !! N.to_nat i = Some (Some v).
Proof.
  revert new_key j.
  induction writes as [|[i0 v0] writes IH]; intros new_key j; simpl; [done|].
  case_match eqn:Hlt; [|done]. intros Hfill Hj Hlast.
  destruct j as [|j]; simpl in Hj.
  - injection Hj as -> ->.
    rewrite (fill_untouched _ _ _ i Hfill).
    + apply list_lookup_insert_eq. apply N.ltb_lt in Hlt. lia.
    + intros j' i' v' Hj'. apply (Hlast (S j') i' v'); [lia|done].
  - apply (IH _ j Hfill Hj). intros j' i' v' Hlt' Hj'.
    apply (Hlast (S j') i' v'); [lia|done].
Qed.

Lemma fill_Ok (new_key : slots) writes :
  Forall (λ w, (w.1 < N.of_nat (length new_key))%N) writes →
  ∃ final, fill new_key writes = Ok final.
Proof.
  revert new_key. induction writes as [|[i v] writes IH]; intros new_key Hall;
    simpl; [by eexists|].
  inversion Hall as [|? ? Hi Hrest]; subst. simpl in Hi.
  apply N.ltb_lt in Hi as Hi'. rewrite Hi'. apply IH.
  by rewrite length_insert.
Qed.

(** ** Regular expressions *)

Lemma re_match_group_unfold (r : list ritem) (s : str) :
  re_match (RGroup :: r) s =
  let stop := caps ← re_match r s; Some ([] :: caps) in
  match s with
  | [] => stop
  | a :: s' =>
      if bool_decide (a = chr_newline) then stop
      else match re_match (RGroup :: r) s' with
           | Some (cap :: caps) => Some ((a :: cap) :: caps)
           | _ => stop
           end
  end.
Proof. by destruct s. Qed.

Lemma re_match_length (r : list ritem) (s : str) (caps : list str) :
  re_match r s = Some caps → length caps = count_groups r.
Proof.
  revert s caps. induction r as [|x r IH]; intros s caps.
  - by intros [= <-].
  - destruct x as [c| |].
    + simpl. destruct s as [|a s]; [done|]. case_match; [|done]. apply IH.
    + simpl. destruct s as [|a s]; [done|]. case_match; [done|]. apply IH.
    + assert (∀ caps, (caps' ← re_match r s; Some ([] :: caps')) = Some caps →
                length caps = count_groups (RGroup :: r)) as Hstop.
      { intros caps0 H. destruct (re_match r s) eqn:Hm; [|done].
        injection H as <-. simpl. f_equal. by eapply IH. }
      revert caps Hstop. induction s as [|a s IHs]; intros caps Hstop;
        rewrite re_match_group_unfold; cbv zeta.
      * apply Hstop.
      * case_match; [apply Hstop|].
        destruct (re_match (RGroup :: r) s) as [[|cap caps']|] eqn:Hm;
          try apply Hstop.
        intros [= <-].
        change (length (cap :: caps') = count_groups (RGroup :: r)).
        apply IHs; [|done].
        intros caps0 Hcaps0. destruct (re_match r s) eqn:Hm'; [|done].
        injection Hcaps0 as <-. simpl. f_equal. by eapply IH.
Qed.

Lemma compile_toks_groups (ts : list tok) (r : list ritem) :
  compile_toks ts = Ok r → count_groups r = length (omap tok_index ts).
Proof.
  revert r. induction ts as [ts IH] using (induction_ltof1 _ length).
  unfold ltof in IH. intros r.
  destruct ts as [|[c|ds] ts]; simpl.
  - by intros [= <-].
  - repeat case_match; try done; subst; intros Hc;
      apply bind_Ok_inv in Hc as (r' & Hr' & [= <-]);
      simpl; (apply IH; [simpl; lia|done]).
  - intros Hc. apply bind_Ok_inv in Hc as (r' & Hr' & [= <-]).
    simpl. f_equal. apply IH; [simpl; lia|done].
Qed.


(** With the template "{0}/{0}" the path "a/b" is decoded as ("b",). *)
Example decode_repeated_placeholder :
  _convert_filepath_to_key
    (backend spec_StoreBackend (Some (L "{0}/{0}")) None None false) (L "a/b")
  = Ok (Some [Some (L "b")]).
Proof. vm_compute. reflexivity. Qed.


(** ** Formatting the template *)

Lemma stray_brace_not_plain (ts : list tok) :
  forallb tok_plain (TChar chr_lbrace :: ts) = true → False.
Proof. cbn [forallb]. by replace (tok_plain (TChar chr_lbrace)) with false. Qed.

Lemma format_scan (args : list str) (s : str) :
  (∀ ds, forallb tok_plain (scan_from (Some ds) s) = true →
         format_from args (FOpen ds) s = subst args (scan_from (Some ds) s))
  ∧ (forallb tok_plain (scan_from None s) = true →
     format_from args FText s = subst args (scan_from None s)).
Proof.
  induction s as [|a s [IHopen IHtext]]; (split; [intros ds|]); simpl.
  - intros Hplain. by apply stray_brace_not_plain in Hplain.
  - done.
  - destruct (is_digit a) eqn:Hd; [apply IHopen|].
    destruct (bool_decide (a = chr_rbrace) && negb (bool_decide (ds = []))) eqn:Hr.
    + apply andb_true_iff in Hr as [Ha Hds].
      apply bool_decide_eq_true in Ha as ->.
      rewrite (bool_decide_false (chr_rbrace = chr_lbrace)) by done.
      simpl. intros Hplain. by rewrite IHtext.
    + destruct (bool_decide (a = chr_lbrace)); intros Hplain;
        by apply stray_brace_not_plain in Hplain.
  - case_bool_decide as Hl; [apply IHopen|].
    simpl. intros [Ha Hplain]%andb_true_iff.
    apply andb_true_iff in Ha as [_ Ha]. apply negb_true_iff in Ha.
    rewrite Ha. by rewrite IHtext.
Qed.

Lemma str_format_subst (template : str) (args : list str) :
  plain_template template = true →
  str_format template args = subst args (scan template).
Proof. apply format_scan. Qed.

Lemma subst_Ok (args : list str) (ts : list tok) :
  Forall (λ i, (i ≤ PY_SSIZE_T_MAX)%N ∧ (i < N.of_nat (length args))%N)
         (omap tok_index ts) →
  ∃ r, subst args ts = Ok r.
Proof.
  induction ts as [|[c|ds] ts IH]; simpl; intros Hall.
  - by eexists.
  - destruct (IH Hall) as [r ->]. by eexists.
  - inversion Hall as [|? ? [Hmax Hlt] Hrest]; subst.
    destruct (IH Hrest) as [r ->]. unfold get_field.
    rewrite (proj2 (N.ltb_ge _ _) Hmax).
    destruct (args !! N.to_nat (int_of_digits ds)) as [v|] eqn:Hv.
    + by eexists.
    + apply lookup_ge_None in Hv. lia.
Qed.

Lemma subst_IndexError (args : list str) (ts : list tok) :
  Forall (λ i, (i ≤ PY_SSIZE_T_MAX)%N) (omap tok_index ts) →
  Exists (λ i, (N.of_nat (length args) ≤ i)%N) (omap tok_index ts) →
  subst args ts = Raise IndexError.
Proof.
  induction ts as [|[c|ds] ts IH]; simpl; intros Hall Hex.
  - inversion Hex.
  - by rewrite IH.
  - inversion Hall as [|? ? Hmax Hrest]; subst.
    unfold get_field. rewrite (proj2 (N.ltb_ge _ _) Hmax).
    destruct (args !! N.to_nat (int_of_digits ds)) as [v|] eqn:Hv; [|done].
    simpl. rewrite IH; [done|done|].
    inversion Hex as [? ? Hge|]; subst; [|done].
    apply lookup_lt_Some in Hv. lia.
Qed.

Lemma subst_take (n : nat) (args : list str) (ts : list tok) :
  Forall (λ i, (i < N.of_nat n)%N) (omap tok_index ts) →
  subst (take n args) ts = subst args ts.
Proof.
  induction ts as [|[c|ds] ts IH]; simpl; intros Hall.
  - done.
  - by rewrite IH.
  - inversion Hall as [|? ? Hlt Hrest]; subst. rewrite IH by done.
    unfold get_field. rewrite lookup_take_lt by lia. done.
Qed.

(** C5, as the code has it: the key length is not checked.  For a template
    whose only braces are those of its placeholders, which carry exactly
    the indices below [n], a validated key with at least [n] components is
    encoded, and to the same path as every validated key with the same
    first [n] components: the components from [n] on are not used.  A
    validated key with fewer components makes [format] raise [IndexError],
    which is not a key-validation error. *)
Theorem encode_arity_not_enforced (self : t) (template : str) (key : list str)
    (n : nat) :
  filepath_template self = Some template →
  template ≠ [] →
  plain_template template = true →
  (∀ i, i ∈ placeholder_indices template ↔ (i < N.of_nat n)%N) →
  (N.of_nat n ≤ PY_SSIZE_T_MAX)%N →
  _validate_key self key = Ok tt →
  (n ≤ length key →
   ∃ filepath,
     _convert_key_to_filepath self key = Ok filepath
     ∧ ∀ key', _validate_key self key' = Ok tt →
               take n key' = take n key →
               _convert_key_to_filepath self key' = Ok filepath)
  ∧ (length key < n → _convert_key_to_filepath self key = Raise IndexError).
Proof.
  intros Htemplate Hne Hplain Hidx Hmax Hvalid.
  unfold _convert_key_to_filepath. rewrite Hvalid, Htemplate. cbn [bind default].
  destruct template as [|c template]; [done|]. cbn [truthy].
  rewrite !(str_format_subst _ _ Hplain).
  fold (placeholder_indices (c :: template)) in *.
  split; intros Hlen.
  - destruct (subst_Ok key (scan (c :: template))) as [r Hr].
    { apply Forall_forall. intros i Hi. apply Hidx in Hi. lia. }
    rewrite Hr. cbn [bind]. eexists. split; [done|].
    intros key' Hvalid' Htake. rewrite Hvalid'. cbn [bind from_option id].
    rewrite (str_format_subst _ _ Hplain).
    assert (subst key' (scan (c :: template)) = Ok r) as ->; [|done].
    rewrite <- Hr, <- (subst_take n key'), <- (subst_take n key), Htake; try done.
    all: apply Forall_forall; intros i Hi; by apply Hidx.
  - rewrite subst_IndexError; [done| |].
    + apply Forall_forall. intros i Hi. apply Hidx in Hi. lia.
    + apply Exists_exists. exists (N.of_nat (length key)).
      split; [|lia]. apply Hidx. lia.
Qed.

Lemma encode_arity_not_enforced_witness :
  (∃ filepath,
     _convert_key_to_filepath
       (backend spec_StoreBackend (Some (L "{0}/{1}")) None None false)
       [L "a"; L "b"; L "c"] = Ok filepath
     ∧ ∀ key',
         _validate_key
           (backend spec_StoreBackend (Some (L "{0}/{1}")) None None false) key'
         = Ok tt →
         take 2 key' = take 2 [L "a"; L "b"; L "c"] →
         _convert_key_to_filepath
           (backend spec_StoreBackend (Some (L "{0}/{1}")) None None false) key'
         = Ok filepath)
  ∧ _convert_key_to_filepath
      (backend spec_StoreBackend (Some (L "{0}/{1}")) None None false)
      [L "a"] = Raise IndexError.
Proof.
  assert (∀ i, i ∈ placeholder_indices (L "{0}/{1}") ↔ (i < N.of_nat 2)%N) as Hidx.
  { intros i. change (placeholder_indices (L "{0}/{1}")) with [0%N; 1%N].
    rewrite !elem_of_cons, elem_of_nil. lia. }
  split.
  - apply (encode_arity_not_enforced
             (backend spec_StoreBackend (Some (L "{0}/{1}")) None None false)
             (L "{0}/{1}") [L "a"; L "b"; L "c"] 2);
      [reflexivity|discriminate|reflexivity|exact Hidx|vm_compute; discriminate
      |reflexivity|simpl; lia].
  - apply (encode_arity_not_enforced
             (backend spec_StoreBackend (Some (L "{0}/{1}")) None None false)
             (L "{0}/{1}") [L "a"] 2);
      [reflexivity|discriminate|reflexivity|exact Hidx|vm_compute; discriminate
      |reflexivity|simpl; lia].
Defined.

(** C5 as stated fails: the template "{0}/{1}" has two distinct
    placeholders, yet the key ("a", "b", "c") is encoded, as "a/b"; and the
    key ("a",) is refused by [format] with [IndexError], not by key
    validation. *)
Lemma encode_accepts_wrong_arity :
  let self := backend spec_StoreBackend (Some (L "{0}/{1}")) None None false in
  key_length self = Some 2
  ∧ _validate_key self [L "a"; L "b"; L "c"] = Ok tt
  ∧ _convert_key_to_filepath self [L "a"; L "b"; L "c"] = Ok (L "a/b")
  ∧ _validate_key self [L "a"] = Ok tt
  ∧ _convert_key_to_filepath self [L "a"] = Raise IndexError.
Proof. repeat split; vm_compute; reflexivity. Qed.

(** ** Matching the encoded path *)

Lemma re_match_slashes (r : list ritem) (s : str) (caps : list str) :
  re_match r s = Some caps → slash_items r ≤ slashes s.
Proof.
  unfold slashes.
  revert s caps. induction r as [|x r IH]; intros s caps; [simpl; lia|].
  destruct x as [c| |].
  - simpl. destruct s as [|a s]; [done|]. case_bool_decide as Hac; [|done].
    subst a. intros Hm%IH. rewrite filter_cons. case_decide; subst.
    + rewrite bool_decide_true by done. simpl. lia.
    + rewrite bool_decide_false by done. simpl. lia.
  - simpl. destruct s as [|a s]; [done|]. case_bool_decide; [done|].
    intros Hm%IH. rewrite filter_cons. case_decide; simpl; lia.
  - change (slash_items (RGroup :: r)) with (slash_items r).
    revert caps. induction s as [|a s IHs]; intros caps;
      rewrite re_match_group_unfold; cbv zeta.
    + destruct (re_match r []) eqn:Hm; [|done]. intros _. by eapply IH.
    + assert (∀ caps, (caps' ← re_match r (a :: s); Some ([] :: caps')) = Some caps →
                slash_items r ≤ length (filter (λ a, a = chr_slash) (a :: s)))
        as Hstop.
      { intros caps0. destruct (re_match r (a :: s)) eqn:Hm; [|done].
        intros _. by eapply IH. }
      case_bool_decide; [apply Hstop|].
      destruct (re_match (RGroup :: r) s) as [[|cap caps']|] eqn:Hm;
        try apply Hstop.
      intros _. specialize (IHs _ eq_refl).
      rewrite filter_cons. case_decide; simpl; lia.
Qed.

(** When no later start succeeds, a group captures nothing. *)
Lemma re_match_group_stop (r : list ritem) (s : str) :
  (∀ x rem, x ≠ [] → s = x ++ rem → re_match r rem = None) →
  re_match (RGroup :: r) s = (caps ← re_match r s; Some ([] :: caps)).
Proof.
  induction s as [|a s IH]; intros Hlater; rewrite re_match_group_unfold; cbv zeta.
  - done.
  - case_bool_decide; [done|].
    rewrite IH.
    + rewrite (Hlater [a] s); done.
    + intros x rem Hx ->. apply (Hlater (a :: x)); done.
Qed.

(** A greedy group captures [c] when the rest of the expression matches
    right after [c] and at no later start. *)
Lemma re_match_group_greedy (r : list ritem) (c s : str) (caps : list str) :
  Forall (λ a, a ≠ chr_newline) c →
  re_match r s = Some caps →
  (∀ x rem, x ≠ [] → s = x ++ rem → re_match r rem = None) →
  re_match (RGroup :: r) (c ++ s) = Some (c :: caps).
Proof.
  intros Hc Hm Hlater. induction Hc as [|a c Ha Hc IH]; simpl app.
  - rewrite re_match_group_stop by done. by rewrite Hm.
  - rewrite re_match_group_unfold. cbv zeta.
    rewrite bool_decide_false by done. by rewrite IH.
Qed.

Lemma slashes_cons (a : ascii) (s : str) :
  slashes (a :: s) = (if bool_decide (a = chr_slash) then 1 else 0) + slashes s.
Proof.
  unfold slashes. rewrite filter_cons. case_decide.
  - by rewrite bool_decide_true.
  - by rewrite bool_decide_false.
Qed.

Lemma slashes_app (s1 s2 : str) : slashes (s1 ++ s2) = slashes s1 + slashes s2.
Proof. unfold slashes. by rewrite filter_app, length_app. Qed.

Lemma clean_slashes (s : str) : clean s = true → slashes s = 0.
Proof.
  induction s as [|a s IH]; [done|]. simpl.
  intros [[Ha _]%andb_true_iff Hs]%andb_true_iff.
  rewrite slashes_cons, IH by done. apply negb_true_iff in Ha. by rewrite Ha.
Qed.

Lemma clean_no_newline (s : str) :
  clean s = true → Forall (λ a, a ≠ chr_newline) s.
Proof.
  induction s as [|a s IH]; [done|]. simpl.
  intros [[_ Ha]%andb_true_iff Hs]%andb_true_iff.
  constructor; [|by apply IH].
  apply negb_true_iff in Ha. by apply bool_decide_eq_false in Ha.
Qed.

Lemma component_clean (key : list str) (ds : str) :
  Forall (λ s, clean s = true) key → clean (component key ds) = true.
Proof.
  intros Hkey. unfold component.
  destruct (key !! N.to_nat (int_of_digits ds)) as [v|] eqn:Hv; [|done].
  simpl. rewrite Forall_forall in Hkey. apply Hkey.
  by eapply list_elem_of_lookup_2.
Qed.

Lemma fmt_slashes (key : list str) (ts : list tok) :
  Forall (λ s, clean s = true) key →
  slashes (fmt key ts) = slash_items (map item_of ts).
Proof.
  intros Hkey. induction ts as [|[c|ds] ts IH]; simpl; [done| |].
  - rewrite slashes_cons, IH.
    destruct (decide (c = chr_dot)) as [->|Hdot].
    + by rewrite bool_decide_false.
    + by rewrite (bool_decide_false (c = chr_dot)).
  - by rewrite slashes_app, clean_slashes by by apply component_clean.
Qed.

(** Past its placeholders' separators the expression cannot match a proper
    suffix of the encoded path: it has as many "/" as the path. *)
Lemma no_later_start (key : list str) (ts : list tok) :
  Forall (λ s, clean s = true) key →
  separated true ts = true →
  ∀ x rem, x ≠ [] → fmt key ts = x ++ rem →
    re_match (map item_of ts) rem = None.
Proof.
  intros Hkey. induction ts as [|[c|ds] ts IH]; simpl; intros Hsep x rem Hx Hfmt.
  - by destruct x.
  - destruct x as [|a x]; [done|]. injection Hfmt as <- Hfmt.
    destruct (decide (c = chr_slash)) as [->|Hc].
    + rewrite bool_decide_false by done.
      destruct rem as [|a rem]; [done|]. simpl.
      destruct (decide (a = chr_slash)) as [->|Ha];
        [rewrite bool_decide_true by done|by rewrite bool_decide_false].
      destruct (re_match (map item_of ts) rem) as [caps|] eqn:Hm; [|done].
      apply re_match_slashes in Hm.
      rewrite <- (fmt_slashes key), Hfmt, slashes_app, slashes_cons in Hm by done.
      rewrite bool_decide_true in Hm by done. lia.
    + rewrite bool_decide_false in Hsep by done.
      assert (∀ a rem', rem = a :: rem' → re_match (map item_of ts) rem' = None)
        as Hnext.
      { intros a rem' ->. apply (IH Hsep (x ++ [a])).
        - by destruct x.
        - by rewrite <- app_assoc. }
      destruct (bool_decide (c = chr_dot)); destruct rem as [|a rem']; try done;
        simpl; [destruct (bool_decide (a = chr_newline))
               |destruct (bool_decide (a = c))]; try done; by eapply Hnext.
  - done.
Qed.

(** The expression of a template matches the template filled with a key,
    and captures the key components. *)
Lemma re_match_fmt (key : list str) (ts : list tok) (pending : bool) :
  Forall (λ s, clean s = true) key →
  separated pending ts = true →
  re_match (map item_of ts) (fmt key ts) = Some (captures key ts).
Proof.
  intros Hkey. revert pending.
  induction ts as [|[c|ds] ts IH]; simpl; intros pending Hsep; [done| |].
  - destruct (decide (c = chr_dot)) as [->|Hdot].
    + rewrite bool_decide_true by done. simpl. by eapply IH.
    + rewrite (bool_decide_false (c = chr_dot)) by done. simpl.
      rewrite bool_decide_true by done. by eapply IH.
  - apply andb_true_iff in Hsep as [_ Hsep].
    apply re_match_group_greedy.
    + apply clean_no_newline. by apply component_clean.
    + by eapply IH.
    + by apply no_later_start.
Qed.

Lemma compile_regular (ts : list tok) :
  forallb tok_regular ts = true → compile_toks ts = Ok (map item_of ts).
Proof.
  induction ts as [|[c|ds] ts IH]; simpl; [done| |].
  - intros [Hc Hts]%andb_true_iff. apply negb_true_iff in Hc.
    case_bool_decide as Hbs; [by subst c|].
    rewrite Hc, IH by done. by case_bool_decide.
  - intros Hts. by rewrite IH.
Qed.

Lemma regular_plain (ts : list tok) :
  forallb tok_regular ts = true → forallb tok_plain ts = true.
Proof.
  induction ts as [|[c|ds] ts IH]; simpl; [done| |].
  - intros [Hc Hts]%andb_true_iff. rewrite IH by done.
    apply negb_true_iff in Hc.
    rewrite !bool_decide_false; [done| |]; by intros ->.
  - done.
Qed.

Lemma regular_no_backslash (s : str) :
  forallb tok_regular (scan s) = true → double_backslashes s = s.
Proof.
  unfold scan. generalize (@None str).
  induction s as [|a s IH]; intros pending; [done|]. simpl.
  intros Hreg.
  assert (a ≠ chr_backslash ∧ ∃ pending', forallb tok_regular (scan_from pending' s) = true)
    as [Ha [pending' Hs]].
  { destruct pending as [ds|].
    - destruct (is_digit a) eqn:Hd.
      { split; [by intros ->|eauto]. }
      destruct (bool_decide (a = chr_rbrace) && negb (bool_decide (ds = []))) eqn:Hr.
      { apply andb_true_iff in Hr as [->%bool_decide_eq_true _].
        split; [done|]. simpl in Hreg. eauto. }
      destruct (bool_decide (a = chr_lbrace)); simpl in Hreg; done.
    - case_bool_decide as Hl; [subst a; split; [done|eauto]|].
      simpl in Hreg. apply andb_true_iff in Hreg as [Hc Hrest].
      split; [|eauto]. intros ->. done. }
  rewrite bool_decide_false by done. simpl. f_equal. by eapply IH.
Qed.

Lemma subst_fmt (key : list str) (ts : list tok) :
  Forall (λ i, (i ≤ PY_SSIZE_T_MAX)%N ∧ (i < N.of_nat (length key))%N)
         (omap tok_index ts) →
  subst key ts = Ok (fmt key ts).
Proof.
  induction ts as [|[c|ds] ts IH]; simpl; intros Hall.
  - done.
  - by rewrite IH.
  - inversion Hall as [|? ? [Hmax Hlt] Hrest]; subst.
    rewrite IH by done. unfold get_field, component.
    rewrite (proj2 (N.ltb_ge _ _) Hmax).
    destruct (key !! N.to_nat (int_of_digits ds)) as [v|] eqn:Hv; [done|].
    apply lookup_ge_None in Hv. lia.
Qed.

Lemma zip_captures (key : list str) (ts : list tok) :
  zip (omap tok_index ts) (captures key ts)
  = map (λ i, (i, default [] (key !! N.to_nat i))) (omap tok_index ts).
Proof.
  induction ts as [|[c|ds] ts IH]; simpl; [done|done|]. f_equal. exact IH.
Qed.

Lemma last_occurrence (l : list N) (i : N) :
  i ∈ l → ∃ j, l !! j = Some i ∧ ∀ j', j < j' → l !! j' ≠ Some i.
Proof.
  induction l as [|x l IH]; [by intros ?%elem_of_nil|].
  intros Hin. destruct (decide (i ∈ l)) as [Hl|Hl].
  - destruct (IH Hl) as (j & Hj & Hlast). exists (S j). split; [done|].
    intros [|j'] Hlt; [lia|]. simpl. apply Hlast. lia.
  - apply elem_of_cons in Hin as [->|]; [|done]. exists 0. split; [done|].
    intros [|j'] Hlt; [lia|]. simpl. intros Hj'. apply Hl.
    by eapply list_elem_of_lookup_2.
Qed.

(** Filling the slots with the captured components restores the key when
    the placeholders carry exactly the indices of the key. *)
Lemma fill_captures (key : list str) (ts : list tok) :
  (∀ i, i ∈ omap tok_index ts ↔ (i < N.of_nat (length key))%N) →
  fill (replicate (length key) None) (zip (omap tok_index ts) (captures key ts))
  = Ok (Some <$> key).
Proof.
  intros Hidx. rewrite zip_captures.
  set (writes := map _ _).
  destruct (fill_Ok (replicate (length key) None) writes) as [final Hfill].
  { apply Forall_forall. intros [i v] Hw. simpl. rewrite length_replicate.
    apply list_elem_of_fmap in Hw as (i' & [= -> ->] & Hi'). by apply Hidx. }
  rewrite Hfill. f_equal.
  pose proof (fill_length _ _ _ Hfill) as Hlen. rewrite length_replicate in Hlen.
  apply list_eq. intros p. rewrite list_lookup_fmap.
  destruct (key !! p) as [kp|] eqn:Hp; simpl.
  - assert (p < length key) as Hlt by by eapply lookup_lt_Some.
    assert (N.of_nat p ∈ omap tok_index ts) as Hin by (apply Hidx; lia).
    destruct (last_occurrence _ _ Hin) as (j & Hj & Hlast).
    rewrite <- (Nat2N.id p).
    apply (fill_last_write _ _ _ j _ _ Hfill).
    + unfold writes. rewrite list_lookup_fmap, Hj. simpl.
      by rewrite Nat2N.id, Hp.
    + intros j' i' v' Hlt' Hw ->. unfold writes in Hw.
      rewrite list_lookup_fmap in Hw.
      destruct (omap tok_index ts !! j') as [i''|] eqn:Hj'; [|done].
      injection Hw as -> _. by apply (Hlast j').
  - apply lookup_ge_None in Hp. apply lookup_ge_None. lia.
Qed.

Lemma drop_prefix (prefix rest : str) :
  drop (length prefix + 1) (prefix ++ L "/" ++ rest) = rest.
Proof.
  rewrite (app_assoc prefix). rewrite drop_app_length'; [done|].
  rewrite length_app. done.
Qed.

Lemma take_suffix (s suffix : str) :
  take (length (s ++ suffix) - length suffix) (s ++ suffix) = s.
Proof.
  rewrite length_app. replace (length s + length suffix - length suffix)
    with (length s) by lia. by rewrite take_app_length.
Qed.

(** What the decoder is left with after the prefix and the suffix of an
    encoded path are cut off. *)
Lemma strip_affixes (self : t) (body : str) :
  let with_prefix :=
    if truthy (filepath_prefix self)
    then default [] (filepath_prefix self) ++ L "/" ++ body else body in
  let converted :=
    if truthy (filepath_suffix self)
    then with_prefix ++ default [] (filepath_suffix self) else with_prefix in
  (do filepath <- strip_prefix self converted; strip_suffix self filepath)
  = Ok body.
Proof.
  intros with_prefix converted. unfold strip_prefix, strip_suffix.
  assert (strip_pre :
    ∀ tail, (if truthy (filepath_prefix self)
             then if negb (startswith (with_prefix ++ tail)
                             (default [] (filepath_prefix self)))
                     && (length (default [] (filepath_prefix self)) + 1
                         <=? length (with_prefix ++ tail))
                  then Raise (ValueError PrefixMismatch)
                  else Ok (drop (length (default [] (filepath_prefix self)) + 1)
                             (with_prefix ++ tail))
             else Ok (with_prefix ++ tail)) = Ok (body ++ tail)).
  { intros tail. unfold with_prefix.
    destruct (truthy (filepath_prefix self)); [|done].
    rewrite <- !app_assoc, startswith_app. simpl negb. cbn [andb].
    f_equal. rewrite (app_assoc (L "/")). apply (drop_prefix _ (body ++ tail)). }
  unfold converted. destruct (truthy (filepath_suffix self)) eqn:Hsuffix.
  - rewrite strip_pre. cbn [bind].
    rewrite endswith_app. simpl negb. cbv iota. f_equal. apply take_suffix.
  - specialize (strip_pre []). rewrite !app_nil_r in strip_pre.
    by rewrite strip_pre.
Qed.

Lemma encode_fmt (self : t) (template : str) (key : list str) :
  filepath_template self = Some template →
  template ≠ [] →
  forallb tok_regular (scan template) = true →
  (∀ i, i ∈ placeholder_indices template → (i < N.of_nat (length key))%N) →
  (N.of_nat (length key) ≤ PY_SSIZE_T_MAX)%N →
  _validate_key self key = Ok tt →
  _convert_key_to_filepath self key
  = Ok (if platform_specific_separator self
        then os_path_normpath (affixed self (fmt key (scan template)))
        else affixed self (fmt key (scan template))).
Proof.
  intros Htemplate Hne Hregular Hidx Hmax Hvalid.
  unfold _convert_key_to_filepath. rewrite Hvalid, Htemplate. cbn [bind default].
  destruct template as [|c template]; [done|]. cbn [truthy].
  rewrite str_format_subst by by apply regular_plain.
  rewrite subst_fmt; [done|].
  apply Forall_forall. intros i Hi. apply Hidx in Hi. lia.
Qed.

Lemma decode_affixed (self : t) (template : str) (key : list str) :
  filepath_template self = Some template →
  template ≠ [] →
  key_length self = Some (length key) →
  forallb tok_regular (scan template) = true →
  separated false (scan template) = true →
  (∀ i, i ∈ placeholder_indices template ↔ (i < N.of_nat (length key))%N) →
  Forall (λ s, clean s = true) key →
  regex_template self = Ok template →
  (platform_specific_separator self = true →
   os_path_normpath (affixed self (fmt key (scan template)))
   = affixed self (fmt key (scan template))) →
  _convert_filepath_to_key self (affixed self (fmt key (scan template)))
  = Ok (Some (Some <$> key)).
Proof.
  intros Htemplate Hne Hlength Hregular Hsep Hidx Hclean Hregex Hnormal.
  unfold _convert_filepath_to_key.
  replace (if platform_specific_separator self then _ else _)
    with (affixed self (fmt key (scan template))).
  2:{ destruct (platform_specific_separator self); [|done]. by rewrite Hnormal. }
  pose proof (strip_affixes self (fmt key (scan template))) as Hstrip.
  cbv zeta in Hstrip. fold (affixed self (fmt key (scan template))) in Hstrip.
  apply bind_Ok_inv in Hstrip as (stripped & -> & Hsuffix). cbn [bind].
  unfold decode_stripped. rewrite Hsuffix. cbn [bind].
  rewrite Htemplate. destruct template as [|c template]; [done|]. cbn [truthy].
  unfold match_template. rewrite Hregex. cbn [bind].
  rewrite compile_regular by done. cbn [bind].
  rewrite (re_match_fmt _ _ false) by done.
  rewrite Hlength. unfold placeholder_indices.
  by rewrite fill_captures.
Qed.

(** C1, as the code has it.  The round trip holds for a template made of
    placeholders, "." and characters without special meaning, in which a
    "/" stands between any two placeholders, and for a key of the right
    length whose components contain neither "/" nor a newline.  With path
    normalisation on, the template and the encoded path must be left as
    they are by [os.path.join] and by [normpath].  The length of a tuple
    fits [Py_ssize_t]. *)
Theorem encode_decode_roundtrip (self : t) (template : str) (key : list str) :
  filepath_template self = Some template →
  template ≠ [] →
  key_length self = Some (length key) →
  forallb tok_regular (scan template) = true →
  separated false (scan template) = true →
  (∀ i, i ∈ placeholder_indices template ↔ (i < N.of_nat (length key))%N) →
  (N.of_nat (length key) ≤ PY_SSIZE_T_MAX)%N →
  _validate_key self key = Ok tt →
  Forall (λ s, clean s = true) key →
  (platform_specific_separator self = true →
   os_path_join (split_on chr_slash template) = Some template
   ∧ ∀ p, _convert_key_to_filepath (with_separator false self) key = Ok p →
          os_path_normpath p = p) →
  ∃ filepath,
    _convert_key_to_filepath self key = Ok filepath
    ∧ _convert_filepath_to_key self filepath = Ok (Some (Some <$> key)).
Proof.
  intros Htemplate Hne Hlength Hregular Hsep Hidx Hmax Hvalid Hclean Hnormal.
  assert (platform_specific_separator self = true →
          os_path_normpath (affixed self (fmt key (scan template)))
          = affixed self (fmt key (scan template))) as Hpath.
  { intros Hpss. destruct (Hnormal Hpss) as [_ Hp]. apply Hp.
    rewrite (encode_fmt _ template); try done.
    intros i Hi. by apply Hidx. }
  exists (affixed self (fmt key (scan template))). split.
  - rewrite (encode_fmt _ template); try done.
    + destruct (platform_specific_separator self); [|done]. by rewrite Hpath.
    + intros i Hi. by apply Hidx.
  - apply decode_affixed; try done.
    unfold regex_template. rewrite Htemplate. cbn [default from_option id].
    destruct (platform_specific_separator self); [|done].
    destruct (Hnormal eq_refl) as [-> _].
    by rewrite regular_no_backslash.
Qed.

Lemma encode_decode_roundtrip_witness :
  ∃ filepath,
    _convert_key_to_filepath
      (backend spec_StoreBackend (Some (L "a/{0}/{1}/b-{1}.txt")) None None true)
      [L "x"; L "y"] = Ok filepath
    ∧ _convert_filepath_to_key
        (backend spec_StoreBackend (Some (L "a/{0}/{1}/b-{1}.txt")) None None true)
        filepath
      = Ok (Some (Some <$> [L "x"; L "y"])).
Proof.
  apply (encode_decode_roundtrip
           (backend spec_StoreBackend (Some (L "a/{0}/{1}/b-{1}.txt")) None None true)
           (L "a/{0}/{1}/b-{1}.txt") [L "x"; L "y"]).
  - reflexivity.
  - discriminate.
  - reflexivity.
  - reflexivity.
  - reflexivity.
  - intros i.
    change (placeholder_indices (L "a/{0}/{1}/b-{1}.txt")) with [0%N; 1%N; 1%N].
    rewrite !elem_of_cons, elem_of_nil. simpl. lia.
  - vm_compute. discriminate.
  - reflexivity.
  - repeat constructor.
  - intros _. split; [reflexivity|].
    intros p Hp. vm_compute in Hp. injection Hp as <-. reflexivity.
Defined.

(** C1 as stated fails: "-" separates the placeholders of "{0}-{1}", and
    the key ("a", "b-c"), of the right length, with non-empty components
    and no forbidden substring, comes back as ("a-b", "c").  The
    constructor accepts the template, since its random key has no "-". *)
Lemma roundtrip_fails_on_ambiguous_template :
  let self := backend spec_StoreBackend (Some (L "{0}-{1}")) None None false in
  __init__ spec_StoreBackend (λ n, 7 * n + 3)
    (default_args (Some (L "{0}-{1}")) None None false) = Ok self
  ∧ key_length self = Some (length [L "a"; L "b-c"])
  ∧ _validate_key self [L "a"; L "b-c"] = Ok tt
  ∧ _convert_key_to_filepath self [L "a"; L "b-c"] = Ok (L "a-b-c")
  ∧ _convert_filepath_to_key self (L "a-b-c")
    = Ok (Some [Some (L "a-b"); Some (L "c")])
  ∧ [Some (L "a-b"); Some (L "c")] ≠ Some <$> [L "a"; L "b-c"].
Proof. repeat split; try (vm_compute; reflexivity). discriminate. Qed.

(** ** The S3 backend *)

(** C7: [remove_key] of the S3 backend, for a key with a non-empty path,
    hands to [delete_objects] every key that [list_objects] returns for the
    store prefix, whatever the key is, and returns [True] when both calls
    succeed.  So when the listing is complete and the deletion removes what
    it is given, no object is left under the store prefix.  [objects] lists
    the keys of the bucket. *)
Theorem s3_remove_key_deletes_prefix {S} (s3 : TupleS3StoreBackend.client S)
    (objects : S → list str) (self : TupleS3StoreBackend.t) (key : list str)
    (s3_key : str) (keys : list str) (st st1 st2 : S) :
  _convert_key_to_filepath (TupleS3StoreBackend.base self) key = Ok s3_key →
  s3_key ≠ [] →
  TupleS3StoreBackend.list_objects s3 (TupleS3StoreBackend.bucket self)
    (TupleS3StoreBackend.prefix self) st = (Ok keys, st1) →
  Forall (λ k, startswith k (TupleS3StoreBackend.prefix self) = true → k ∈ keys)
         (objects st1) →
  TupleS3StoreBackend.delete_objects s3 (TupleS3StoreBackend.bucket self)
    keys st1 = (Ok tt, st2) →
  Forall (λ k, k ∉ objects st2) keys →
  objects st2 ⊆ objects st1 →
  TupleS3StoreBackend.remove_key s3 self key st = (Ok true, st2)
  ∧ Forall (λ k, startswith k (TupleS3StoreBackend.prefix self) = false)
           (objects st2).
Proof.
  intros Hencode Hne Hlist Hcomplete Hdelete Hdeleted Hsubset. split.
  - unfold TupleS3StoreBackend.remove_key, mbind, lift, try_except, ret.
    rewrite Hencode, bool_decide_false by done. simpl.
    rewrite Hlist, Hdelete. done.
  - apply Forall_forall. intros k Hk.
    destruct (startswith k (TupleS3StoreBackend.prefix self)) eqn:Hprefix; [|done].
    exfalso. rewrite Forall_forall in Hcomplete, Hdeleted.
    apply (Hdeleted k); [|done]. apply Hcomplete; [|done]. by apply Hsubset.
Qed.

Lemma s3_remove_key_deletes_prefix_witness :
  TupleS3StoreBackend.remove_key simple_s3 (s3_backend (L "p/")) [L "a"]
    (<[L "p/a" := L "1"]> (<[L "p/b" := L "2"]> {[L "q/c" := L "3"]}))
  = (Ok true, {[L "q/c" := L "3"]})
  ∧ Forall (λ k, startswith k (L "p/") = false)
           (map_to_list ({[L "q/c" := L "3"]} : gmap str str)).*1.
Proof.
  apply (s3_remove_key_deletes_prefix simple_s3 (λ st, (map_to_list st).*1)
           (s3_backend (L "p/")) [L "a"] (L "a") [L "p/b"; L "p/a"]
           (<[L "p/a" := L "1"]> (<[L "p/b" := L "2"]> {[L "q/c" := L "3"]}))
           (<[L "p/a" := L "1"]> (<[L "p/b" := L "2"]> {[L "q/c" := L "3"]}))
           {[L "q/c" := L "3"]}).
  - reflexivity.
  - discriminate.
  - vm_compute. reflexivity.
  - vm_compute. repeat constructor; intros; try discriminate;
      repeat (first [apply list_elem_of_here | apply list_elem_of_further]).
  - vm_compute. reflexivity.
  - vm_compute. repeat constructor;
      intros Hin; repeat (apply elem_of_cons in Hin as [Hin|Hin]; [discriminate|]);
      by apply elem_of_nil in Hin.
  - vm_compute. intros k Hk. apply elem_of_cons in Hk as [->|Hk].
    + repeat (first [apply list_elem_of_here | apply list_elem_of_further]).
    + by apply elem_of_nil in Hk.
Defined.

(** C7 as stated fails: [remove_key] lists the store prefix once, and one
    listing holds at most 1000 keys.  With 1001 objects under the store
    prefix "p/", [remove_key] returns [True] and the last of them is still
    there. *)
Lemma s3_remove_key_leaves_objects :
  TupleS3StoreBackend.remove_key paged_s3 (s3_backend (L "p/")) [L "a"]
    (map object_name (seq 0 1001))
  = (Ok true, [object_name 1000])
  ∧ startswith (object_name 1000) (L "p/") = true.
Proof.
  split; [|reflexivity].
  vm_cast_no_check (eq_refl (@Ok bool true, [object_name 1000])).
Qed.

(** ** The filesystem backend *)

Module FS := TupleFilesystemStoreBackend.

(** C9 fails on the code: [rrmdir] stops at the base directory only when
    its path string equals the string reached by [dirname].  With the base
    directory "expectations/" under "/ge", the full base directory is
    "/ge/expectations/"; removing the only key removes the file, its
    directory "a" and then the base directory "/ge/expectations" itself. *)
Theorem remove_key_removes_base_directory :
  let run := after_set (L "expectations/") (λ self,
    do! removed <- FS.remove_key self [L "a"; L "f"];
    ret (FS.full_base_directory self, removed)) project_fs in
  run.1 = Ok (L "/ge/expectations/", true)
  ∧ run.2 !! [L "ge"; L "expectations"] = None
  ∧ (after_set (L "expectations/") (λ _, ret tt) project_fs).2
      !! [L "ge"; L "expectations"] = Some Posix.Dir.
Proof. repeat split; vm_compute; reflexivity. Qed.

(** Without the trailing separator the base directory is kept, and only
    the directory "a" is removed with the file. *)
Example remove_key_keeps_base_directory :
  let run := after_set (L "expectations") (λ self,
    do! removed <- FS.remove_key self [L "a"; L "f"];
    ret (FS.full_base_directory self, removed)) project_fs in
  run.1 = Ok (L "/ge/expectations", true)
  ∧ run.2 !! [L "ge"; L "expectations"] = Some Posix.Dir
  ∧ run.2 !! [L "ge"; L "expectations"; L "a"] = None
  ∧ run.2 !! [L "ge"; L "expectations"; L "a"; L "f"] = None.
Proof. repeat split; vm_compute; reflexivity. Qed.

(** C8 as stated fails: moving an existing key onto itself returns the key
    and leaves the file where it is, so the source key is still there. *)
Lemma move_onto_itself_keeps_source :
  (after_set (L "store") (λ self,
     do! moved <- FS._move self [L "a"; L "f"] [L "a"; L "f"];
     do! value <- FS._get self [L "a"; L "f"];
     do! has_source <- FS._has_key self [L "a"; L "f"];
     ret (moved, value, has_source)) project_fs).1
  = Ok (Some [L "a"; L "f"], L "v", true).
Proof. vm_compute. reflexivity. Qed.

Import Posix.

(** [makedirs] succeeds when no regular file is in the way; it keeps what
    is there, adds directories along the path only, and the path is a
    directory afterwards. *)
Lemma makedirs_from_spec (reached todo : list str) (st : fs) :
  (∀ n, 1 ≤ n ≤ length todo → is_file (st !! (reached ++ take n todo)) = false) →
  ∃ st1, makedirs_from reached todo st = (Ok tt, st1)
    ∧ (∀ q x, st !! q = Some x → st1 !! q = Some x)
    ∧ (∀ q, st !! q = None →
         st1 !! q = None
         ∨ (st1 !! q = Some Dir
            ∧ ∃ n, 1 ≤ n ≤ length todo ∧ q = reached ++ take n todo))
    ∧ (todo ≠ [] → st1 !! (reached ++ todo) = Some Dir).
Proof.
  revert reached st. induction todo as [|name rest IH]; intros reached st Hfree.
  - exists st. repeat split; eauto; done.
  - cbn [makedirs_from].
    assert (∀ n, reached ++ take (S n) (name :: rest)
                 = (reached ++ [name]) ++ take n rest) as Hpath.
    { intros n. by rewrite <- app_assoc. }
    assert (∀ n, 1 ≤ n ≤ length rest →
                 (reached ++ [name]) ++ take n rest ≠ reached ++ [name])
      as Hlonger.
    { intros n Hn Heq. apply (f_equal length) in Heq.
      rewrite !length_app, length_take in Heq. simpl in Heq. lia. }
    pose proof (Hfree 1) as Hhere. simpl in Hhere. rewrite take_0 in Hhere.
    destruct rest as [|name' rest'] eqn:Hrest.
    + (* the last directory of the path *)
      destruct (st !! (reached ++ [name])) as [[c|]|] eqn:Hd.
      * simpl in Hhere. discriminate Hhere. simpl. lia.
      * exists st. repeat split; eauto; try done.
      * exists (<[reached ++ [name] := Dir]> st). repeat split.
        -- intros q x Hq. rewrite lookup_insert_ne; [done|]. congruence.
        -- intros q Hq. destruct (decide (q = reached ++ [name])) as [->|Hne].
           ++ right. rewrite lookup_insert_eq. split; [done|].
              exists 1. simpl. split; [lia|done].
           ++ left. by rewrite lookup_insert_ne.
        -- intros _. apply lookup_insert_eq.
    + rewrite <- Hrest in *.
      assert (rest ≠ []) as Hne by (rewrite Hrest; done).
      assert (1 ≤ length rest) as Hlen by (rewrite Hrest; simpl; lia).
      destruct (st !! (reached ++ [name])) as [[c|]|] eqn:Hd.
      * simpl in Hhere. discriminate Hhere. simpl. lia.
      * destruct (IH (reached ++ [name]) st) as (st1 & Hrun & Hkeep & Hnew & Hdir).
        { intros n Hn. rewrite <- Hpath. apply Hfree. simpl. lia. }
        exists st1. rewrite Hrun. repeat split; try done.
        -- intros q Hq. destruct (Hnew q Hq) as [?|[? (n & Hn & ->)]]; [by left|].
           right. split; [done|]. exists (S n). rewrite Hpath. simpl. split; [lia|done].
        -- intros _.
           replace (reached ++ name :: rest) with ((reached ++ [name]) ++ rest)
             by (by rewrite <- app_assoc).
           by apply Hdir.
      * destruct (IH (reached ++ [name]) (<[reached ++ [name] := Dir]> st))
          as (st1 & Hrun & Hkeep & Hnew & Hdir).
        { intros n Hn. rewrite lookup_insert_ne by (symmetry; by apply Hlonger).
          rewrite <- Hpath. apply Hfree. simpl. lia. }
        exists st1. rewrite Hrun. repeat split; try done.
        -- intros q x Hq. apply Hkeep. rewrite lookup_insert_ne; [done|]. congruence.
        -- intros q Hq. destruct (decide (q = reached ++ [name])) as [->|Hq'].
           ++ right. split.
              ** apply Hkeep. apply lookup_insert_eq.
              ** exists 1. simpl. rewrite take_0. split; [lia|done].
           ++ destruct (Hnew q) as [?|[? (n & Hn & ->)]].
              ** by rewrite lookup_insert_ne.
              ** by left.
              ** right. split; [done|]. exists (S n). rewrite Hpath.
                 simpl. split; [lia|done].
        -- intros _.
           replace (reached ++ name :: rest) with ((reached ++ [name]) ++ rest)
             by (by rewrite <- app_assoc).
           by apply Hdir.
Qed.

Lemma parent_take (q : list str) : parent q = take (length q - 1) q.
Proof.
  unfold parent. rewrite removelast_firstn_len. f_equal. lia.
Qed.

(** The state of the example store is the one the backend itself leaves
    after construction and [_set]. *)
Example store_fs_built :
  (after_set (L "store") (λ self, ret self)
     (<[ [L "ge"] := Dir ]> {[ [] := Dir ]}))
  = (Ok store_backend, store_fs).
Proof. vm_cast_no_check (eq_refl (Ok store_backend, store_fs)). Qed.

(** ** The loop of [rrmdir] ends *)



Lemma all_slashes_no_component (initial : bool) (acc : list str) (p : str) :
  all_char chr_slash p = true →
  normpath_comps initial acc (split_on chr_slash p) = acc.
Proof.
  induction p as [|a p IH]; simpl; [done|].
  intros [Ha Hp]%andb_true_iff. rewrite Ha. simpl. by apply IH.
Qed.




(** * Further properties of the code *)

(** ** Key validation and construction *)

Lemma startswith_iff (s p : str) : startswith s p = true ↔ ∃ r, s = p ++ r.
Proof.
  revert s. induction p as [|c p IH]; intros s; simpl.
  - split; eauto.
  - destruct s as [|a s]; simpl.
    + split; [done|]. intros [r Hr]. discriminate.
    + rewrite andb_true_iff, bool_decide_eq_true, IH. split.
      * intros [-> [r ->]]. eauto.
      * intros [r Hr]. injection Hr as -> ->. eauto.
Qed.

Lemma contains_occurs (sub s : str) : contains sub s = true ↔ occurs_in sub s.
Proof.
  unfold occurs_in. induction s as [|a s IH]; simpl.
  - rewrite orb_false_r, startswith_iff. split.
    + intros [r Hr]. exists [], r. done.
    + intros (before & after & Heq). destruct before; [|done]. eauto.
  - rewrite orb_true_iff, startswith_iff, IH. split.
    + intros [[r Hr]|(before & after & ->)].
      * exists [], r. done.
      * exists (a :: before), after. done.
    + intros (before & after & Heq). destruct before as [|b before].
      * left. eauto.
      * right. injection Heq as -> ->. eauto.
Qed.

(** Key validation returns exactly when the superclass accepts the key and
    no forbidden substring occurs in a component; otherwise it raises: the
    error of the superclass, or [ValueError]. *)
Theorem validate_key_outcome (self : t) (key : list str) :
  (_validate_key self key = Ok tt ↔
   StoreBackend_validate_key (super self) key = None
   ∧ ∀ key_element substring,
       key_element ∈ key → substring ∈ forbidden_substrings self →
       ¬ occurs_in substring key_element)
  ∧ (_validate_key self key ≠ Ok tt →
     _validate_key self key
     = Raise (default (ValueError ForbiddenSubstring)
                (StoreBackend_validate_key (super self) key))).
Proof.
  split.
  - rewrite validate_key_Ok. split; intros [Hsuper Hall]; (split; [done|]).
    + intros el sub Hel Hsub Hocc. rewrite Forall_forall in Hall.
      specialize (Hall _ Hel). rewrite Forall_forall in Hall.
      specialize (Hall _ Hsub). apply contains_occurs in Hocc. congruence.
    + apply Forall_forall. intros el Hel. apply Forall_forall. intros sub Hsub.
      destruct (contains sub el) eqn:Hc; [|done].
      apply contains_occurs in Hc. by destruct (Hall el sub).
  - unfold _validate_key.
    destruct (StoreBackend_validate_key (super self) key) as [e|]; simpl; [done|].
    by destruct (existsb _ key).
Qed.

(** The constructor refuses a prefix whose last character is one of the
    forbidden substrings: the call raises. *)
Theorem init_rejects_prefix_ending_forbidden (sb : StoreBackend)
    (rand : nat → nat) (a : args) (prefix : str) (c : ascii) :
  arg_filepath_prefix a = Some prefix →
  last prefix = Some c →
  [c] ∈ default [L "/"; L "\"] (arg_forbidden_substrings a) →
  raises (__init__ sb rand a).
Proof.
  intros Hprefix Hlast Hforbidden. unfold __init__.
  destruct (StoreBackend_init sb (arg_fixed_length_key a)) as [e|]; simpl.
  { by exists e. }
  destruct (_ && _); [by eexists|].
  rewrite Hprefix, Hlast. rewrite bool_decide_true by done. simpl. by eexists.
Qed.

Lemma init_rejects_prefix_ending_forbidden_witness :
  raises (__init__ spec_StoreBackend (λ n, n)
            (default_args None (Some (L "expectations/")) None false)).
Proof.
  apply (init_rejects_prefix_ending_forbidden spec_StoreBackend (λ n, n)
           (default_args None (Some (L "expectations/")) None false)
           (L "expectations/") "/"%char).
  - reflexivity.
  - reflexivity.
  - apply list_elem_of_here.
Defined.

Lemma hex_digits_clean :
  Forall (λ a, a ≠ chr_slash ∧ a ≠ chr_backslash ∧ a ≠ chr_newline)
         (L "ABCDEF0123456789").
Proof. repeat constructor; discriminate. Qed.

Lemma random_choice_hex (rand : nat → nat) (n : nat) :
  random_choice rand n ∈ L "ABCDEF0123456789".
Proof.
  unfold random_choice. apply list_elem_of_In, nth_In.
  change (length (L "ABCDEF0123456789")) with 16.
  apply Nat.mod_upper_bound. done.
Qed.

Lemma random_hex_chars (rand : nat → nat) (calls : nat) :
  Forall (λ a, a ≠ chr_slash ∧ a ≠ chr_backslash ∧ a ≠ chr_newline)
         (get_random_hex rand calls).
Proof.
  unfold get_random_hex. apply Forall_fmap, Forall_forall. intros j _. simpl.
  pose proof hex_digits_clean as Hhex. rewrite Forall_forall in Hhex.
  apply Hhex, random_choice_hex.
Qed.

Lemma contains_char_absent (c : ascii) (s : str) :
  Forall (λ a, a ≠ c) s → contains [c] s = false.
Proof.
  induction 1 as [|a s Ha Hs IH]; [done|]. simpl.
  rewrite bool_decide_false by done. simpl. exact IH.
Qed.

Lemma random_key_valid (sb : StoreBackend) (rand : nat → nat) (n : nat) (self : t) :
  super self = sb →
  forbidden_substrings self = [L "/"; L "\"] →
  StoreBackend_validate_key sb (random_key rand n) = None →
  _validate_key self (random_key rand n) = Ok tt.
Proof.
  intros Hsuper Hforbidden Haccept. apply validate_key_Ok.
  rewrite Hsuper, Hforbidden. split; [done|].
  apply Forall_forall. intros el Hel. unfold random_key in Hel.
  apply list_elem_of_fmap in Hel as (i & -> & _).
  pose proof (random_hex_chars rand (4 * i)) as Hhex.
  apply Forall_forall. intros sub Hsub.
  apply elem_of_cons in Hsub as [->|Hsub].
  { apply (contains_char_absent chr_slash).
    eapply Forall_impl; [exact Hhex|]. cbn beta. tauto. }
  apply elem_of_cons in Hsub as [->|Hsub]; [|by apply elem_of_nil in Hsub].
  apply (contains_char_absent chr_backslash).
  eapply Forall_impl; [exact Hhex|]. cbn beta. tauto.
Qed.

Lemma random_key_clean (rand : nat → nat) (n : nat) :
  Forall (λ s, clean s = true) (random_key rand n).
Proof.
  apply Forall_forall. intros el Hel. unfold random_key in Hel.
  apply list_elem_of_fmap in Hel as (i & -> & _).
  pose proof (random_hex_chars rand (4 * i)) as Hhex.
  induction Hhex as [|a s (Hs & _ & Hn) _ IH]; [done|]. cbn [clean forallb].
  rewrite !bool_decide_false by done. exact IH.
Qed.

(** With path normalisation off, no suffix, the default forbidden
    substrings, a prefix that does not end in "/" or "\" and a superclass
    that accepts the construction and the key drawn, the constructor
    accepts, whatever its random draws, a template made of placeholders,
    "." and characters without special meaning in a regular expression, in
    which a "/" stands between any two placeholders and whose placeholders
    carry exactly the indices below their number.  The backend it returns
    has that number as key length and a fixed-length key. *)
Theorem init_accepts_separated_template (sb : StoreBackend) (rand : nat → nat)
    (template : str) (prefix : option str) (fixed : bool) :
  let n := count_distinct (re_findall_placeholders template) in
  StoreBackend_init sb fixed = None →
  StoreBackend_validate_key sb (random_key rand n) = None →
  (∀ prefix' c, prefix = Some prefix' → last prefix' = Some c →
     c ≠ chr_slash ∧ c ≠ chr_backslash) →
  template ≠ [] →
  forallb tok_regular (scan template) = true →
  separated false (scan template) = true →
  (∀ i, i ∈ placeholder_indices template ↔ (i < N.of_nat n)%N) →
  (N.of_nat n ≤ PY_SSIZE_T_MAX)%N →
  ∃ self, __init__ sb rand (template_args template prefix fixed) = Ok self
          ∧ filepath_template self = Some template
          ∧ key_length self = Some n
          ∧ _fixed_length_key self = true.
Proof.
  intros n Hinit Haccept Hprefix Hne Hregular Hsep Hidx Hmax.
  unfold __init__, template_args. cbn [arg_fixed_length_key arg_filepath_template
    arg_filepath_suffix arg_filepath_prefix arg_forbidden_substrings
    arg_platform_specific_separator default from_option id].
  rewrite Hinit. cbn [call bind].
  rewrite (bool_decide_false (None ≠ None)) by (intros H; by apply H).
  rewrite andb_false_r.
  assert ((match prefix with
           | Some prefix0 =>
               match last prefix0 with
               | Some c => if bool_decide ([c] ∈ [L "/"; L "\"])
                           then Raise StoreBackendError else Ok ()
               | None => Ok ()
               end
           | None => Ok ()
           end) = Ok tt) as ->.
  { destruct prefix as [prefix'|]; [|done].
    destruct (last prefix') as [c|] eqn:Hlast; [|done].
    destruct (Hprefix _ _ eq_refl Hlast) as [Hs Hb].
    rewrite bool_decide_false; [done|].
    intros Hin. apply elem_of_cons in Hin as [[= ->]|Hin]; [done|].
    apply elem_of_cons in Hin as [[= ->]|Hin]; [done|]. by apply elem_of_nil in Hin. }
  cbn [bind].
  set (self := {| super := sb; key_length := Some _ |}).
  assert (length (random_key rand n) = n) as Hlen.
  { unfold random_key. by rewrite length_map, length_seq. }
  unfold verify_that_key_to_filepath_operation_is_reversible.
  cbn [key_length self]. fold n. fold (random_key rand n).
  assert (_validate_key self (random_key rand n) = Ok tt) as Hvalid
    by by apply (random_key_valid sb).
  assert (∀ i, i ∈ placeholder_indices template ↔
               (i < N.of_nat (length (random_key rand n)))%N) as Hidx'
    by by rewrite Hlen.
  assert (_convert_key_to_filepath self (random_key rand n)
          = Ok (affixed self (fmt (random_key rand n) (scan template)))) as ->.
  { apply (encode_fmt self template); try done.
    - intros i Hi. by apply Hidx'.
    - by rewrite Hlen. }
  cbn [bind].
  assert (_convert_filepath_to_key self
            (affixed self (fmt (random_key rand n) (scan template)))
          = Ok (Some (Some <$> random_key rand n))) as ->.
  { apply (decode_affixed self template); try done.
    - cbn [key_length self]. by rewrite Hlen.
    - apply random_key_clean. }
  cbn [bind].
  rewrite bool_decide_true by done. cbn [bind].
  eexists. split; [done|]. done.
Qed.

Lemma init_accepts_separated_template_witness :
  ∃ self, __init__ spec_StoreBackend (λ n, n)
            (template_args (L "a/{0}/{1}/b-{1}.txt") None false) = Ok self
          ∧ filepath_template self = Some (L "a/{0}/{1}/b-{1}.txt")
          ∧ key_length self = Some 2
          ∧ _fixed_length_key self = true.
Proof.
  apply (init_accepts_separated_template spec_StoreBackend (λ n, n)
           (L "a/{0}/{1}/b-{1}.txt") None false).
  - reflexivity.
  - reflexivity.
  - intros prefix' c Hprefix. discriminate Hprefix.
  - discriminate.
  - reflexivity.
  - reflexivity.
  - intros i.
    change (placeholder_indices (L "a/{0}/{1}/b-{1}.txt")) with [0%N; 1%N; 1%N].
    change (count_distinct (re_findall_placeholders (L "a/{0}/{1}/b-{1}.txt")))
      with 2.
    rewrite !elem_of_cons, elem_of_nil. simpl. lia.
  - vm_compute. discriminate.
Defined.

(** ** The decoder *)

Lemma decode_template_inv (self : t) (filepath : str) (new_key : slots) :
  truthy (filepath_template self) = true →
  _convert_filepath_to_key self filepath = Ok (Some new_key) →
  ∃ n template regex rest groups,
    key_length self = Some n
    ∧ regex_template self = Ok template
    ∧ compile_toks (scan template) = Ok regex
    ∧ re_match regex rest = Some groups
    ∧ length groups = length (placeholder_indices template)
    ∧ fill (replicate n None) (zip (placeholder_indices template) groups)
      = Ok new_key.
Proof.
  intros Htemplate Hdecode.
  unfold _convert_filepath_to_key in Hdecode.
  apply bind_Ok_inv in Hdecode as (stripped & Hprefix & Hdecode).
  unfold decode_stripped in Hdecode.
  apply bind_Ok_inv in Hdecode as (rest & Hsuffix & Hdecode).
  rewrite Htemplate in Hdecode. unfold match_template in Hdecode.
  apply bind_Ok_inv in Hdecode as (template & Htpl & Hdecode).
  apply bind_Ok_inv in Hdecode as (regex & Hregex & Hdecode).
  destruct (re_match regex rest) as [groups|] eqn:Hmatch; [|done].
  destruct (key_length self) as [n|]; [|done].
  apply bind_Ok_inv in Hdecode as (final & Hfill & [= ->]).
  exists n, template, regex, rest, groups. repeat split; try done.
  rewrite (re_match_length _ _ _ Hmatch). by apply compile_toks_groups.
Qed.

(** With normalisation off and a template made of placeholders, "." and
    characters without special meaning in a regular expression, a key
    decoded with the template has [key_length] slots; the slot of an index
    is [None] exactly when no placeholder of the template carries that
    index. *)
Theorem decode_key_slots (self : t) (template filepath : str) (new_key : slots) :
  filepath_template self = Some template →
  template ≠ [] →
  platform_specific_separator self = false →
  forallb tok_regular (scan template) = true →
  _convert_filepath_to_key self filepath = Ok (Some new_key) →
  ∃ n,
    key_length self = Some n
    ∧ length new_key = n
    ∧ ∀ i, i < n →
        (new_key !! i = Some None ↔ N.of_nat i ∉ placeholder_indices template).
Proof.
  intros Htemplate Hne Hpss _ Hdecode.
  assert (truthy (filepath_template self) = true) as Htruthy.
  { rewrite Htemplate. by destruct template. }
  destruct (decode_template_inv _ _ _ Htruthy Hdecode)
    as (n & template' & regex & rest & groups & Hn & Htpl & _ & _ & Hlen & Hfill).
  unfold regex_template in Htpl. rewrite Hpss, Htemplate in Htpl.
  cbn [default from_option id] in Htpl. injection Htpl as <-.
  exists n. repeat split; try done.
  - rewrite (fill_length _ _ _ Hfill). apply length_replicate.
  - intros Hslot Hin.
    destruct (last_occurrence _ _ Hin) as (j & Hj & Hlast).
    destruct (groups !! j) as [v|] eqn:Hv.
    2:{ apply lookup_ge_None in Hv. apply lookup_lt_Some in Hj. lia. }
    assert (new_key !! N.to_nat (N.of_nat i) = Some (Some v)) as Hfilled.
    { apply (fill_last_write _ _ _ j _ _ Hfill).
      - apply lookup_zip_with_Some. eauto.
      - intros j' i' v' Hlt Hj' ->.
        apply lookup_zip_with_Some in Hj' as (? & ? & [= <- <-] & Hi' & _).
        by apply (Hlast j'). }
    rewrite Nat2N.id in Hfilled. congruence.
  - intros Hnotin. rewrite <- (Nat2N.id i).
    rewrite (fill_untouched _ _ _ (N.of_nat i) Hfill).
    + rewrite Nat2N.id. by apply lookup_replicate_2.
    + intros j i' v' Hj' ->.
      apply lookup_zip_with_Some in Hj' as (? & ? & [= <- <-] & Hi' & _).
      apply Hnotin. by eapply list_elem_of_lookup_2.
Qed.

(** The template "{0}/{1}", which the constructor accepts: both slots of
    the key decoded from "a/b" are filled. *)
Lemma decode_key_slots_witness :
  ∃ n,
    key_length (backend spec_StoreBackend (Some (L "{0}/{1}")) None None false)
      = Some n
    ∧ length [Some (L "a"); Some (L "b")] = n
    ∧ ∀ i, i < n →
        ([Some (L "a"); Some (L "b")] !! i = Some None
         ↔ N.of_nat i ∉ placeholder_indices (L "{0}/{1}")).
Proof.
  apply (decode_key_slots
           (backend spec_StoreBackend (Some (L "{0}/{1}")) None None false)
           (L "{0}/{1}") (L "a/b")); try reflexivity. discriminate.
Defined.

Lemma slash_toks_app (ts1 ts2 : list tok) :
  slash_toks (ts1 ++ ts2) = slash_toks ts1 + slash_toks ts2.
Proof.
  induction ts1 as [|[c|ds] ts1 IH]; simpl; [done| |done]. rewrite IH. lia.
Qed.

Lemma slash_toks_chars (s : str) : slash_toks (map TChar s) = slashes s.
Proof.
  induction s as [|a s IH]; [done|]. simpl. by rewrite slashes_cons, IH.
Qed.

Lemma digit_not_slash (a : ascii) : is_digit a = true → a ≠ chr_slash.
Proof. by intros Hd ->. Qed.

Lemma scan_from_slashes (pending : option str) (s : str) :
  (∀ ds, pending = Some ds → slashes ds = 0) →
  slash_toks (scan_from pending s) = slashes s.
Proof.
  revert pending. induction s as [|a s IH]; intros pending Hpending.
  - destruct pending as [ds|]; [|done]. simpl.
    by rewrite slash_toks_chars, (Hpending ds).
  - assert (slash_toks (flush pending) = 0) as Hflush.
    { destruct pending as [ds|]; [|done]. simpl.
      by rewrite slash_toks_chars, (Hpending ds). }
    rewrite slashes_cons. simpl. destruct pending as [ds|].
    + destruct (is_digit a) eqn:Hd.
      { rewrite bool_decide_false by by apply digit_not_slash.
        apply IH. intros ? [= <-]. rewrite slashes_app, (Hpending ds) by done.
        rewrite slashes_cons, bool_decide_false by by apply digit_not_slash.
        done. }
      destruct (bool_decide (a = chr_rbrace) && negb (bool_decide (ds = []))) eqn:Hr.
      { apply andb_true_iff in Hr as [->%bool_decide_eq_true _].
        simpl. by apply IH. }
      destruct (decide (a = chr_lbrace)) as [->|Hl].
      * rewrite bool_decide_true by done.
        rewrite slash_toks_app, Hflush, IH; [done|]. by intros ? [= <-].
      * rewrite (bool_decide_false (a = chr_lbrace)) by done.
        rewrite slash_toks_app, Hflush. simpl. by rewrite IH.
    + destruct (decide (a = chr_lbrace)) as [->|Hl].
      * rewrite bool_decide_true by done. simpl.
        apply IH. by intros ? [= <-].
      * rewrite (bool_decide_false (a = chr_lbrace)) by done. simpl.
        by rewrite IH.
Qed.

Lemma item_slashes (ts : list tok) :
  slash_items (map item_of ts) = slash_toks ts.
Proof.
  induction ts as [|[c|ds] ts IH]; simpl; [done| |done].
  destruct (decide (c = chr_dot)) as [->|Hdot].
  - by rewrite bool_decide_true, bool_decide_false.
  - rewrite (bool_decide_false (c = chr_dot)) by done. simpl. by rewrite IH.
Qed.

(** For a template made of placeholders, "." and characters without
    special meaning in a regular expression, a path with fewer "/" than
    the template is not a key of the store: the decoder returns [None] (no
    prefix, no suffix, no normalisation). *)
Theorem decode_fewer_slashes (self : t) (template filepath : str) :
  filepath_template self = Some template →
  template ≠ [] →
  truthy (filepath_prefix self) = false →
  truthy (filepath_suffix self) = false →
  platform_specific_separator self = false →
  forallb tok_regular (scan template) = true →
  slashes filepath < slashes template →
  _convert_filepath_to_key self filepath = Ok None.
Proof.
  intros Htemplate Hne Hprefix Hsuffix Hpss Hregular Hfewer.
  unfold _convert_filepath_to_key, strip_prefix, decode_stripped, strip_suffix.
  rewrite Hpss, Hprefix, Hsuffix, Htemplate. cbn [bind].
  destruct template as [|c template]; [done|]. cbn [truthy].
  unfold match_template, regex_template.
  rewrite Hpss, Htemplate. cbn [default from_option id bind].
  rewrite compile_regular by done. cbn [bind].
  destruct (re_match _ filepath) as [groups|] eqn:Hmatch; [|done].
  apply re_match_slashes in Hmatch.
  rewrite item_slashes in Hmatch. unfold scan in Hmatch.
  rewrite scan_from_slashes in Hmatch by done. lia.
Qed.

Lemma decode_fewer_slashes_witness :
  _convert_filepath_to_key
    (backend spec_StoreBackend (Some (L "a/{0}/{1}/b-{1}.txt")) None None false)
    (L "notes/readme.txt") = Ok None.
Proof.
  apply (decode_fewer_slashes _ (L "a/{0}/{1}/b-{1}.txt"));
    try reflexivity; [discriminate|vm_compute; lia].
Defined.

(** Without prefix, suffix and normalisation, for a template made of
    placeholders, "." and characters without special meaning in a regular
    expression, whose placeholder indices are below the key length, the
    decoder never raises: a path is decoded to a key with [key_length]
    slots, or to [None]. *)
Theorem decode_without_affixes_total (self : t) (template filepath : str) (n : nat) :
  filepath_template self = Some template →
  template ≠ [] →
  truthy (filepath_prefix self) = false →
  truthy (filepath_suffix self) = false →
  platform_specific_separator self = false →
  forallb tok_regular (scan template) = true →
  key_length self = Some n →
  Forall (λ i, (i < N.of_nat n)%N) (placeholder_indices template) →
  _convert_filepath_to_key self filepath = Ok None
  ∨ ∃ new_key, _convert_filepath_to_key self filepath = Ok (Some new_key)
               ∧ length new_key = n.
Proof.
  intros Htemplate Hne Hprefix Hsuffix Hpss Hregular Hn Hidx.
  unfold _convert_filepath_to_key, strip_prefix, decode_stripped, strip_suffix.
  rewrite Hpss, Hprefix, Hsuffix, Htemplate. cbn [bind].
  destruct template as [|c template]; [done|]. cbn [truthy].
  unfold match_template, regex_template.
  rewrite Hpss, Htemplate. cbn [default from_option id bind].
  rewrite compile_regular by done. cbn [bind].
  destruct (re_match _ filepath) as [groups|] eqn:Hmatch; [|by left].
  rewrite Hn. right.
  destruct (fill_Ok (replicate n None)
              (zip (placeholder_indices (c :: template)) groups)) as [final Hfill].
  { apply Forall_forall. intros [i v] Hw.
    apply list_elem_of_lookup in Hw as [j Hj].
    apply lookup_zip_with_Some in Hj as (? & ? & [= <- <-] & Hi & _).
    rewrite length_replicate. rewrite Forall_forall in Hidx. apply Hidx.
    by eapply list_elem_of_lookup_2. }
  exists final. rewrite Hfill. split; [done|].
  rewrite (fill_length _ _ _ Hfill). apply length_replicate.
Qed.

Lemma decode_without_affixes_total_witness :
  _convert_filepath_to_key
    (backend spec_StoreBackend (Some (L "{0}/{1}")) None None false) (L "x")
  = Ok None
  ∨ ∃ new_key,
      _convert_filepath_to_key
        (backend spec_StoreBackend (Some (L "{0}/{1}")) None None false) (L "x")
      = Ok (Some new_key)
      ∧ length new_key = 2.
Proof.
  apply (decode_without_affixes_total _ (L "{0}/{1}")); try reflexivity.
  - discriminate.
  - change (placeholder_indices (L "{0}/{1}")) with [0%N; 1%N].
    repeat constructor.
Defined.

(** ** Keys without a template *)

Lemma split_on_no_sep (c : ascii) (w : str) :
  Forall (λ a, a ≠ c) w → split_on c w = [w].
Proof.
  induction 1 as [|a w Ha Hw IH]; [done|]. simpl.
  by rewrite bool_decide_false, IH.
Qed.

Lemma split_on_app (c : ascii) (w rest : str) :
  Forall (λ a, a ≠ c) w → split_on c (w ++ c :: rest) = w :: split_on c rest.
Proof.
  induction 1 as [|a w Ha Hw IH]; simpl.
  - by rewrite bool_decide_true.
  - by rewrite bool_decide_false, IH.
Qed.

Lemma proper_name_spec (s : str) :
  proper_name s = true →
  s ≠ [] ∧ s ≠ L "." ∧ s ≠ L ".." ∧ Forall (λ a, a ≠ chr_slash) s.
Proof.
  unfold proper_name. rewrite !andb_true_iff, !negb_true_iff, !bool_decide_eq_false.
  intros [[[? ?] ?] Hall]. repeat split; try done.
  apply Forall_forall. intros a Ha. rewrite forallb_forall in Hall.
  apply list_elem_of_In, Hall in Ha. apply negb_true_iff in Ha.
  by apply bool_decide_eq_false in Ha.
Qed.

Lemma split_join (key : list str) :
  Forall (λ s, proper_name s = true) key → key ≠ [] →
  split_on chr_slash (join (L "/") key) = key.
Proof.
  induction 1 as [|w key Hw Hkey IH]; [done|]. intros _.
  apply proper_name_spec in Hw as (_ & _ & _ & Hw).
  destruct key as [|w' key].
  - simpl. by apply split_on_no_sep.
  - change (join (L "/") (w :: w' :: key))
      with (w ++ chr_slash :: join (L "/") (w' :: key)).
    rewrite split_on_app by done. f_equal. by apply IH.
Qed.

Lemma normpath_comps_proper (initial : bool) (acc comps : list str) :
  Forall (λ s, proper_name s = true) comps →
  normpath_comps initial acc comps = acc ++ comps.
Proof.
  intros Hcomps. revert acc.
  induction Hcomps as [|w comps Hw Hcomps IH]; intros acc; simpl.
  - by rewrite app_nil_r.
  - apply proper_name_spec in Hw as (Hne & Hdot & Hdotdot & _).
    rewrite !bool_decide_false by done. simpl.
    rewrite IH. by rewrite <- app_assoc.
Qed.

Lemma join_not_nil (w : str) (key : list str) :
  w ≠ [] → join (L "/") (w :: key) ≠ [].
Proof. destruct key; simpl; [done|]. by destruct w. Qed.

Lemma normpath_join (key : list str) :
  Forall (λ s, proper_name s = true) key → key ≠ [] →
  os_path_normpath (join (L "/") key) = join (L "/") key.
Proof.
  intros Hkey Hne. unfold os_path_normpath.
  destruct key as [|w key]; [done|].
  pose proof (Forall_inv Hkey) as Hw.
  apply proper_name_spec in Hw as (Hw & _ & _ & Hslash).
  pose proof (join_not_nil w key Hw) as Hjoin.
  rewrite bool_decide_false by done.
  assert (startswith (join (L "/") (w :: key)) (L "/") = false) as ->.
  { destruct w as [|a w]; [done|]. apply Forall_inv in Hslash.
    destruct key; simpl; by rewrite bool_decide_false. }
  cbv zeta. rewrite split_join by done.
  rewrite normpath_comps_proper by done. simpl replicate. cbn [app].
  by rewrite bool_decide_false.
Qed.

(** Without a template the round trip holds for every non-empty key whose
    components are proper names: not empty, not "." or "..", without "/".
    With normalisation on and a prefix or suffix set, the encoded path must
    be one that [normpath] leaves as it is. *)
Theorem roundtrip_without_template (self : t) (key : list str) :
  truthy (filepath_template self) = false →
  key ≠ [] →
  Forall (λ s, proper_name s = true) key →
  _validate_key self key = Ok tt →
  (platform_specific_separator self = true →
   truthy (filepath_prefix self) || truthy (filepath_suffix self) = true →
   os_path_normpath (affixed self (join (L "/") key))
   = affixed self (join (L "/") key)) →
  ∃ filepath,
    _convert_key_to_filepath self key = Ok filepath
    ∧ _convert_filepath_to_key self filepath = Ok (Some (Some <$> key)).
Proof.
  intros Htemplate Hne Hproper Hvalid Hnormal.
  assert ((if platform_specific_separator self
           then os_path_normpath (affixed self (join (L "/") key))
           else affixed self (join (L "/") key))
          = affixed self (join (L "/") key)) as Hpath.
  { destruct (platform_specific_separator self); [|done].
    destruct (truthy (filepath_prefix self) || truthy (filepath_suffix self))
      eqn:Haffix; [by apply Hnormal|].
    apply orb_false_iff in Haffix as [Hp Hs].
    unfold affixed. rewrite Hp, Hs. by apply normpath_join. }
  exists (affixed self (join (L "/") key)). split.
  - unfold _convert_key_to_filepath. rewrite Hvalid, Htemplate. cbn [bind].
    fold (affixed self (join (L "/") key)). by rewrite Hpath.
  - unfold _convert_filepath_to_key. rewrite Hpath.
    pose proof (strip_affixes self (join (L "/") key)) as Hstrip.
    cbv zeta in Hstrip. fold (affixed self (join (L "/") key)) in Hstrip.
    apply bind_Ok_inv in Hstrip as (stripped & -> & Hsuffix). cbn [bind].
    unfold decode_stripped. rewrite Hsuffix, Htemplate. cbn [bind].
    by rewrite normpath_join, split_join.
Qed.

Lemma roundtrip_without_template_witness :
  ∃ filepath,
    _convert_key_to_filepath
      (backend spec_StoreBackend None (Some (L "expectations")) None true)
      [L "suites"; L "mysuite"] = Ok filepath
    ∧ _convert_filepath_to_key
        (backend spec_StoreBackend None (Some (L "expectations")) None true)
        filepath
      = Ok (Some (Some <$> [L "suites"; L "mysuite"])).
Proof.
  apply (roundtrip_without_template
           (backend spec_StoreBackend None (Some (L "expectations")) None true)
           [L "suites"; L "mysuite"]).
  - reflexivity.
  - discriminate.
  - repeat constructor.
  - reflexivity.
  - intros _ _. vm_compute. reflexivity.
Defined.

(** ** Storing and reading files *)

(** [makedirs] keeps every entry and creates no file, however it ends. *)
Lemma makedirs_from_mono (reached todo : list str) (st st1 : fs) r :
  makedirs_from reached todo st = (r, st1) →
  (∀ q x, st !! q = Some x → st1 !! q = Some x)
  ∧ (∀ q c, st1 !! q = Some (File c) → st !! q = Some (File c)).
Proof.
  revert reached st. induction todo as [|name rest IH]; intros reached st; simpl.
  - by intros [= _ <-].
  - destruct (st !! (reached ++ [name])) as [[c|]|] eqn:Hd.
    + by intros [= _ <-].
    + apply IH.
    + intros Hrun. apply IH in Hrun as [Hkeep Hfiles]. split.
      * intros q x Hq. apply Hkeep. rewrite lookup_insert_ne; [done|]. congruence.
      * intros q c Hq. apply Hfiles in Hq.
        destruct (decide (reached ++ [name] = q)) as [<-|Hne].
        -- by rewrite lookup_insert_eq in Hq.
        -- by rewrite lookup_insert_ne in Hq.
Qed.

Lemma set_inv (self : FS.t) (key : list str) (value p : str) (st st' : fs) :
  FS._set self key value st = (Ok p, st') →
  ∃ rel q st1,
    _convert_key_to_filepath (FS.base self) key = Ok rel
    ∧ p = os_path_join2 (FS.full_base_directory self) rel
    ∧ resolve p = Some q
    ∧ os_makedirs (os_path_dirname p) st = (Ok tt, st1)
    ∧ is_dir (st1 !! q) = false
    ∧ st' = <[q := File value]> st1.
Proof.
  unfold FS._set, FS._convert_key_to_filepath, lift, mbind at 1.
  destruct (_convert_key_to_filepath (FS.base self) key) as [rel| |]; try done.
  unfold os_path_dirname.
  destruct (os_path_split _) as [path filename] eqn:Hsplit. simpl fst.
  unfold mbind at 1.
  destruct (os_makedirs path st) as [[[]| |] st1] eqn:Hmk; try done.
  unfold mbind, write_file, with_path, ret.
  destruct (resolve _) as [q|] eqn:Hq; [|done].
  destruct (st1 !! q) as [[c|]|] eqn:Hnode; try done;
    (destruct (_ && _); [|done]); intros [= <- <-];
    exists rel, q, st1; rewrite Hsplit, Hnode; done.
Qed.

Lemma universal_newlines_id (s : str) :
  chr_cr ∉ s → universal_newlines s = s.
Proof.
  induction s as [|a s IH]; [done|]. intros Hcr. simpl.
  rewrite bool_decide_false.
  - rewrite IH; [done|]. intros Hin. apply Hcr. by right.
  - intros ->. apply Hcr. by left.
Qed.

(** After a successful [_set] the key is there, and [_get] returns what a
    read in text mode makes of the value that was written: the value with
    each "\r\n" and each lone "\r" read as "\n", so the value itself when
    it is ASCII text without "\r". *)
Theorem set_then_get (self : FS.t) (key : list str) (value p : str) (st st' : fs) :
  FS._set self key value st = (Ok p, st') →
  FS._get self key st' = (read_text value, st')
  ∧ (forallb is_ascii value = true → chr_cr ∉ value →
     FS._get self key st' = (Ok value, st'))
  ∧ (forallb is_ascii value = true →
     FS._get self key st' = (Ok (universal_newlines value), st'))
  ∧ FS._has_key self key st' = (Ok true, st').
Proof.
  intros Hset.
  apply set_inv in Hset as (rel & q & st1 & Hrel & -> & Hq & _ & _ & ->).
  assert (FS._get self key (<[q := File value]> st1)
          = (read_text value, <[q := File value]> st1)) as Hget.
  { unfold FS._get, FS._convert_key_to_filepath, lift, mbind.
    rewrite Hrel. unfold read_file, with_path.
    rewrite Hq. by rewrite lookup_insert_eq. }
  split; [done|]. split; [|split].
  - intros Hascii Hcr. rewrite Hget. unfold read_text.
    by rewrite Hascii, universal_newlines_id.
  - intros Hascii. rewrite Hget. unfold read_text. by rewrite Hascii.
  - unfold FS._has_key, FS._convert_key_to_filepath, lift, mbind.
    rewrite Hrel. unfold os_path_isfile, with_path.
    rewrite Hq. by rewrite lookup_insert_eq.
Qed.

Lemma set_then_get_witness :
  FS._get store_backend [L "b"; L "g"]
    (<[ [L "ge"; L "store"; L "b"; L "g"] := File (L "w") ]>
       (<[ [L "ge"; L "store"; L "b"] := Dir ]> store_fs))
  = (read_text (L "w"),
     <[ [L "ge"; L "store"; L "b"; L "g"] := File (L "w") ]>
       (<[ [L "ge"; L "store"; L "b"] := Dir ]> store_fs))
  ∧ (forallb is_ascii (L "w") = true → chr_cr ∉ L "w" →
     FS._get store_backend [L "b"; L "g"]
       (<[ [L "ge"; L "store"; L "b"; L "g"] := File (L "w") ]>
          (<[ [L "ge"; L "store"; L "b"] := Dir ]> store_fs))
     = (Ok (L "w"),
        <[ [L "ge"; L "store"; L "b"; L "g"] := File (L "w") ]>
          (<[ [L "ge"; L "store"; L "b"] := Dir ]> store_fs)))
  ∧ (forallb is_ascii (L "w") = true →
     FS._get store_backend [L "b"; L "g"]
       (<[ [L "ge"; L "store"; L "b"; L "g"] := File (L "w") ]>
          (<[ [L "ge"; L "store"; L "b"] := Dir ]> store_fs))
     = (Ok (universal_newlines (L "w")),
        <[ [L "ge"; L "store"; L "b"; L "g"] := File (L "w") ]>
          (<[ [L "ge"; L "store"; L "b"] := Dir ]> store_fs)))
  ∧ FS._has_key store_backend [L "b"; L "g"]
      (<[ [L "ge"; L "store"; L "b"; L "g"] := File (L "w") ]>
         (<[ [L "ge"; L "store"; L "b"] := Dir ]> store_fs))
    = (Ok true,
       <[ [L "ge"; L "store"; L "b"; L "g"] := File (L "w") ]>
         (<[ [L "ge"; L "store"; L "b"] := Dir ]> store_fs)).
Proof.
  apply (set_then_get store_backend [L "b"; L "g"] (L "w") (L "/ge/store/b/g")
           store_fs).
  vm_cast_no_check
    (eq_refl (Ok (L "/ge/store/b/g"),
              <[ [L "ge"; L "store"; L "b"; L "g"] := File (L "w") ]>
                (<[ [L "ge"; L "store"; L "b"] := Dir ]> store_fs))).
Defined.

(** A successful [_set] writes one file: every entry at another path is
    kept, and no other file appears or changes; directories may be added. *)
Theorem set_frame (self : FS.t) (key : list str) (value p : str) (st st' : fs) :
  FS._set self key value st = (Ok p, st') →
  ∃ q, resolve p = Some q
       ∧ st' !! q = Some (File value)
       ∧ (∀ q' x, q' ≠ q → st !! q' = Some x → st' !! q' = Some x)
       ∧ (∀ q' c, q' ≠ q → st' !! q' = Some (File c) → st !! q' = Some (File c)).
Proof.
  intros Hset.
  apply set_inv in Hset as (rel & q & st1 & Hrel & -> & Hq & Hmk & _ & ->).
  unfold os_makedirs, with_path in Hmk.
  destruct (resolve (os_path_dirname _)) as [qd|]; [|done].
  apply makedirs_from_mono in Hmk as [Hkeep Hfiles].
  exists q. repeat split; try done.
  - apply lookup_insert_eq.
  - intros q' x Hne Hq'. rewrite lookup_insert_ne by done. by apply Hkeep.
  - intros q' c Hne Hq'. rewrite lookup_insert_ne in Hq' by done. by apply Hfiles.
Qed.

Lemma set_frame_witness :
  ∃ q, resolve (L "/ge/store/b/g") = Some q
       ∧ (<[ [L "ge"; L "store"; L "b"; L "g"] := File (L "w") ]>
            (<[ [L "ge"; L "store"; L "b"] := Dir ]> store_fs)) !! q
         = Some (File (L "w"))
       ∧ (∀ q' x, q' ≠ q → store_fs !! q' = Some x →
            (<[ [L "ge"; L "store"; L "b"; L "g"] := File (L "w") ]>
               (<[ [L "ge"; L "store"; L "b"] := Dir ]> store_fs)) !! q' = Some x)
       ∧ (∀ q' c, q' ≠ q →
            (<[ [L "ge"; L "store"; L "b"; L "g"] := File (L "w") ]>
               (<[ [L "ge"; L "store"; L "b"] := Dir ]> store_fs)) !! q'
            = Some (File c) →
            store_fs !! q' = Some (File c)).
Proof.
  apply (set_frame store_backend [L "b"; L "g"] (L "w") (L "/ge/store/b/g")
           store_fs).
  vm_cast_no_check
    (eq_refl (Ok (L "/ge/store/b/g"),
              <[ [L "ge"; L "store"; L "b"; L "g"] := File (L "w") ]>
                (<[ [L "ge"; L "store"; L "b"] := Dir ]> store_fs))).
Defined.

(** ** Paths below the base directory *)

Lemma split_on_not_nil (c : ascii) (s : str) : split_on c s ≠ [].
Proof.
  induction s as [|a s IH]; simpl; [done|].
  case_bool_decide; [done|]. by destruct (split_on c s).
Qed.

Lemma split_on_app_sep (c : ascii) (x y : str) :
  split_on c (x ++ c :: y) = split_on c x ++ split_on c y.
Proof.
  induction x as [|a x IH]; simpl.
  - by rewrite bool_decide_true.
  - destruct (bool_decide (a = c)); [by rewrite IH|].
    rewrite IH. pose proof (split_on_not_nil c x).
    by destruct (split_on c x).
Qed.

Lemma normpath_comps_app (initial : bool) (acc l1 l2 : list str) :
  normpath_comps initial acc (l1 ++ l2)
  = normpath_comps initial (normpath_comps initial acc l1) l2.
Proof.
  revert acc. induction l1 as [|comp l1 IH]; intros acc; simpl; [done|].
  repeat case_match; apply IH.
Qed.

Lemma startswith_app_l (s t p : str) :
  startswith s p = true → startswith (s ++ t) p = true.
Proof. rewrite !startswith_iff. intros [r ->]. exists (r ++ t). by rewrite app_assoc. Qed.

(** Trailing separators do not change what an absolute path resolves to. *)
Lemma resolve_trailing (s : str) (k : nat) :
  startswith s (L "/") = true →
  resolve (s ++ replicate k chr_slash) = resolve s.
Proof.
  intros Habs. unfold resolve. rewrite startswith_app_l, Habs by done.
  destruct k as [|k]; [by rewrite app_nil_r|]. f_equal. simpl replicate.
  rewrite split_on_app_sep, normpath_comps_app.
  apply all_slashes_no_component.
  unfold all_char. apply forallb_forall. intros a Ha.
  apply list_elem_of_In, elem_of_replicate in Ha as [-> _].
  by apply bool_decide_eq_true.
Qed.

Lemma rstrip_spec (c : ascii) (s : str) :
  ∃ k, s = rstrip c s ++ replicate k c.
Proof.
  induction s as [|a s [k IH]]; [by exists 0|]. simpl.
  destruct (rstrip c s) as [|b r] eqn:Hr.
  - simpl in IH. case_bool_decide as Hac.
    + subst a. exists (S k). by rewrite IH.
    + exists k. by rewrite IH.
  - exists k. by rewrite IH at 1.
Qed.

Lemma rstrip_id (c : ascii) (s : str) : last s ≠ Some c → rstrip c s = s.
Proof.
  induction s as [|a s IH]; [done|]. intros Hlast. simpl.
  destruct s as [|b s].
  - simpl. rewrite bool_decide_false; [done|]. by intros ->.
  - rewrite last_cons_cons in Hlast. rewrite IH by done. done.
Qed.

Lemma all_char_replicate (c : ascii) (k : nat) : all_char c (replicate k c) = true.
Proof. induction k; simpl; [done|]. by rewrite bool_decide_true. Qed.

Lemma resolve_rstrip (s : str) :
  startswith s (L "/") = true →
  all_char chr_slash s = false →
  resolve (rstrip chr_slash s) = resolve s.
Proof.
  intros Habs Hall. destruct (rstrip_spec chr_slash s) as [k Hk].
  destruct (rstrip chr_slash s) as [|a r] eqn:Hr.
  { simpl in Hk. rewrite Hk, all_char_replicate in Hall. done. }
  rewrite Hk. symmetry. apply resolve_trailing.
  rewrite Hk in Habs. exact Habs.
Qed.

Lemma cut_last_slash_none (t : str) :
  Forall (λ a, a ≠ chr_slash) t → cut_last_slash t = ([], t).
Proof.
  induction 1 as [|a t Ha Ht IH]; [done|]. simpl.
  by rewrite IH, bool_decide_false.
Qed.

Lemma cut_last_slash_app (h t : str) :
  Forall (λ a, a ≠ chr_slash) t →
  cut_last_slash (h ++ chr_slash :: t) = (h ++ [chr_slash], t).
Proof.
  intros Ht. induction h as [|a h IH]; simpl.
  - by rewrite cut_last_slash_none.
  - rewrite IH. by destruct h; destruct (bool_decide (a = chr_slash)).
Qed.

(** The directory part of [y/t] resolves like [y]. *)
Lemma resolve_dirname_app (y t : str) :
  y = [] ∨ startswith y (L "/") = true →
  Forall (λ a, a ≠ chr_slash) t →
  resolve (os_path_dirname (y ++ chr_slash :: t))
  = resolve (y ++ [chr_slash]).
Proof.
  intros Hy Ht. unfold os_path_dirname, os_path_split.
  rewrite cut_last_slash_app by done. simpl fst.
  destruct (all_char chr_slash (y ++ [chr_slash])) eqn:Hall; [done|].
  simpl negb. cbv iota. apply resolve_rstrip; [|done].
  destruct Hy as [->|Hy]; [done|]. by apply startswith_app_l.
Qed.

Lemma join_snoc (cs : list str) (t : str) :
  cs ≠ [] → join (L "/") (cs ++ [t]) = join (L "/") cs ++ chr_slash :: t.
Proof.
  induction cs as [|w cs IH]; [done|]. intros _.
  destruct cs as [|w' cs]; [done|].
  change (join (L "/") ((w :: w' :: cs) ++ [t]))
    with (w ++ L "/" ++ join (L "/") ((w' :: cs) ++ [t])).
  rewrite IH by done.
  change (join (L "/") (w :: w' :: cs))
    with (w ++ L "/" ++ join (L "/") (w' :: cs)).
  by rewrite <- !app_assoc.
Qed.

Lemma join_no_leading_slash (comps : list str) :
  Forall (λ s, proper_name s = true) comps → comps ≠ [] →
  startswith (join (L "/") comps) (L "/") = false.
Proof.
  intros Hcomps Hne. destruct comps as [|w comps]; [done|].
  apply Forall_inv, proper_name_spec in Hcomps as (Hw & _ & _ & Hslash).
  destruct w as [|a w]; [done|]. apply Forall_inv in Hslash.
  destruct comps; simpl; by rewrite bool_decide_false.
Qed.

Lemma endswith_slash (b : str) :
  endswith b [chr_slash] = true → ∃ x, b = x ++ [chr_slash].
Proof.
  unfold endswith. rewrite startswith_iff. intros [r Hr].
  exists (reverse r). apply (f_equal reverse) in Hr.
  rewrite reverse_involutive in Hr. rewrite Hr.
  by rewrite reverse_app, reverse_involutive.
Qed.

(** How [os.path.join] puts a relative path below an absolute one. *)
Lemma join2_under (b rel : str) :
  startswith b (L "/") = true →
  startswith rel (L "/") = false →
  ∃ x, os_path_join2 b rel = x ++ chr_slash :: rel
       ∧ (x = [] ∨ startswith x (L "/") = true)
       ∧ resolve (x ++ [chr_slash]) = resolve b.
Proof.
  intros Habs Hrel. unfold os_path_join2.
  change (startswith rel [chr_slash]) with (startswith rel (L "/")).
  rewrite Hrel. rewrite bool_decide_false by (intros ->; done). simpl orb.
  destruct (endswith b [chr_slash]) eqn:Hend.
  - apply endswith_slash in Hend as [x ->]. exists x.
    rewrite <- app_assoc. split; [done|]. split; [|done].
    destruct x as [|a x]; [by left|]. right. exact Habs.
  - exists b. split; [done|]. split; [by right|].
    by apply (resolve_trailing b 1).
Qed.

Lemma resolve_below (y : str) (q cs : list str) :
  y = [] ∨ startswith y (L "/") = true →
  resolve (y ++ [chr_slash]) = Some q →
  Forall (λ s, proper_name s = true) cs → cs ≠ [] →
  resolve (y ++ chr_slash :: join (L "/") cs) = Some (q ++ cs).
Proof.
  intros Hy Hq Hcs Hne. unfold resolve in *.
  assert (∀ t, startswith (y ++ chr_slash :: t) (L "/") = true) as Habs.
  { intros t. destruct Hy as [->|Hy]; [done|]. by apply startswith_app_l. }
  rewrite Habs in *. injection Hq as <-. f_equal.
  rewrite !split_on_app_sep, !normpath_comps_app, split_join by done.
  simpl. by rewrite normpath_comps_proper.
Qed.

(** The path of a key below the base directory, and its directory part. *)
Lemma resolve_under (b : str) (qb comps : list str) :
  resolve b = Some qb →
  Forall (λ s, proper_name s = true) comps → comps ≠ [] →
  resolve (os_path_join2 b (join (L "/") comps)) = Some (qb ++ comps)
  ∧ resolve (os_path_dirname (os_path_join2 b (join (L "/") comps)))
    = Some (qb ++ removelast comps).
Proof.
  intros Hb Hcomps Hne.
  assert (startswith b (L "/") = true) as Habs.
  { unfold resolve in Hb. by destruct (startswith b (L "/")). }
  destruct (join2_under b (join (L "/") comps) Habs) as (x & -> & Hx & Hxb).
  { by apply join_no_leading_slash. }
  rewrite Hb in Hxb. split; [by apply resolve_below|].
  destruct comps as [|t cs _] using rev_ind; [done|].
  rewrite removelast_last.
  apply Forall_app in Hcomps as [Hcs Ht].
  apply Forall_inv, proper_name_spec in Ht as (_ & _ & _ & Ht).
  destruct cs as [|w cs].
  - simpl. rewrite resolve_dirname_app by done. by rewrite app_nil_r.
  - rewrite join_snoc by done.
    replace (x ++ chr_slash :: join (L "/") (w :: cs) ++ chr_slash :: t)
      with ((x ++ chr_slash :: join (L "/") (w :: cs)) ++ chr_slash :: t)
      by (by rewrite <- app_assoc).
    assert (startswith (x ++ chr_slash :: join (L "/") (w :: cs)) (L "/") = true)
      as Hy.
    { destruct Hx as [->|Hx]; [done|]. by apply startswith_app_l. }
    rewrite resolve_dirname_app by auto.
    rewrite (resolve_trailing _ 1) by done. by apply resolve_below.
Qed.




(** ** Removing keys *)

Lemma rmdir_effect (p : str) (st st' : fs) r :
  os_rmdir p st = (r, st') →
  st' = st
  ∨ ∃ q, resolve p = Some q ∧ st !! q = Some Dir ∧ st' = delete q st.
Proof.
  unfold os_rmdir, with_path, unsupported.
  destruct (resolve p) as [q|]; [|by intros [= _ <-]; left].
  destruct (st !! q) as [[c|]|] eqn:Hq; try (by intros [= _ <-]; left).
  repeat case_bool_decide; intros [= _ <-]; eauto.
Qed.

Lemma listdir_state (p : str) (st st' : fs) r :
  os_listdir p st = (r, st') → st' = st.
Proof.
  unfold os_listdir, with_path, unsupported.
  destruct (resolve p) as [q|]; [|by intros [= _ <-]].
  by destruct (st !! q) as [[c|]|]; intros [= _ <-].
Qed.

Lemma exists_state (p : str) (st st' : fs) r :
  os_path_exists p st = (r, st') → st' = st.
Proof.
  unfold os_path_exists, with_path, unsupported.
  by destruct (resolve p) as [q|]; intros [= _ <-].
Qed.

(** One turn of the loop of [rrmdir]: the state is left as it is, or
    [curpath] was an empty directory, is removed, and the loop goes on
    with its [dirname]. *)
Lemma rrmdir_loop_step (fuel : nat) (mroot curpath : str) (st st' : fs) r :
  FS.rrmdir_loop (S fuel) mroot curpath st = (r, st') →
  st' = st
  ∨ ∃ q, mroot ≠ curpath ∧ resolve curpath = Some q ∧ st !! q = Some Dir
         ∧ FS.rrmdir_loop fuel mroot (os_path_dirname curpath) (delete q st)
           = (r, st').
Proof.
  cbn [FS.rrmdir_loop]. unfold mbind.
  destruct (os_listdir curpath st) as [[names| |] st1] eqn:Hls;
    apply listdir_state in Hls as ->; try (by intros [= _ <-]; left).
  destruct (os_path_exists curpath st) as [[found| |] st2] eqn:Hex;
    apply exists_state in Hex as ->; try (by intros [= _ <-]; left).
  destruct (bool_decide (names = []) && found
            && negb (bool_decide (mroot = curpath))) eqn:Hcond;
    [|by intros [= _ <-]; left].
  apply andb_true_iff in Hcond as [_ Hroot]. apply negb_true_iff in Hroot.
  apply bool_decide_eq_false in Hroot.
  unfold os_rmdir, with_path, unsupported.
  destruct (resolve curpath) as [q|] eqn:Hq; [|by intros [= _ <-]; left].
  destruct (st !! q) as [[c|]|] eqn:Hnode; try (by intros [= _ <-]; left).
  destruct (bool_decide (q = [])); [by intros [= _ <-]; left|].
  destruct (bool_decide (children st q = [])); [|by intros [= _ <-]; left].
  intros Hloop. right. exists q. eauto.
Qed.

(** [rrmdir] only removes directories: nothing is created and every file
    stays. *)
Lemma rrmdir_loop_effect (fuel : nat) (mroot curpath : str) (st st' : fs) r :
  FS.rrmdir_loop fuel mroot curpath st = (r, st') →
  (∀ q x, st' !! q = Some x → st !! q = Some x)
  ∧ (∀ q c, st !! q = Some (File c) → st' !! q = Some (File c)).
Proof.
  revert curpath st. induction fuel as [|fuel IH]; intros curpath st Hloop.
  - by injection Hloop as _ <-.
  - apply rrmdir_loop_step in Hloop as [->|(q0 & _ & _ & Hdir & Hloop)]; [done|].
    apply IH in Hloop as [Hsub Hfiles]. split.
    + intros q x Hq. apply Hsub in Hq.
      apply lookup_delete_Some in Hq as [_ Hq]. done.
    + intros q c Hq. apply Hfiles. rewrite lookup_delete_ne; [done|]. congruence.
Qed.

Lemma rrmdir_effect (self : FS.t) (mroot curpath : str) (st st' : fs) r :
  FS.rrmdir self mroot curpath st = (r, st') →
  (∀ q x, st' !! q = Some x → st !! q = Some x)
  ∧ (∀ q c, st !! q = Some (File c) → st' !! q = Some (File c)).
Proof.
  unfold FS.rrmdir, try_except, ret.
  destruct (FS.rrmdir_loop _ mroot curpath st) as [[[]|e|] st1] eqn:Hloop;
    apply rrmdir_loop_effect in Hloop; [by intros [= _ <-]| |by intros [= _ <-]].
  by destruct e; intros [= _ <-].
Qed.

Lemma remove_key_inv (self : FS.t) (key : list str) (rel : str)
    (q0 : list str) (st st' : fs) r :
  _convert_key_to_filepath (FS.base self) key = Ok rel →
  resolve (os_path_join2 (FS.full_base_directory self) rel) = Some q0 →
  FS.remove_key self key st = (r, st') →
  (∀ q x, st' !! q = Some x → st !! q = Some x)
  ∧ (∀ q c, q ≠ q0 → st !! q = Some (File c) → st' !! q = Some (File c))
  ∧ (r = Ok true → is_file (st !! q0) = true ∧ st' !! q0 = None)
  ∧ (r = Ok false → st !! q0 = None ∧ st' = st).
Proof.
  intros Hrel Hq0.
  unfold FS.remove_key, FS._convert_key_to_filepath, lift, mbind at 1.
  rewrite Hrel. unfold mbind at 1. unfold os_path_exists, with_path. rewrite Hq0.
  destruct (st !! q0) as [node|] eqn:Hnode.
  2:{ rewrite bool_decide_false by (by intros [? ?]).
      intros [= <- <-]. repeat split; try done. }
  rewrite bool_decide_true by eauto.
  unfold mbind at 1. unfold os_remove, with_path. rewrite Hq0, Hnode.
  destruct node as [c0|].
  2:{ intros [= <- <-]. repeat split; try done. }
  unfold mbind, ret.
  destruct (FS.rrmdir self _ _ (delete q0 st)) as [[[]|e|] st1] eqn:Hrr;
    apply rrmdir_effect in Hrr as [Hsub Hfiles]; intros [= <- <-].
  all: repeat split; try done.
  all: try (intros q x Hq; apply Hsub in Hq;
            by apply lookup_delete_Some in Hq as [_ Hq]).
  all: try (intros q c Hne Hq; apply Hfiles; by rewrite lookup_delete_ne).
  destruct (st1 !! q0) as [x|] eqn:Hx; [|done].
  apply Hsub in Hx. by rewrite lookup_delete_eq in Hx.
Qed.

(** [remove_key] creates nothing and touches no file but the one of the
    key, however it ends.  It returns [True] only after removing that
    file; when it returns [False] the filesystem is left as it was; and it
    returns [False] whenever nothing is at the path of the key. *)
Theorem remove_key_effect (self : FS.t) (key : list str) (rel : str)
    (q0 : list str) (st st' : fs) r :
  _convert_key_to_filepath (FS.base self) key = Ok rel →
  resolve (os_path_join2 (FS.full_base_directory self) rel) = Some q0 →
  FS.remove_key self key st = (r, st') →
  (∀ q x, st' !! q = Some x → st !! q = Some x)
  ∧ (∀ q c, q ≠ q0 → st !! q = Some (File c) → st' !! q = Some (File c))
  ∧ (r = Ok true → is_file (st !! q0) = true ∧ st' !! q0 = None)
  ∧ (r = Ok false → st' = st)
  ∧ (st !! q0 = None → r = Ok false ∧ st' = st).
Proof.
  intros Hrel Hq0 Hrm.
  destruct (remove_key_inv _ _ _ _ _ _ _ Hrel Hq0 Hrm)
    as (Hsub & Hkeep & Htrue & Hfalse).
  split; [done|]. split; [done|]. split; [done|]. split.
  - intros Hr. by destruct (Hfalse Hr).
  - intros Hnone.
    unfold FS.remove_key, FS._convert_key_to_filepath, lift, mbind in Hrm.
    rewrite Hrel in Hrm. unfold os_path_exists, with_path in Hrm.
    rewrite Hq0, Hnone in Hrm.
    rewrite bool_decide_false in Hrm by (by intros [? ?]).
    by injection Hrm as <- <-.
Qed.

Lemma remove_key_effect_witness :
  (∀ q x, emptied_store_fs !! q = Some x → store_fs !! q = Some x)
  ∧ (∀ q c, q ≠ [L "ge"; L "store"; L "a"; L "f"] →
       store_fs !! q = Some (File c) → emptied_store_fs !! q = Some (File c))
  ∧ (Ok true = Ok true →
     is_file (store_fs !! [L "ge"; L "store"; L "a"; L "f"]) = true
     ∧ emptied_store_fs !! [L "ge"; L "store"; L "a"; L "f"] = None)
  ∧ (Ok true = Ok false → emptied_store_fs = store_fs)
  ∧ (store_fs !! [L "ge"; L "store"; L "a"; L "f"] = None →
     Ok true = Ok false ∧ emptied_store_fs = store_fs).
Proof.
  apply (remove_key_effect store_backend [L "a"; L "f"] (L "a/f")
           [L "ge"; L "store"; L "a"; L "f"] store_fs emptied_store_fs (Ok true)).
  - reflexivity.
  - reflexivity.
  - vm_cast_no_check (eq_refl (@Ok bool true, emptied_store_fs)).
Defined.

(** ** Cleaning up below the base directory *)

Lemma rstrip_snoc (c : ascii) (s : str) : rstrip c (s ++ [c]) = rstrip c s.
Proof.
  induction s as [|a s IH]; simpl.
  - by rewrite bool_decide_true.
  - by rewrite IH.
Qed.

Lemma all_char_last (c a : ascii) (s : str) :
  last s = Some a → a ≠ c → all_char c s = false.
Proof.
  induction s as [|b s IH]; [done|]. intros Hlast Hne. simpl.
  destruct s as [|b' s].
  - injection Hlast as ->. by rewrite bool_decide_false.
  - rewrite last_cons_cons in Hlast. rewrite IH by done. apply andb_false_r.
Qed.

Lemma last_join (cs : list str) :
  Forall (λ s, proper_name s = true) cs → cs ≠ [] →
  ∃ a, last (join (L "/") cs) = Some a ∧ a ≠ chr_slash.
Proof.
  induction 1 as [|w cs Hw Hcs IH]; [done|]. intros _.
  apply proper_name_spec in Hw as (Hne & _ & _ & Hslash).
  destruct cs as [|w' cs].
  - simpl. destruct w as [|b w] using rev_ind; [done|].
    exists b. rewrite last_snoc. split; [done|].
    apply Forall_app in Hslash as [_ Hb]. by apply Forall_inv in Hb.
  - destruct IH as (a & Ha & Hne'); [done|]. exists a. split; [|done].
    change (join (L "/") (w :: w' :: cs))
      with (w ++ chr_slash :: join (L "/") (w' :: cs)).
    rewrite last_app, last_cons, Ha. done.
Qed.

(** The [dirname] of a path below a base directory that has no trailing
    separator. *)
Lemma dirname_below (b : str) (a : ascii) (cs : list str) (t : str) :
  last b = Some a → a ≠ chr_slash →
  Forall (λ s, proper_name s = true) (cs ++ [t]) →
  os_path_dirname (b ++ chr_slash :: join (L "/") (cs ++ [t]))
  = match cs with
    | [] => b
    | _ => b ++ chr_slash :: join (L "/") cs
    end.
Proof.
  intros Hlast Ha Hcomps.
  apply Forall_app in Hcomps as [Hcs Ht].
  apply Forall_inv, proper_name_spec in Ht as (_ & _ & _ & Ht).
  assert (∀ y a', last y = Some a' → a' ≠ chr_slash →
            os_path_dirname (y ++ chr_slash :: t) = y) as Hdir.
  { intros y a' Hy Ha'. unfold os_path_dirname, os_path_split.
    rewrite cut_last_slash_app by done. simpl fst.
    assert (all_char chr_slash (y ++ [chr_slash]) = false) as ->.
    { unfold all_char. rewrite forallb_app.
      fold (all_char chr_slash y). by rewrite (all_char_last _ a'). }
    simpl. rewrite rstrip_snoc. apply rstrip_id. rewrite Hy. by intros [= ->]. }
  destruct cs as [|w cs].
  - simpl. by apply (Hdir b a).
  - rewrite join_snoc by done.
    destruct (last_join (w :: cs)) as (a' & Ha' & Hne'); [done|done|].
    replace (b ++ chr_slash :: join (L "/") (w :: cs) ++ chr_slash :: t)
      with ((b ++ chr_slash :: join (L "/") (w :: cs)) ++ chr_slash :: t)
      by (by rewrite <- app_assoc).
    apply (Hdir _ a'); [|done].
    by rewrite last_app, last_cons, Ha'.
Qed.

Lemma endswith_last (b : str) (a c : ascii) :
  last b = Some a → a ≠ c → endswith b [c] = false.
Proof.
  destruct b as [|a' b _] using rev_ind; [done|].
  rewrite last_snoc. intros [= ->] Hne.
  unfold endswith. rewrite reverse_app. simpl.
  by rewrite bool_decide_false.
Qed.

Lemma resolve_below_base (b : str) (qb cs : list str) :
  resolve b = Some qb →
  Forall (λ s, proper_name s = true) cs → cs ≠ [] →
  resolve (b ++ chr_slash :: join (L "/") cs) = Some (qb ++ cs).
Proof.
  intros Hb Hcs Hne.
  assert (startswith b (L "/") = true) as Habs.
  { unfold resolve in Hb. by destruct (startswith b (L "/")). }
  apply resolve_below; auto.
  rewrite <- Hb. by apply (resolve_trailing b 1).
Qed.

(** Started at or below a base directory without trailing separator, the
    loop of [rrmdir] removes directories inside the base directory only. *)
Lemma rrmdir_loop_below (fuel : nat) (b : str) (a : ascii) (qb cs : list str)
    (st st' : fs) r :
  last b = Some a → a ≠ chr_slash →
  resolve b = Some qb →
  Forall (λ s, proper_name s = true) cs →
  FS.rrmdir_loop fuel b
    (match cs with [] => b | _ => b ++ chr_slash :: join (L "/") cs end) st
  = (r, st') →
  ∀ q, ¬ strictly_below qb q → st' !! q = st !! q.
Proof.
  intros Hlast Ha Hb. revert cs st.
  induction fuel as [|fuel IH]; intros cs st Hcs Hloop q Hq.
  - by injection Hloop as _ <-.
  - apply rrmdir_loop_step in Hloop as [->|(q0 & Hroot & Hq0 & _ & Hloop)];
      [done|].
    destruct cs as [|t cs' _] using rev_ind; [done|].
    assert (cs' ++ [t] ≠ []) as Hne by (by destruct cs').
    assert ((match cs' ++ [t] with
             | [] => b
             | _ => b ++ chr_slash :: join (L "/") (cs' ++ [t])
             end) = b ++ chr_slash :: join (L "/") (cs' ++ [t])) as Hcur
      by (by destruct cs').
    rewrite Hcur in *.
    rewrite (resolve_below_base _ qb) in Hq0 by done. injection Hq0 as <-.
    rewrite (dirname_below b a) in Hloop by done.
    apply Forall_app in Hcs as [Hcs' _].
    rewrite (IH _ _ Hcs' Hloop q Hq).
    apply lookup_delete_ne. intros <-. apply Hq. by exists (cs' ++ [t]).
Qed.

(** When the base directory is written without trailing separator,
    [remove_key] changes nothing outside the base directory, and keeps the
    base directory itself, however it ends. *)
Theorem remove_key_keeps_outside (self : FS.t) (key comps qb : list str)
    (a : ascii) (st st' : fs) r :
  _convert_key_to_filepath (FS.base self) key = Ok (join (L "/") comps) →
  Forall (λ s, proper_name s = true) comps →
  comps ≠ [] →
  resolve (FS.full_base_directory self) = Some qb →
  last (FS.full_base_directory self) = Some a →
  a ≠ chr_slash →
  FS.remove_key self key st = (r, st') →
  ∀ q, ¬ strictly_below qb q → st' !! q = st !! q.
Proof.
  intros Hrel Hcomps Hne Hb Hlast Ha Hremove q Hq.
  set (b := FS.full_base_directory self) in *.
  assert (os_path_join2 b (join (L "/") comps)
          = b ++ chr_slash :: join (L "/") comps) as Hjoin.
  { unfold os_path_join2.
    change (startswith (join (L "/") comps) [chr_slash])
      with (startswith (join (L "/") comps) (L "/")).
    rewrite join_no_leading_slash by done.
    rewrite (endswith_last b a) by done.
    rewrite bool_decide_false; [done|]. intros Hnil. by rewrite Hnil in Hlast. }
  revert Hremove.
  unfold FS.remove_key, FS._convert_key_to_filepath, lift, mbind at 1.
  rewrite Hrel. fold b. rewrite Hjoin.
  unfold mbind at 1. unfold os_path_exists, with_path.
  rewrite (resolve_below_base _ qb) by done.
  destruct (bool_decide (is_Some (st !! (qb ++ comps)))); [|by intros [= _ <-]].
  unfold mbind at 1. unfold os_remove, with_path.
  rewrite (resolve_below_base _ qb) by done.
  destruct (st !! (qb ++ comps)) as [[c|]|] eqn:Hnode; try (by intros [= _ <-]).
  assert (delete (qb ++ comps) st !! q = st !! q) as <-.
  { apply lookup_delete_ne. intros <-. apply Hq. by exists comps. }
  destruct comps as [|t cs _] using rev_ind; [done|].
  rewrite (dirname_below b a) by done.
  apply Forall_app in Hcomps as [Hcs _].
  unfold mbind, FS.rrmdir, try_except, ret.
  destruct (FS.rrmdir_loop _ b _ (delete _ st)) as [[[]|e|] st1] eqn:Hloop;
    pose proof (rrmdir_loop_below _ b a qb cs _ _ _ Hlast Ha Hb Hcs Hloop q Hq)
      as Heq.
  - by intros [= _ <-].
  - by destruct e; intros [= _ <-].
  - by intros [= _ <-].
Qed.

Lemma remove_key_keeps_outside_witness :
  emptied_store_fs !! [L "ge"; L "store"] = store_fs !! [L "ge"; L "store"].
Proof.
  apply (remove_key_keeps_outside store_backend [L "a"; L "f"] [L "a"; L "f"]
           [L "ge"; L "store"] "e"%char store_fs emptied_store_fs (Ok true)).
  - reflexivity.
  - repeat constructor.
  - discriminate.
  - reflexivity.
  - reflexivity.
  - discriminate.
  - vm_cast_no_check (eq_refl (@Ok bool true, emptied_store_fs)).
  - intros (rest & Hne & Heq). apply (f_equal length) in Heq.
    rewrite length_app in Heq. destruct rest; [done|]. simpl in Heq. lia.
Defined.

(** ** The tree stays well-formed *)

Lemma children_nil (st : fs) (d q : list str) (x : node) :
  children st d = [] → st !! q = Some x → q ≠ [] → parent q ≠ d.
Proof.
  unfold children. intros Hnil Hq Hne Hparent.
  destruct (last q) as [name|] eqn:Hlast.
  2:{ apply last_None in Hlast. done. }
  assert (name ∈ omap (λ '(q, _), if bool_decide (parent q = d) then last q else None)
                      (map_to_list st)) as Hin.
  { apply list_elem_of_omap. exists (q, x). split.
    - by apply elem_of_map_to_list.
    - simpl. by rewrite bool_decide_true. }
  rewrite Hnil in Hin. by apply elem_of_nil in Hin.
Qed.

Lemma tree_delete (st : fs) (q : list str) :
  tree st → q ≠ [] →
  (∀ q' x, st !! q' = Some x → q' ≠ [] → parent q' ≠ q) →
  tree (delete q st).
Proof.
  intros [Hroot Htree] Hne Hleaf. split.
  - by rewrite lookup_delete_ne.
  - intros q' x Hq' Hne'. apply lookup_delete_Some in Hq' as [Hqq' Hq'].
    rewrite lookup_delete_ne by (by apply not_eq_sym, (Hleaf q' x)).
    by apply (Htree q' x).
Qed.

Lemma tree_delete_file (st : fs) (q : list str) (c : str) :
  tree st → st !! q = Some (File c) → tree (delete q st).
Proof.
  intros Htree Hq. apply tree_delete; [done| |].
  - intros ->. destruct Htree as [Hroot _]. congruence.
  - intros q' x Hq' Hne' Hparent. destruct Htree as [_ Htree].
    specialize (Htree q' x Hq' Hne'). congruence.
Qed.

Lemma tree_insert (st : fs) (q : list str) (x : node) :
  tree st → q ≠ [] → st !! parent q = Some Dir →
  (x = Dir ∨ is_dir (st !! q) = false) →
  tree (<[q := x]> st).
Proof.
  intros [Hroot Htree] Hne Hparent Hx. split.
  - by rewrite lookup_insert_ne.
  - intros q' x' Hq' Hne'.
    assert (st !! parent q' = Some Dir) as Hp.
    { destruct (decide (q = q')) as [<-|Hqq']; [done|].
      rewrite lookup_insert_ne in Hq' by done. by apply (Htree q' x'). }
    destruct (decide (q = parent q')) as [Heq|Hqp].
    + rewrite <- Heq in *. rewrite lookup_insert_eq.
      destruct Hx as [->|Hx]; [done|]. by rewrite Hp in Hx.
    + by rewrite lookup_insert_ne.
Qed.

Lemma makedirs_from_tree (reached todo : list str) (st st1 : fs) r :
  tree st → reached = [] ∨ st !! reached = Some Dir →
  makedirs_from reached todo st = (r, st1) → tree st1.
Proof.
  revert reached st. induction todo as [|name rest IH]; intros reached st Htree Hreached.
  - by intros [= _ <-].
  - simpl. assert (parent (reached ++ [name]) = reached) as Hparent
      by apply removelast_last.
    assert (st !! reached = Some Dir) as Hdir.
    { destruct Hreached as [->|]; [|done]. by destruct Htree. }
    destruct (st !! (reached ++ [name])) as [[c|]|] eqn:Hd.
    + by intros [= _ <-].
    + apply IH; auto.
    + apply IH.
      * apply tree_insert;
          [done|by destruct reached|by rewrite Hparent|by left].
      * right. apply lookup_insert_eq.
Qed.

Lemma makedirs_tree (p : str) (st st1 : fs) r :
  tree st → os_makedirs p st = (r, st1) → tree st1.
Proof.
  unfold os_makedirs, with_path, unsupported. intros Htree.
  destruct (resolve p); [|by intros [= _ <-]].
  apply makedirs_from_tree; auto.
Qed.

Lemma rename_tree (src dst : str) (st st1 : fs) r :
  tree st → os_rename src dst st = (r, st1) → tree st1.
Proof.
  unfold os_rename, with_path, unsupported. intros Htree.
  destruct (resolve src) as [qs|]; [|by intros [= _ <-]].
  destruct (resolve dst) as [qd|]; [|by intros [= _ <-]].
  destruct (st !! qs) as [[c|]|] eqn:Hqs; try (by intros [= _ <-]).
  destruct (bool_decide (qs = qd)) eqn:Hsame; [by intros [= _ <-]|].
  apply bool_decide_eq_false in Hsame.
  destruct (is_dir (st !! qd)) eqn:Hqd; [by intros [= _ <-]|].
  destruct (is_dir (st !! parent qd) && negb (bool_decide (qd = []))) eqn:Hp;
    [|by intros [= _ <-]].
  apply andb_true_iff in Hp as [Hp Hne]. apply negb_true_iff in Hne.
  apply bool_decide_eq_false in Hne.
  intros [= _ <-]. apply tree_insert; try done.
  - by eapply tree_delete_file.
  - destruct (st !! parent qd) as [[c'|]|] eqn:Hpd; try done.
    rewrite lookup_delete_ne; [done|]. congruence.
  - right. destruct (decide (qs = qd)); [done|].
    by rewrite lookup_delete_ne.
Qed.

Lemma shutil_move_tree (src dst : str) (st st1 : fs) r :
  tree st → shutil_move src dst st = (r, st1) → tree st1.
Proof.
  intros Htree. unfold shutil_move, mbind, os_path_isdir, os_path_exists,
    with_path, unsupported, throw.
  destruct (resolve dst) as [qd|]; [|by intros [= _ <-]].
  destruct (is_dir (st !! qd)); [|by apply rename_tree].
  destruct (resolve src) as [qs|]; [|by intros [= _ <-]].
  destruct (is_dir (st !! qs)); [by intros [= _ <-]|].
  destruct (resolve (os_path_join2 dst (_basename src))) as [qr|] eqn:Hqr;
    [|by intros [= _ <-]].
  destruct (bool_decide (is_Some (st !! qr))); [by intros [= _ <-]|].
  by apply rename_tree.
Qed.

Lemma rrmdir_loop_tree (fuel : nat) (mroot curpath : str) (st st' : fs) r :
  tree st → FS.rrmdir_loop fuel mroot curpath st = (r, st') → tree st'.
Proof.
  revert curpath st. induction fuel as [|fuel IH]; intros curpath st Htree.
  - by intros [= _ <-].
  - cbn [FS.rrmdir_loop]. unfold mbind.
    destruct (os_listdir curpath st) as [[names| |] st1] eqn:Hls;
      apply listdir_state in Hls as ->; try (by intros [= _ <-]).
    destruct (os_path_exists curpath st) as [[found| |] st2] eqn:Hex;
      apply exists_state in Hex as ->; try (by intros [= _ <-]).
    destruct (_ && _); [|by intros [= _ <-]].
    unfold os_rmdir, with_path, unsupported.
    destruct (resolve curpath) as [q|]; [|by intros [= _ <-]].
    destruct (st !! q) as [[c|]|] eqn:Hnode; try (by intros [= _ <-]).
    destruct (bool_decide (q = [])) eqn:Hq; [by intros [= _ <-]|].
    apply bool_decide_eq_false in Hq.
    destruct (bool_decide (children st q = [])) eqn:Hch; [|by intros [= _ <-]].
    apply bool_decide_eq_true in Hch.
    apply IH. apply tree_delete; try done.
    intros q' x. by apply children_nil.
Qed.

Lemma set_tree (self : FS.t) (key : list str) (value : str) (st st' : fs) r :
  tree st → FS._set self key value st = (r, st') → tree st'.
Proof.
  intros Htree.
  unfold FS._set, FS._convert_key_to_filepath, lift, mbind at 1.
  destruct (_convert_key_to_filepath _ key) as [rel| |]; try (by intros [= _ <-]).
  destruct (os_path_split _) as [path filename].
  unfold mbind at 1.
  destruct (os_makedirs path st) as [[[]| |] st1] eqn:Hmk;
    apply makedirs_tree in Hmk; try done; try (by intros [= _ <-]).
  unfold mbind, write_file, with_path, unsupported, ret.
  destruct (resolve _) as [q|]; [|by intros [= _ <-]].
  destruct (st1 !! q) as [[c|]|] eqn:Hq.
  all: try (by intros [= _ <-]).
  all: destruct (is_dir (st1 !! parent q) && negb (bool_decide (q = []))) eqn:Hp;
    [|by intros [= _ <-]].
  all: apply andb_true_iff in Hp as [Hp Hne]; apply negb_true_iff in Hne;
    apply bool_decide_eq_false in Hne; intros [= _ <-].
  all: apply tree_insert; try done;
    [by destruct (st1 !! parent q) as [[?|]|]|right; by rewrite Hq].
Qed.

Lemma remove_key_tree (self : FS.t) (key : list str) (st st' : fs) r :
  tree st → FS.remove_key self key st = (r, st') → tree st'.
Proof.
  intros Htree.
  unfold FS.remove_key, FS._convert_key_to_filepath, lift, mbind at 1.
  destruct (_convert_key_to_filepath _ key) as [rel| |]; try (by intros [= _ <-]).
  unfold mbind at 1.
  destruct (os_path_exists _ st) as [[found| |] st1] eqn:Hex;
    apply exists_state in Hex as ->; try (by intros [= _ <-]).
  destruct found; [|by intros [= _ <-]].
  unfold mbind at 1. unfold os_remove, with_path, unsupported.
  destruct (resolve _) as [q|]; [|by intros [= _ <-]].
  destruct (st !! q) as [[c|]|] eqn:Hq; try (by intros [= _ <-]).
  apply (tree_delete_file _ _ _ Htree) in Hq.
  unfold mbind, FS.rrmdir, try_except, ret.
  destruct (FS.rrmdir_loop _ _ _ (delete q st)) as [[[]|e|] st2] eqn:Hloop;
    apply rrmdir_loop_tree in Hloop; try done; try (by intros [= _ <-]).
  by destruct e; intros [= _ <-].
Qed.

Lemma move_tree (self : FS.t) (source_key dest_key : list str) (st st' : fs) r :
  tree st → FS._move self source_key dest_key st = (r, st') → tree st'.
Proof.
  intros Htree.
  unfold FS._move, FS._convert_key_to_filepath, lift, mbind at 1.
  destruct (_convert_key_to_filepath _ source_key) as [srel| |];
    try (by intros [= _ <-]).
  unfold mbind at 1.
  destruct (_convert_key_to_filepath _ dest_key) as [drel| |];
    try (by intros [= _ <-]).
  destruct (os_path_split _) as [dest_dir dest_filename].
  unfold mbind at 1.
  destruct (os_path_exists _ st) as [[found| |] st1] eqn:Hex;
    apply exists_state in Hex as ->; try (by intros [= _ <-]).
  destruct found; [|by intros [= _ <-]].
  unfold mbind at 1.
  destruct (os_makedirs dest_dir st) as [[[]| |] st1] eqn:Hmk;
    apply makedirs_tree in Hmk; try done; try (by intros [= _ <-]).
  unfold mbind, ret.
  destruct (shutil_move _ _ st1) as [[[]| |] st2] eqn:Hmv;
    apply shutil_move_tree in Hmv; try done; by intros [= _ <-].
Qed.

(** Construction, [_set], [_move] and [remove_key] keep the tree
    well-formed, however they end: the root stays a directory and no entry
    is left without the directory it lies in. *)
Theorem backend_keeps_tree (st : fs) :
  tree st →
  (∀ sb rand base_directory root_directory a r st',
     FS.__init__ sb rand base_directory root_directory a st = (r, st') → tree st')
  ∧ (∀ self key value r st', FS._set self key value st = (r, st') → tree st')
  ∧ (∀ self source_key dest_key r st',
       FS._move self source_key dest_key st = (r, st') → tree st')
  ∧ (∀ self key r st', FS.remove_key self key st = (r, st') → tree st').
Proof.
  intros Htree. split; [|split; [|split]].
  - intros sb rand base_directory root_directory a r st'.
    unfold FS.__init__, lift, mbind at 1.
    destruct (__init__ sb rand a) as [b| |]; try (by intros [= _ <-]).
    assert (∀ full r' st1,
              (do! _ <- os_makedirs (os_path_dirname full);
               ret {| FS.base := b; FS.full_base_directory := full |}) st
              = (r', st1) → tree st1) as Hrest.
    { intros full r' st1. unfold mbind, ret.
      destruct (os_makedirs _ st) as [[[]| |] st2] eqn:Hmk;
        apply makedirs_tree in Hmk; try done; by intros [= _ <-]. }
    unfold mbind at 1.
    destruct (os_path_isabs base_directory); [apply Hrest|].
    destruct root_directory as [root|]; [|by intros [= _ <-]].
    destruct (negb (os_path_isabs root)); [by intros [= _ <-]|apply Hrest].
  - intros self key value r st'. by apply set_tree.
  - intros self source_key dest_key r st'. by apply move_tree.
  - intros self key r st'. by apply remove_key_tree.
Qed.

Lemma backend_keeps_tree_witness : tree emptied_store_fs.
Proof.
  assert (tree store_fs) as Htree.
  { unfold store_fs. repeat (apply tree_insert;
      [|discriminate|reflexivity|first [by left|by right]]).
    split; [reflexivity|]. intros q x Hq Hne.
    apply lookup_singleton_Some in Hq as [<- _]. done. }
  apply (proj2 (proj2 (proj2 (backend_keeps_tree store_fs Htree)))
           store_backend [L "a"; L "f"] (Ok true) emptied_store_fs).
  vm_cast_no_check (eq_refl (@Ok bool true, emptied_store_fs)).
Defined.

(** ** Reading what is not there *)

(** After [remove_key] returned [True] the key is gone: [_has_key] is
    [False] and [_get] raises [FileNotFoundError], or [NotADirectoryError]
    when a regular file is on the way. *)
Theorem remove_then_get (self : FS.t) (key : list str) (st st' : fs) :
  FS.remove_key self key st = (Ok true, st') →
  FS._has_key self key st' = (Ok false, st')
  ∧ ∃ e, FS._get self key st' = (Raise e, st')
         ∧ (e = FileNotFoundError ∨ e = NotADirectoryError).
Proof.
  intros Hremove.
  destruct (_convert_key_to_filepath (FS.base self) key) as [rel| |] eqn:Hrel.
  2,3: by unfold FS.remove_key, FS._convert_key_to_filepath, lift, mbind in Hremove;
       rewrite Hrel in Hremove.
  destruct (resolve (os_path_join2 (FS.full_base_directory self) rel))
    as [q0|] eqn:Hq0.
  2:{ unfold FS.remove_key, FS._convert_key_to_filepath, lift, mbind,
        os_path_exists, with_path in Hremove.
      by rewrite Hrel, Hq0 in Hremove. }
  destruct (remove_key_inv _ _ _ _ _ _ _ Hrel Hq0 Hremove)
    as (_ & _ & Hgone & _).
  destruct (Hgone eq_refl) as [_ Hnone].
  unfold FS._has_key, FS._get, FS._convert_key_to_filepath, lift, mbind.
  rewrite Hrel. unfold os_path_isfile, read_file, with_path.
  rewrite Hq0, Hnone. split; [done|].
  exists (missing st' q0). split; [done|].
  unfold missing. destruct (blocked st' q0); auto.
Qed.

Lemma remove_then_get_witness :
  FS._has_key store_backend [L "a"; L "f"] emptied_store_fs
  = (Ok false, emptied_store_fs)
  ∧ ∃ e, FS._get store_backend [L "a"; L "f"] emptied_store_fs
         = (Raise e, emptied_store_fs)
         ∧ (e = FileNotFoundError ∨ e = NotADirectoryError).
Proof.
  apply (remove_then_get store_backend [L "a"; L "f"] store_fs).
  vm_cast_no_check (eq_refl (@Ok bool true, emptied_store_fs)).
Defined.

(** ** Construction of the filesystem backend *)

Lemma makedirs_from_made (reached todo : list str) (st st1 : fs) :
  makedirs_from reached todo st = (Ok tt, st1) →
  todo ≠ [] → st1 !! (reached ++ todo) = Some Dir.
Proof.
  revert reached st. induction todo as [|name rest IH]; intros reached st; [done|].
  intros Hrun _. simpl in Hrun.
  replace (reached ++ name :: rest) with ((reached ++ [name]) ++ rest)
    by (by rewrite <- app_assoc).
  destruct (st !! (reached ++ [name])) as [[c|]|] eqn:Hd; [done| |].
  - destruct rest as [|name' rest'].
    + injection Hrun as <-. by rewrite app_nil_r.
    + by apply (IH _ st).
  - destruct rest as [|name' rest'].
    + injection Hrun as <-. rewrite app_nil_r. apply lookup_insert_eq.
    + by apply (IH _ (<[reached ++ [name] := Dir]> st)).
Qed.

(** A construction that succeeds leaves a backend whose full base
    directory is an absolute path, the base directory itself or its join
    with the root directory, and whose parent directory exists. *)
Theorem fs_init_base_directory (sb : StoreBackend) (rand : nat → nat)
    (base_directory : str) (root_directory : option str) (a : args)
    (self : FS.t) (st st' : fs) :
  st !! [] = Some Dir →
  FS.__init__ sb rand base_directory root_directory a st = (Ok self, st') →
  os_path_isabs (FS.full_base_directory self) = true
  ∧ FS.full_base_directory self
    = (if os_path_isabs base_directory then base_directory
       else os_path_join2 (default [] root_directory) base_directory)
  ∧ ∃ q, resolve (os_path_dirname (FS.full_base_directory self)) = Some q
         ∧ st' !! q = Some Dir.
Proof.
  intros Hroot. unfold FS.__init__, lift, mbind at 1.
  destruct (__init__ sb rand a) as [b| |]; try done.
  assert (∀ full,
            os_path_isabs full = true →
            (do! _ <- os_makedirs (os_path_dirname full);
             ret {| FS.base := b; FS.full_base_directory := full |}) st
            = (Ok self, st') →
            os_path_isabs (FS.full_base_directory self) = true
            ∧ FS.full_base_directory self = full
            ∧ ∃ q, resolve (os_path_dirname (FS.full_base_directory self)) = Some q
                   ∧ st' !! q = Some Dir) as Hrest.
  { intros full Habs. unfold mbind, ret, os_makedirs, with_path.
    destruct (resolve (os_path_dirname full)) as [q|] eqn:Hq; [|done].
    destruct (makedirs_from [] q st) as [[[]| |] st1] eqn:Hmk; try done.
    intros [= <- <-]. simpl. repeat split; try done.
    exists q. split; [done|].
    destruct (decide (q = [])) as [->|Hne].
    - apply makedirs_from_mono in Hmk as [Hkeep _]. by apply Hkeep.
    - by apply (makedirs_from_made [] q st). }
  unfold mbind at 1.
  destruct (os_path_isabs base_directory) eqn:Habs; [by apply Hrest|].
  destruct root_directory as [root|]; [|done].
  destruct (os_path_isabs root) eqn:Hrootabs; [|done]. simpl negb. cbv iota.
  intros Hinit. apply Hrest in Hinit; [done|].
  unfold os_path_join2.
  change (startswith base_directory [chr_slash])
    with (os_path_isabs base_directory). rewrite Habs.
  unfold os_path_isabs in *. destruct (_ || _); by apply startswith_app_l.
Qed.

Lemma fs_init_base_directory_witness :
  os_path_isabs (FS.full_base_directory store_backend) = true
  ∧ FS.full_base_directory store_backend
    = (if os_path_isabs (L "store") then L "store"
       else os_path_join2 (default [] (Some (L "/ge"))) (L "store"))
  ∧ ∃ q, resolve (os_path_dirname (FS.full_base_directory store_backend)) = Some q
         ∧ (<[ [L "ge"] := Dir ]> ({[ [] := Dir ]} : fs)) !! q = Some Dir.
Proof.
  apply (fs_init_base_directory spec_StoreBackend (λ n, n) (L "store")
           (Some (L "/ge")) (default_args None None None true) store_backend
           (<[ [L "ge"] := Dir ]> {[ [] := Dir ]})
           (<[ [L "ge"] := Dir ]> {[ [] := Dir ]})).
  - reflexivity.
  - vm_cast_no_check
      (eq_refl (Ok store_backend, (<[ [L "ge"] := Dir ]> {[ [] := Dir ]} : fs))).
Defined.


(** ** Moving a key *)

(** C8, as the code has it.  With valid keys, a move from a path where
    nothing exists returns [False] and leaves the filesystem as it is.
    When the base directory has no ".." component and both keys are
    encoded to paths made of proper names, a move of a regular file to
    another path that is not an existing directory and has no regular file
    among its ancestors returns the destination key; afterwards [_get] of
    the destination returns what [_get] of the source returned before the
    move, the text read from the content of the file, and the source key
    is gone. *)
Theorem filesystem_move (self : FS.t) (source_key dest_key : list str)
    (source_rel dest_rel : str) (qs : list str) (st : fs) :
  _convert_key_to_filepath (FS.base self) source_key = Ok source_rel →
  _convert_key_to_filepath (FS.base self) dest_key = Ok dest_rel →
  resolve (os_path_join2 (FS.full_base_directory self) source_rel) = Some qs →
  (st !! qs = None → FS._move self source_key dest_key st = (Ok None, st))
  ∧ (∀ b source_names dest_names content,
       L ".." ∉ split_on chr_slash (FS.full_base_directory self) →
       resolve (FS.full_base_directory self) = Some b →
       source_rel = join (L "/") source_names →
       dest_rel = join (L "/") dest_names →
       Forall (λ s, proper_name s = true) source_names → source_names ≠ [] →
       Forall (λ s, proper_name s = true) dest_names → dest_names ≠ [] →
       source_names ≠ dest_names →
       tree st →
       st !! (b ++ source_names) = Some (File content) →
       (∀ n, n < length (b ++ dest_names) →
          is_file (st !! take n (b ++ dest_names)) = false) →
       is_dir (st !! (b ++ dest_names)) = false →
       ∃ st', FS._move self source_key dest_key st = (Ok (Some dest_key), st')
              ∧ FS._get self source_key st = (read_text content, st)
              ∧ FS._get self dest_key st' = (read_text content, st')
              ∧ FS._has_key self source_key st' = (Ok false, st')).
Proof.
  intros Hsource Hdest Hqs.
  assert (∀ st', FS._move self source_key dest_key st' =
    (do! found <- os_path_exists (os_path_join2 (FS.full_base_directory self) source_rel);
     if found then
       do! _ <- os_makedirs (os_path_dirname
                  (os_path_join2 (FS.full_base_directory self) dest_rel));
       do! _ <- shutil_move
                  (os_path_join2 (FS.full_base_directory self) source_rel)
                  (os_path_join2 (FS.full_base_directory self) dest_rel);
       ret (Some dest_key)
     else ret None) st') as Hmove.
  { intros st'. unfold FS._move, FS._convert_key_to_filepath, lift, mbind at 1 2.
    rewrite Hsource. unfold mbind at 1. rewrite Hdest.
    unfold os_path_dirname.
    by destruct (os_path_split _) as [dest_dir dest_filename]. }
  split.
  - intros Hnone. rewrite Hmove.
    unfold mbind, os_path_exists, with_path. rewrite Hqs, Hnone.
    rewrite bool_decide_false; [done|]. by intros [? ?].
  - intros b source_names dest_names content _ Hbase Hsrel Hdrel Hs Hsne Hd Hdne
      Hdiff Htree Hfile Hfree Hnotdir.
    subst source_rel dest_rel.
    destruct (resolve_under _ _ _ Hbase Hs Hsne) as [Hqs' _].
    assert (qs = b ++ source_names) as -> by congruence.
    destruct (resolve_under _ _ _ Hbase Hd Hdne) as [Hqd Hdir].
    set (qd := b ++ dest_names) in *.
    assert (parent qd = b ++ removelast dest_names) as Hparent_eq.
    { unfold parent, qd. by rewrite removelast_app. }
    rewrite <- Hparent_eq in Hdir.
    assert (qd ≠ []) as Hne by (unfold qd; by destruct b, dest_names).
    assert (b ++ source_names ≠ qd) as Hneq.
    { unfold qd. intros Heq. by apply app_inv_head in Heq. }
    destruct Htree as [Hroot _].
    destruct (makedirs_from_spec [] (parent qd) st)
      as (st1 & Hmk & Hkeep & Hnew & Hmade).
    { intros n Hn. simpl. rewrite parent_take in *.
      rewrite length_take in Hn. rewrite take_take.
      replace (n `min` (length qd - 1)) with n by lia. apply Hfree. lia. }
    assert (st1 !! parent qd = Some Dir) as Hparent.
    { destruct (decide (parent qd = [])) as [->|Hp]; [by apply Hkeep|].
      by apply Hmade. }
    assert (is_dir (st1 !! qd) = false) as Hnotdir1.
    { destruct (st !! qd) as [x|] eqn:Hx.
      - rewrite (Hkeep _ _ Hx). by destruct x.
      - destruct (Hnew _ Hx) as [->|[_ (n & Hn & Heq)]]; [done|].
        exfalso. simpl in Heq. apply (f_equal length) in Heq.
        rewrite parent_take, !length_take in Heq, Hn.
        destruct qd; [done|]. simpl in *. lia. }
    exists (<[qd := File content]> (delete (b ++ source_names) st1)).
    split; [|split; [|split]].
    + rewrite Hmove. unfold mbind at 1. unfold os_path_exists, with_path.
      rewrite Hqs, Hfile. rewrite bool_decide_true by eauto.
      unfold mbind at 1. unfold os_makedirs, with_path. rewrite Hdir, Hmk.
      unfold mbind at 1. unfold shutil_move, mbind at 1.
      unfold os_path_isdir at 1, with_path. rewrite Hqd, Hnotdir1.
      unfold os_rename, with_path. rewrite Hqs, Hqd.
      rewrite (Hkeep _ _ Hfile). rewrite bool_decide_false by done.
      rewrite Hnotdir1, Hparent. simpl.
      rewrite bool_decide_false by done. done.
    + unfold FS._get, FS._convert_key_to_filepath, lift, mbind.
      rewrite Hsource. unfold read_file, with_path. by rewrite Hqs, Hfile.
    + unfold FS._get, FS._convert_key_to_filepath, lift, mbind.
      rewrite Hdest. unfold read_file, with_path. rewrite Hqd.
      by rewrite lookup_insert_eq.
    + unfold FS._has_key, FS._convert_key_to_filepath, lift, mbind.
      rewrite Hsource. unfold os_path_isfile, with_path. rewrite Hqs.
      rewrite lookup_insert_ne by done. by rewrite lookup_delete_eq.
Qed.

Lemma filesystem_move_witness :
  FS._move store_backend [L "x"] [L "y"] store_fs = (Ok None, store_fs)
  ∧ ∃ st', FS._move store_backend [L "a"; L "f"] [L "b"; L "g"] store_fs
           = (Ok (Some [L "b"; L "g"]), st')
           ∧ FS._get store_backend [L "a"; L "f"] store_fs
             = (read_text (L "v"), store_fs)
           ∧ FS._get store_backend [L "b"; L "g"] st' = (read_text (L "v"), st')
           ∧ FS._has_key store_backend [L "a"; L "f"] st' = (Ok false, st').
Proof.
  split.
  - apply (proj1 (filesystem_move store_backend [L "x"] [L "y"] (L "x") (L "y")
                    [L "ge"; L "store"; L "x"] store_fs eq_refl eq_refl eq_refl)).
    reflexivity.
  - apply (proj2 (filesystem_move store_backend [L "a"; L "f"] [L "b"; L "g"]
                    (L "a/f") (L "b/g") [L "ge"; L "store"; L "a"; L "f"] store_fs
                    eq_refl eq_refl eq_refl)
             [L "ge"; L "store"] [L "a"; L "f"] [L "b"; L "g"] (L "v")).
    + vm_compute. intros Hin.
      repeat (apply elem_of_cons in Hin as [Hin|Hin]; [discriminate|]).
      by apply elem_of_nil in Hin.
    + reflexivity.
    + reflexivity.
    + reflexivity.
    + by repeat constructor.
    + discriminate.
    + by repeat constructor.
    + discriminate.
    + discriminate.
    + unfold store_fs. repeat (apply tree_insert;
        [|discriminate|reflexivity|first [by left|by right]]).
      split; [reflexivity|]. intros q x Hq Hne.
      apply lookup_singleton_Some in Hq as [<- _]. done.
    + reflexivity.
    + intros n Hn. do 4 (destruct n as [|n]; [reflexivity|]). simpl in Hn. lia.
    + reflexivity.
Defined.

(** * Listing the keys of the filesystem backend *)

Lemma elem_of_children (st : fs) (d : list str) (name : str) :
  name ∈ children st d ↔ is_Some (st !! (d ++ [name])).
Proof.
  unfold children. rewrite list_elem_of_omap. split.
  - intros ([q x] & Hin & Hf). apply elem_of_map_to_list in Hin.
    destruct (decide (parent q = d)) as [Hp|Hp].
    + rewrite bool_decide_true in Hf by done.
      apply last_Some in Hf as [l' ->]. unfold parent in Hp.
      rewrite removelast_last in Hp. subst. by exists x.
    + by rewrite bool_decide_false in Hf.
  - intros [x Hx]. exists (d ++ [name], x). split.
    + by apply elem_of_map_to_list.
    + unfold parent. rewrite removelast_last, bool_decide_true by done.
      apply last_snoc.
Qed.

Lemma max_depth_le (st : fs) (q : list str) (x : node) :
  st !! q = Some x → length q ≤ max_depth st.
Proof.
  intros Hq. apply elem_of_map_to_list in Hq. unfold max_depth.
  induction (map_to_list st) as [|[q' x'] l IH]; [by apply elem_of_nil in Hq|].
  apply elem_of_cons in Hq as [Heq|Hin]; cbn.
  - inversion Heq. lia.
  - specialize (IH Hin). lia.
Qed.

Lemma collect_Ok {A B} (f : A → result (list B)) (l : list A) (ys : list B) :
  collect f l = Ok ys →
  ∀ y, y ∈ ys ↔ ∃ a x, a ∈ l ∧ f a = Ok x ∧ y ∈ x.
Proof.
  revert ys. induction l as [|a l IH]; intros ys H y; cbn in H.
  - inversion H. split; [by intros ?%elem_of_nil|].
    by intros (? & ? & ?%elem_of_nil & _).
  - destruct (f a) as [x| |] eqn:Hfa; cbn in H; try done.
    destruct (collect f l) as [xs| |] eqn:Hl; cbn in H; try done.
    inversion H. subst ys. rewrite elem_of_app, (IH xs eq_refl). split.
    + intros [Hy|(a' & x' & Ha' & Hf & Hy)].
      * exists a, x. split; [left|done].
      * exists a', x'. split; [by right|done].
    + intros (a' & x' & Ha' & Hf & Hy). apply elem_of_cons in Ha' as [->|Ha'].
      * left. congruence.
      * right. by exists a', x'.
Qed.

Lemma collect_not_Ok {A B} (f : A → result (list B)) (l : list A) :
  (∀ ys, collect f l ≠ Ok ys) →
  ∃ a, a ∈ l ∧ f a = collect f l ∧ ∀ x, f a ≠ Ok x.
Proof.
  induction l as [|a l IH]; intros H; cbn in *.
  - by destruct (H []).
  - destruct (f a) as [x| |] eqn:Hfa; cbn in *.
    + destruct (collect f l) as [xs| |] eqn:Hl; cbn in *.
      * by destruct (H (x ++ xs)).
      * destruct IH as (a' & Ha' & Hf & Hn); [done|].
        exists a'. split; [by right|done].
      * destruct IH as (a' & Ha' & Hf & Hn); [done|].
        exists a'. split; [by right|done].
    + exists a. split; [left|]. by rewrite Hfa.
    + exists a. split; [left|]. by rewrite Hfa.
Qed.

Lemma collect_total {A B} (f : A → result (list B)) (l : list A) :
  (∀ a, a ∈ l → ∃ x, f a = Ok x) → ∃ ys, collect f l = Ok ys.
Proof.
  intros H. destruct (collect f l) as [ys| |] eqn:Hl; [by exists ys| |].
  - destruct (collect_not_Ok f l) as (a & Ha & Hf & _); [by rewrite Hl|].
    destruct (H a Ha) as [x Hx]. congruence.
  - destruct (collect_not_Ok f l) as (a & Ha & Hf & _); [by rewrite Hl|].
    destruct (H a Ha) as [x Hx]. congruence.
Qed.

Lemma proper_name_intro (s : str) :
  s ≠ [] → s ≠ L "." → s ≠ L ".." → Forall (λ a, a ≠ chr_slash) s →
  proper_name s = true.
Proof.
  intros H1 H2 H3 H4. unfold proper_name.
  rewrite !andb_true_iff, !negb_true_iff, !bool_decide_eq_false.
  repeat split; try done. apply forallb_forall. intros a Ha.
  apply list_elem_of_In in Ha. rewrite Forall_forall in H4.
  apply negb_true_iff, bool_decide_eq_false. by apply H4.
Qed.

Lemma split_on_slash_free (c : ascii) (s : str) :
  Forall (Forall (λ a, a ≠ c)) (split_on c s).
Proof.
  induction s as [|a s IH]; simpl.
  - by repeat constructor.
  - destruct (decide (a = c)) as [Heq|Hne].
    + rewrite bool_decide_true by done. by constructor.
    + rewrite bool_decide_false by done.
      destruct (split_on c s) as [|w ws]; [by repeat constructor|].
      inversion IH; subst. constructor; [by constructor|done].
Qed.

Lemma normpath_comps_names (acc comps : list str) :
  Forall (λ s, proper_name s = true) acc →
  Forall (Forall (λ a, a ≠ chr_slash)) comps →
  Forall (λ s, proper_name s = true) (normpath_comps true acc comps).
Proof.
  intros Hacc Hcomps. revert acc Hacc.
  induction Hcomps as [|w comps Hw Hcomps IH]; intros acc Hacc; simpl; [done|].
  destruct (decide (w = [])) as [->|Hne]; [by apply IH|].
  rewrite (bool_decide_false (w = [])) by done.
  destruct (decide (w = L ".")) as [->|Hdot]; [by apply IH|].
  rewrite (bool_decide_false (w = L ".")) by done.
  change ["."%char; "."%char] with (L "..").
  destruct (decide (w = L "..")) as [->|Hdd].
  - assert (bool_decide (last acc = Some (L "..")) = false) as ->.
    { apply bool_decide_eq_false. intros Hl. apply last_Some in Hl as [l' ->].
      apply Forall_app in Hacc as [_ Hacc]. by inversion Hacc. }
    cbn. apply IH. rewrite removelast_firstn_len. by apply Forall_take.
  - rewrite (bool_decide_false (w = L "..")) by done. cbn. apply IH.
    apply Forall_app. split; [done|]. constructor; [|done].
    by apply proper_name_intro.
Qed.

Lemma resolve_proper (p : str) (q : list str) :
  resolve p = Some q → Forall (λ s, proper_name s = true) q.
Proof.
  unfold resolve. destruct (startswith p (L "/")); [|done].
  intros [= <-]. apply normpath_comps_names; [done|apply split_on_slash_free].
Qed.

Lemma resolve_absolute (p : str) (q : list str) :
  resolve p = Some q → startswith p (L "/") = true.
Proof. unfold resolve. by destruct (startswith p (L "/")). Qed.

Lemma tree_ancestors (st : fs) (d rest : list str) (x : node) :
  tree st → st !! (d ++ rest) = Some x → rest ≠ [] → st !! d = Some Dir.
Proof.
  intros [_ Htree]. revert x.
  induction rest as [|name rest IH] using rev_ind; [done|]. intros x Hx _.
  assert (st !! (d ++ rest) = Some Dir) as Hparent.
  { specialize (Htree (d ++ rest ++ [name]) x Hx).
    unfold parent in Htree. rewrite app_assoc, removelast_last in Htree.
    apply Htree. by destruct (d ++ rest). }
  destruct rest as [|name' rest']; [by rewrite app_nil_r in Hparent|].
  by apply (IH Dir).
Qed.

Lemma resolve_child (top : str) (q : list str) (name : str) :
  resolve top = Some q → proper_name name = true →
  resolve (os_path_join2 top name) = Some (q ++ [name])
  ∧ os_path_split (os_path_join2 top name)
    = (os_path_dirname (os_path_join2 top name), name)
  ∧ resolve (os_path_dirname (os_path_join2 top name)) = Some q.
Proof.
  intros Htop Hname.
  destruct (resolve_under top q [name] Htop) as [H1 H2]; [by constructor|done|].
  cbn in H1, H2. rewrite app_nil_r in H2. split; [done|]. split; [|done].
  unfold os_path_dirname. destruct (os_path_split _) as [h t] eqn:Hsplit.
  cbn. f_equal.
  apply proper_name_spec in Hname as (Hne & _ & _ & Hfree).
  destruct (join2_under top name) as (x & Hx & _).
  { by apply (resolve_absolute _ q). }
  { destruct name as [|a name]; [done|]. cbn. inversion Hfree; subst.
    by rewrite bool_decide_false. }
  rewrite Hx in Hsplit. unfold os_path_split in Hsplit.
  rewrite cut_last_slash_app in Hsplit by done. by inversion Hsplit.
Qed.

Lemma elem_of_filter_bool {A} (f : A → bool) (l : list A) (a : A) :
  a ∈ List.filter f l ↔ a ∈ l ∧ f a = true.
Proof. by rewrite !list_elem_of_In, filter_In. Qed.

(** The walk visits exactly the directories below [top], and files them
    with their regular files. *)
Lemma walk_from_spec (st : fs) (fuel : nat) (top : str) (d : list str) :
  tree st → proper_names st →
  resolve top = Some d →
  1 ≤ fuel → max_depth st < fuel + length d →
  ∃ triples, walk_from st fuel top = Ok triples
    ∧ (∀ root dirs files name,
         (root, dirs, files) ∈ triples → name ∈ files →
         ∃ r c, resolve root = Some (d ++ r)
                ∧ st !! (d ++ r ++ [name]) = Some (File c))
    ∧ (∀ r name c,
         st !! (d ++ r ++ [name]) = Some (File c) →
         ∃ root dirs files,
           (root, dirs, files) ∈ triples ∧ name ∈ files
           ∧ resolve root = Some (d ++ r)).
Proof.
  intros Htree Hnames. revert top d.
  induction fuel as [|fuel IH]; intros top d Htop Hfuel Hdepth; [lia|].
  simpl. rewrite Htop.
  destruct (is_dir (st !! d)) eqn:Hd.
  - set (dirs := List.filter (λ name, is_dir (st !! (d ++ [name]))) (children st d)).
    set (nondirs := List.filter (λ name, negb (is_dir (st !! (d ++ [name]))))
                      (children st d)).
    assert (∀ name, name ∈ dirs →
              resolve (os_path_join2 top name) = Some (d ++ [name])
              ∧ 1 ≤ fuel ∧ max_depth st < fuel + length (d ++ [name])) as Hdirs.
    { intros name [Hin Hdir]%elem_of_filter_bool.
      destruct (st !! (d ++ [name])) as [x|] eqn:Hx; [|done].
      pose proof (max_depth_le _ _ _ Hx) as Hle.
      rewrite length_app in *. cbn in *.
      split; [|lia]. apply resolve_child; [done|].
      specialize (Hnames _ _ Hx). apply Forall_app in Hnames as [_ Hn].
      by inversion Hn. }
    destruct (collect_total (walk_from st fuel) (map (os_path_join2 top) dirs))
      as [below Hbelow].
    { intros a (name & -> & Hin)%list_elem_of_fmap.
      destruct (Hdirs name Hin) as (Hr & Hf & Hdp).
      destruct (IH _ _ Hr Hf Hdp) as (x & Hx & _). by exists x. }
    rewrite Hbelow. cbn. eexists. split; [done|].
    pose proof (collect_Ok _ _ _ Hbelow) as Hin_below. split.
    + intros root ds files name Hin Hname.
      apply elem_of_cons in Hin as [Heq|Hin].
      * inversion Heq; subst. exists [].
        apply elem_of_filter_bool in Hname as [Hin Hnd].
        apply elem_of_children in Hin as [x Hx]. rewrite Hx in Hnd.
        destruct x as [c|]; [|done]. exists c. by rewrite app_nil_r.
      * apply Hin_below in Hin as (a & x & Ha & Hwalk & Hin).
        apply list_elem_of_fmap in Ha as (n & -> & Hn).
        destruct (Hdirs n Hn) as (Hr & Hf & Hdp).
        destruct (IH _ _ Hr Hf Hdp) as (x' & Hx' & Hsound & _).
        assert (x' = x) as -> by congruence.
        destruct (Hsound _ _ _ _ Hin Hname) as (r & c & Hroot & Hfile).
        exists (n :: r), c. by rewrite <- !app_assoc in *.
    + intros r name c Hfile. destruct r as [|n r].
      * exists top, dirs, nondirs. cbn in Hfile. rewrite app_nil_r.
        split; [left|]. split; [|done].
        apply elem_of_filter_bool. split.
        -- apply elem_of_children. by exists (File c).
        -- by rewrite Hfile.
      * assert (st !! (d ++ [n]) = Some Dir) as Hn.
        { apply (tree_ancestors st _ (r ++ [name]) (File c)); [done| |].
          - by rewrite <- app_assoc.
          - by destruct r. }
        assert (n ∈ dirs) as Hin.
        { apply elem_of_filter_bool. split.
          - apply elem_of_children. by exists Dir.
          - by rewrite Hn. }
        destruct (Hdirs n Hin) as (Hr & Hf & Hdp).
        destruct (IH _ _ Hr Hf Hdp) as (x & Hx & _ & Hcomplete).
        destruct (Hcomplete r name c) as (root & ds & files & Hin' & Hname & Hroot).
        { by rewrite <- app_assoc. }
        exists root, ds, files. split; [|split; [done|]].
        -- right. apply Hin_below. exists (os_path_join2 top n), x.
           split; [|done]. apply list_elem_of_fmap. by exists n.
        -- by rewrite <- app_assoc in Hroot.
  - exists []. split; [done|]. split.
    + by intros ? ? ? ? ?%elem_of_nil.
    + intros r name c Hfile.
      assert (st !! d = Some Dir) as Hdir.
      { apply (tree_ancestors st _ (r ++ [name]) (File c)); [done|done|].
        by destruct r. }
      by rewrite Hdir in Hd.
Qed.

Lemma commonprefix_app (b r : list str) : commonprefix b (b ++ r) = b.
Proof.
  induction b as [|a b IH]; simpl; [done|].
  by rewrite bool_decide_true, IH.
Qed.

Lemma join2_name (cs : list str) (name : str) :
  Forall (λ s, proper_name s = true) cs → cs ≠ [] →
  proper_name name = true →
  os_path_join2 (join (L "/") cs) name = join (L "/") (cs ++ [name]).
Proof.
  intros Hcs Hne Hname. rewrite join_snoc by done.
  destruct (last_join cs Hcs Hne) as (a & Hlast & Ha).
  apply proper_name_spec in Hname as (Hn & _ & _ & Hfree).
  unfold os_path_join2.
  assert (startswith name [chr_slash] = false) as ->.
  { destruct name as [|c name]; [done|]. inversion Hfree; subst.
    cbn. by rewrite bool_decide_false. }
  rewrite (endswith_last _ a) by done.
  rewrite bool_decide_false; [done|]. intros Heq. by rewrite Heq in Hlast.
Qed.

Lemma foldl_join2 (cs rest : list str) :
  Forall (λ s, proper_name s = true) (cs ++ rest) → cs ≠ [] →
  foldl os_path_join2 (join (L "/") cs) rest = join (L "/") (cs ++ rest).
Proof.
  revert cs. induction rest as [|name rest IH]; intros cs Hall Hne; simpl.
  - by rewrite app_nil_r.
  - apply Forall_app in Hall as Hall'. destruct Hall' as [Hcs Hrest].
    inversion Hrest; subst.
    rewrite join2_name by done. rewrite IH.
    + by rewrite <- app_assoc.
    + by rewrite <- app_assoc.
    + by destruct cs.
Qed.

Lemma relpath_below (path start : str) (b r : list str) :
  resolve start = Some b → resolve path = Some (b ++ r) →
  os_path_relpath path start
  = Ok (match r with [] => L "." | _ => join (L "/") r end).
Proof.
  intros Hstart Hpath. unfold os_path_relpath.
  rewrite bool_decide_false.
  2:{ intros ->. by apply resolve_absolute in Hpath. }
  rewrite Hstart, Hpath, commonprefix_app, Nat.sub_diag, drop_app_length.
  cbn [replicate app]. destruct r as [|n r]; [done|].
  apply resolve_proper, Forall_app in Hpath as [_ Hr].
  cbn [os_path_join]. change n with (join (L "/") [n]) at 1.
  by rewrite foldl_join2.
Qed.

Lemma join_not_dot (n : str) (r : list str) :
  proper_name n = true → join (L "/") (n :: r) ≠ L ".".
Proof.
  intros (Hn & Hdot & _)%proper_name_spec. destruct r as [|n' r]; [done|].
  change (join (L "/") (n :: n' :: r))
    with (n ++ chr_slash :: join (L "/") (n' :: r)).
  destruct n as [|a [|a' n]]; done.
Qed.

Lemma list_keys_file_spec (self : FS.t) (is_ignored_key : slots → bool)
    (root : str) (b r : list str) (name : str) :
  resolve (FS.full_base_directory self) = Some b →
  resolve root = Some (b ++ r) →
  proper_name name = true →
  FS.list_keys_file self is_ignored_key root name
  = FS.list_keys_path self is_ignored_key (join (L "/") (r ++ [name])).
Proof.
  intros Hbase Hroot Hname. unfold FS.list_keys_file.
  destruct (resolve_child _ _ _ Hroot Hname) as (_ & -> & Hdir).
  rewrite (relpath_below _ _ b r) by done. cbn [bind].
  destruct r as [|n r]; [by rewrite bool_decide_true|].
  apply resolve_proper, Forall_app in Hroot as [_ Hr].
  rewrite bool_decide_false.
  2:{ apply join_not_dot. by inversion Hr. }
  by rewrite join2_name.
Qed.

Lemma collect_Ok_each {A B} (f : A → result (list B)) (l : list A) (ys : list B) :
  collect f l = Ok ys → ∀ a, a ∈ l → ∃ x, f a = Ok x.
Proof.
  revert ys. induction l as [|a l IH]; intros ys H a' Ha'; cbn in H.
  - by apply elem_of_nil in Ha'.
  - destruct (f a) as [x| |] eqn:Hfa; cbn in H; try done.
    destruct (collect f l) as [xs| |] eqn:Hl; cbn in H; try done.
    apply elem_of_cons in Ha' as [->|Ha']; [by exists x|].
    by apply (IH xs).
Qed.

(** What the file at [filepath] adds to the list. *)
Lemma list_keys_path_Ok (self : FS.t) (is_ignored_key : slots → bool)
    (filepath : str) (x : list slots) (k : slots) :
  FS.list_keys_path self is_ignored_key filepath = Ok x →
  k ∈ x ↔
    selected (FS.base self) filepath = true
    ∧ _convert_filepath_to_key (FS.base self) filepath = Ok (Some k)
    ∧ k ≠ [] ∧ is_ignored_key k = false.
Proof.
  unfold FS.list_keys_path, selected. cbv zeta.
  destruct (truthy (filepath_prefix (FS.base self)) && _).
  { intros [= <-]. split; [by intros ?%elem_of_nil|by intros [? _]]. }
  destruct (truthy (filepath_suffix (FS.base self)) && _).
  { intros [= <-]. split; [by intros ?%elem_of_nil|by intros [? _]]. }
  destruct (_convert_filepath_to_key _ _) as [[[|key_element key']|]| |];
    cbn [bind]; try done.
  - intros [= <-]. split; [by intros ?%elem_of_nil|].
    by intros (_ & [= <-] & ? & _).
  - destruct (is_ignored_key (key_element :: key')) eqn:Hign; intros [= <-].
    + split; [by intros ?%elem_of_nil|]. intros (_ & [= <-] & _ & ?). congruence.
    + rewrite list_elem_of_singleton. split; [by intros ->|].
      by intros (_ & [= <-] & _).
  - intros [= <-]. split; [by intros ?%elem_of_nil|]. by intros (_ & ? & _).
Qed.

Lemma list_keys_path_not_Ok (self : FS.t) (is_ignored_key : slots → bool)
    (filepath : str) :
  (∀ x, FS.list_keys_path self is_ignored_key filepath ≠ Ok x) →
  selected (FS.base self) filepath = true
  ∧ ((∃ e, FS.list_keys_path self is_ignored_key filepath = Raise e
           ∧ _convert_filepath_to_key (FS.base self) filepath = Raise e)
     ∨ (FS.list_keys_path self is_ignored_key filepath = Unsupported
        ∧ _convert_filepath_to_key (FS.base self) filepath = Unsupported)).
Proof.
  unfold FS.list_keys_path, selected. cbv zeta.
  destruct (truthy (filepath_prefix (FS.base self)) && _).
  { intros H. by destruct (H []). }
  destruct (truthy (filepath_suffix (FS.base self)) && _).
  { intros H. by destruct (H []). }
  destruct (_convert_filepath_to_key _ _) as [[[|key_element key']|]| |];
    cbn [bind]; intros H.
  - by destruct (H []).
  - destruct (is_ignored_key (key_element :: key')).
    + by destruct (H []).
    + by destruct (H [key_element :: key']).
  - by destruct (H []).
  - split; [done|]. left. by exists e.
  - split; [done|]. by right.
Qed.

Lemma file_below_snoc (st : fs) (b q : list str) :
  file_below st b q ↔
  ∃ r name c, q = r ++ [name] ∧ st !! (b ++ r ++ [name]) = Some (File c).
Proof.
  split.
  - intros [Hne [c Hc]]. destruct q as [|name q _] using rev_ind; [done|].
    by exists q, name, c.
  - intros (r & name & c & -> & Hc). split; [by destruct r|by exists c].
Qed.

Lemma resolve_foldl_join2 (top : str) (d names : list str) :
  resolve top = Some d → Forall (λ s, proper_name s = true) names →
  resolve (foldl os_path_join2 top names) = Some (d ++ names).
Proof.
  intros Htop Hnames. revert top d Htop.
  induction Hnames as [|name names Hname Hnames IH]; intros top d Htop; cbn.
  - by rewrite app_nil_r.
  - rewrite (IH _ (d ++ [name])); [by rewrite <- app_assoc|].
    by apply resolve_child.
Qed.

(** The outcome of [list_keys(prefix)], file by file. *)
Lemma list_keys_prefix_outcome (self : FS.t) (is_ignored_key : slots → bool)
    (prefix : list str) (st : fs) (b : list str) :
  tree st → proper_names st →
  resolve (FS.full_base_directory self) = Some b →
  Forall (λ s, proper_name s = true) prefix →
  ∃ r, FS.list_keys self is_ignored_key prefix st = (r, st)
    ∧ (∀ l, r = Ok l →
         (∀ q, file_below st (b ++ prefix) q →
            ∃ x, FS.list_keys_path self is_ignored_key
                   (join (L "/") (prefix ++ q)) = Ok x)
         ∧ ∀ k, k ∈ l ↔
             ∃ q x, file_below st (b ++ prefix) q
                    ∧ FS.list_keys_path self is_ignored_key
                        (join (L "/") (prefix ++ q)) = Ok x
                    ∧ k ∈ x)
    ∧ ((∀ l, r ≠ Ok l) →
         ∃ q, file_below st (b ++ prefix) q
              ∧ FS.list_keys_path self is_ignored_key
                  (join (L "/") (prefix ++ q)) = r).
Proof.
  intros Htree Hnames Hbase Hprefix.
  pose proof (resolve_foldl_join2 _ _ _ Hbase Hprefix) as Htop.
  destruct (walk_from_spec st (S (max_depth st))
              (foldl os_path_join2 (FS.full_base_directory self) prefix)
              (b ++ prefix))
    as (triples & Hwalk & Hsound & Hcomplete); [done|done|done|lia|lia|].
  assert (∀ root r name c,
            resolve root = Some ((b ++ prefix) ++ r) →
            st !! ((b ++ prefix) ++ r ++ [name]) = Some (File c) →
            FS.list_keys_file self is_ignored_key root name
            = FS.list_keys_path self is_ignored_key
                (join (L "/") (prefix ++ r ++ [name]))) as Hpath.
  { intros root r name c Hroot Hc. rewrite (app_assoc prefix).
    apply (list_keys_file_spec _ _ _ b); [done|by rewrite app_assoc|].
    specialize (Hnames _ _ Hc). rewrite app_assoc in Hnames.
    apply Forall_app in Hnames as [_ Hn]. by inversion Hn. }
  assert (∀ root dirs files name,
            (root, dirs, files) ∈ triples → name ∈ files →
            ∃ r, file_below st (b ++ prefix) (r ++ [name])
                 ∧ FS.list_keys_file self is_ignored_key root name
                   = FS.list_keys_path self is_ignored_key
                       (join (L "/") (prefix ++ r ++ [name]))) as Hfile.
  { intros root dirs files name Hin Hname.
    destruct (Hsound _ _ _ _ Hin Hname) as (r & c & Hroot & Hc).
    exists r. split.
    - apply file_below_snoc. by exists r, name, c.
    - by apply (Hpath _ _ _ c). }
  unfold FS.list_keys, mbind, os_walk, lift. rewrite Hwalk.
  eexists. split; [done|]. split.
  - intros l Hl. pose proof (collect_Ok _ _ _ Hl) as Hmem.
    pose proof (collect_Ok_each _ _ _ Hl) as Heach.
    assert (∀ q, file_below st (b ++ prefix) q →
              ∃ root dirs files name y x,
                (root, dirs, files) ∈ triples ∧ name ∈ files
                ∧ collect (FS.list_keys_file self is_ignored_key root) files = Ok y
                ∧ FS.list_keys_file self is_ignored_key root name = Ok x
                ∧ FS.list_keys_path self is_ignored_key
                    (join (L "/") (prefix ++ q)) = Ok x)
      as Hlisted.
    { intros q (r & name & c & -> & Hc)%file_below_snoc.
      destruct (Hcomplete _ _ _ Hc) as (root & dirs & files & Hin & Hname & Hroot).
      destruct (Heach _ Hin) as [y Hy]. cbn beta iota in Hy.
      destruct (collect_Ok_each _ _ _ Hy _ Hname) as [x Hx].
      exists root, dirs, files, name, y, x. repeat split; try done.
      rewrite <- Hx. symmetry. by apply (Hpath _ _ _ c). }
    split.
    + intros q Hq.
      destruct (Hlisted q Hq) as (? & ? & ? & ? & ? & x & _ & _ & _ & _ & Hx).
      by exists x.
    + intros k. rewrite Hmem. split.
      * intros ([[root dirs] files] & y & Hin & Hy & Hk).
        apply (collect_Ok _ _ _ Hy) in Hk as (name & x & Hname & Hx & Hk).
        destruct (Hfile _ _ _ _ Hin Hname) as (r & Hbelow & Heq).
        exists (r ++ [name]), x. by rewrite <- Heq.
      * intros (q & x & Hq & Hx & Hk).
        destruct (Hlisted q Hq)
          as (root & dirs & files & name & y & x' & Hin & Hname & Hy & Hx' & Hp).
        assert (x' = x) as -> by congruence.
        exists (root, dirs, files), y. split; [done|]. split; [done|].
        apply (collect_Ok _ _ _ Hy). by exists name, x.
  - intros Hr. apply collect_not_Ok in Hr as ([[root dirs] files] & Hin & Heq & Hn).
    rewrite <- Heq. cbn beta iota in *.
    apply collect_not_Ok in Hn as (name & Hname & Heq' & _).
    destruct (Hfile _ _ _ _ Hin Hname) as (r & Hbelow & Hp).
    exists (r ++ [name]). split; [done|]. by rewrite <- Hp.
Qed.

(** The outcome of [list_keys()], file by file. *)
Lemma list_keys_outcome (self : FS.t) (is_ignored_key : slots → bool)
    (st : fs) (b : list str) :
  tree st → proper_names st →
  resolve (FS.full_base_directory self) = Some b →
  ∃ r, FS.list_keys self is_ignored_key [] st = (r, st)
    ∧ (∀ l, r = Ok l →
         (∀ q, file_below st b q →
            ∃ x, FS.list_keys_path self is_ignored_key (join (L "/") q) = Ok x)
         ∧ ∀ k, k ∈ l ↔
             ∃ q x, file_below st b q
                    ∧ FS.list_keys_path self is_ignored_key (join (L "/") q) = Ok x
                    ∧ k ∈ x)
    ∧ ((∀ l, r ≠ Ok l) →
         ∃ q, file_below st b q
              ∧ FS.list_keys_path self is_ignored_key (join (L "/") q) = r).
Proof.
  intros Htree Hnames Hbase.
  pose proof (list_keys_prefix_outcome self is_ignored_key [] st b
                Htree Hnames Hbase (Forall_nil_2 _)) as H.
  by rewrite app_nil_r in H.
Qed.

Lemma store_fs_tree : tree store_fs.
Proof.
  unfold store_fs. repeat (apply tree_insert;
    [|discriminate|reflexivity|first [by left|by right]]).
  split; [reflexivity|]. intros q x Hq Hne.
  apply lookup_singleton_Some in Hq as [<- _]. done.
Qed.

Lemma store_fs_proper_names : proper_names store_fs.
Proof.
  intros q x Hq. unfold store_fs in Hq.
  repeat (apply lookup_insert_Some in Hq as [[<- _]|[_ Hq]];
          [by repeat constructor|]).
  apply lookup_singleton_Some in Hq as [<- _]. constructor.
Qed.

(** ** What [list_keys] returns *)



Lemma decode_plain (self : t) (q : list str) :
  plain self → Forall (λ s, proper_name s = true) q → q ≠ [] →
  selected self (join (L "/") q) = true
  ∧ _convert_filepath_to_key self (join (L "/") q) = Ok (Some (Some <$> q)).
Proof.
  intros (Ht & Hp & Hs) Hq Hne. unfold selected. rewrite Hp, Hs. split; [done|].
  unfold _convert_filepath_to_key, strip_prefix, decode_stripped, strip_suffix.
  rewrite Hp, Hs, Ht.
  assert ((if platform_specific_separator self
           then os_path_normpath (join (L "/") q) else join (L "/") q)
          = join (L "/") q) as ->.
  { destruct (platform_specific_separator self); [|done]. by apply normpath_join. }
  cbn [bind]. by rewrite normpath_join, split_join.
Qed.

(** The list of a backend without template, prefix and suffix. *)
Lemma list_keys_plain_spec (self : FS.t) (is_ignored_key : slots → bool)
    (st : fs) (b : list str) :
  plain (FS.base self) → tree st → proper_names st →
  resolve (FS.full_base_directory self) = Some b →
  ∃ l, FS.list_keys self is_ignored_key [] st = (Ok l, st)
    ∧ ∀ k, k ∈ l ↔
        ∃ q, file_below st b q ∧ k = Some <$> q ∧ is_ignored_key k = false.
Proof.
  intros Hplain Htree Hnames Hbase.
  assert (∀ q, file_below st b q →
            selected (FS.base self) (join (L "/") q) = true
            ∧ _convert_filepath_to_key (FS.base self) (join (L "/") q)
              = Ok (Some (Some <$> q))) as Hdecode.
  { intros q [Hne [c Hc]]. apply decode_plain; [done| |done].
    specialize (Hnames _ _ Hc). by apply Forall_app in Hnames as [_ ?]. }
  destruct (list_keys_outcome self is_ignored_key st b Htree Hnames Hbase)
    as (r & Hrun & Hok & Hnot).
  destruct r as [l|e|].
  - exists l. split; [done|]. intros k.
    destruct (Hok l eq_refl) as [Heach Hmem]. rewrite Hmem. split.
    + intros (q & x & Hq & Hx & Hk). exists q. split; [done|].
      apply (list_keys_path_Ok _ _ _ _ _ Hx) in Hk as (_ & Hdec & _ & Hign).
      destruct (Hdecode q Hq) as [_ Hdec']. split; [congruence|done].
    + intros (q & Hq & -> & Hign). destruct (Heach q Hq) as [x Hx].
      exists q, x. split; [done|]. split; [done|].
      apply (list_keys_path_Ok _ _ _ _ _ Hx).
      destruct (Hdecode q Hq) as [Hsel Hdec]. repeat split; try done.
      destruct Hq as [Hne _]. by destruct q.
  - destruct Hnot as (q & Hq & Hpath); [done|].
    destruct (list_keys_path_not_Ok self is_ignored_key (join (L "/") q))
      as [_ [(e' & _ & Hdec)|[_ Hdec]]]; [by rewrite Hpath| |];
      destruct (Hdecode q Hq) as [_ Hdec']; congruence.
  - destruct Hnot as (q & Hq & Hpath); [done|].
    destruct (list_keys_path_not_Ok self is_ignored_key (join (L "/") q))
      as [_ [(e' & _ & Hdec)|[_ Hdec]]]; [by rewrite Hpath| |];
      destruct (Hdecode q Hq) as [_ Hdec']; congruence.
Qed.

Lemma encode_plain (self : t) (key : list str) (rel : str) :
  plain self → Forall (λ s, proper_name s = true) key → key ≠ [] →
  _convert_key_to_filepath self key = Ok rel →
  rel = join (L "/") key ∧ _validate_key self key = Ok tt.
Proof.
  intros (Ht & Hp & Hs) Hkey Hne. unfold _convert_key_to_filepath.
  destruct (_validate_key self key) as [[]| |]; cbn [bind]; try done.
  rewrite Ht, Hp, Hs. cbn [bind].
  destruct (platform_specific_separator self); intros [= <-]; [|done].
  by rewrite normpath_join.
Qed.

Lemma encode_plain_Ok (self : t) (key : list str) :
  plain self → Forall (λ s, proper_name s = true) key → key ≠ [] →
  _validate_key self key = Ok tt →
  _convert_key_to_filepath self key = Ok (join (L "/") key).
Proof.
  intros (Ht & Hp & Hs) Hkey Hne Hvalid. unfold _convert_key_to_filepath.
  rewrite Hvalid, Ht, Hp, Hs. cbn [bind].
  destruct (platform_specific_separator self); [|done].
  by rewrite normpath_join.
Qed.

(** ** [list_keys] and [_has_key] *)

(** For a backend without template, prefix and suffix, on a well-formed
    tree, [list_keys()] returns, and agrees with [_has_key]: every key
    listed is made of proper names, and a valid key of proper names is
    listed exactly when [_has_key] is true for it and it is not ignored. *)
Theorem list_keys_agrees_with_has_key (self : FS.t)
    (is_ignored_key : slots → bool) (st : fs) (b : list str) :
  plain (FS.base self) → tree st → proper_names st →
  resolve (FS.full_base_directory self) = Some b →
  ∃ l, FS.list_keys self is_ignored_key [] st = (Ok l, st)
    ∧ (∀ k, k ∈ l →
         ∃ key, k = Some <$> key ∧ key ≠ []
                ∧ Forall (λ s, proper_name s = true) key)
    ∧ (∀ key, key ≠ [] → Forall (λ s, proper_name s = true) key →
         _validate_key (FS.base self) key = Ok tt →
         Some <$> key ∈ l ↔
           FS._has_key self key st = (Ok true, st)
           ∧ is_ignored_key (Some <$> key) = false).
Proof.
  intros Hplain Htree Hnames Hbase.
  destruct (list_keys_plain_spec self is_ignored_key st b Hplain Htree Hnames Hbase)
    as (l & Hrun & Hmem).
  exists l. split; [done|]. split.
  - intros k (q & [Hne [c Hc]] & -> & _)%Hmem. exists q. repeat split; try done.
    specialize (Hnames _ _ Hc). by apply Forall_app in Hnames as [_ ?].
  - intros key Hne Hkey Hvalid.
    assert (FS._has_key self key st = (Ok (is_file (st !! (b ++ key))), st))
      as ->.
    { unfold FS._has_key, FS._convert_key_to_filepath, lift, mbind.
      rewrite (encode_plain_Ok _ key) by done.
      unfold os_path_isfile, with_path.
      by destruct (resolve_under _ _ _ Hbase Hkey Hne) as [-> _]. }
    rewrite Hmem. split.
    + intros (q & [_ [c Hc]] & Heq & Hign).
      apply (inj (fmap Some)) in Heq as <-. by rewrite Hc.
    + intros [[= Hfile] Hign]. exists key. repeat split; try done.
      destruct (st !! (b ++ key)) as [[c|]|]; try done. by exists c.
Qed.

Lemma store_backend_plain : plain (FS.base store_backend).
Proof. by repeat split. Qed.

Lemma list_keys_agrees_with_has_key_witness :
  ∃ l, FS.list_keys store_backend (λ _, false) [] store_fs = (Ok l, store_fs)
    ∧ (∀ k, k ∈ l →
         ∃ key, k = Some <$> key ∧ key ≠ []
                ∧ Forall (λ s, proper_name s = true) key)
    ∧ (∀ key, key ≠ [] → Forall (λ s, proper_name s = true) key →
         _validate_key (FS.base store_backend) key = Ok tt →
         Some <$> key ∈ l ↔
           FS._has_key store_backend key store_fs = (Ok true, store_fs)
           ∧ (λ _ : slots, false) (Some <$> key) = false).
Proof.
  apply (list_keys_agrees_with_has_key store_backend (λ _, false) store_fs
           [L "ge"; L "store"]).
  - apply store_backend_plain.
  - apply store_fs_tree.
  - apply store_fs_proper_names.
  - reflexivity.
Defined.

Lemma makedirs_from_names (reached todo : list str) (st st1 : fs) r :
  proper_names st → Forall (λ s, proper_name s = true) (reached ++ todo) →
  makedirs_from reached todo st = (r, st1) → proper_names st1.
Proof.
  revert reached st. induction todo as [|name rest IH]; intros reached st Hst Hall.
  - by intros [= _ <-].
  - simpl. replace (reached ++ name :: rest) with ((reached ++ [name]) ++ rest)
      in Hall by (by rewrite <- app_assoc).
    destruct (st !! (reached ++ [name])) as [[c|]|] eqn:Hd.
    + by intros [= _ <-].
    + by apply IH.
    + apply IH; [|done]. intros q x Hq.
      apply lookup_insert_Some in Hq as [[<- _]|[_ Hq]]; [|by apply (Hst q x)].
      by apply Forall_app in Hall as [? _].
Qed.



(** ** [list_keys] after [_set] and [remove_key] *)







(** ** The URL of a key *)

(** The URL of a key is the protocol, "file:" unless one is given,
    followed by "//" and by the very path [_set] writes the key's value
    to and returns; asking for it leaves the store as it is. *)
Theorem url_of_stored_key (self : FS.t) (key : list str) (value p : str)
    (protocol : option str) (st st' st'' : fs) :
  FS._set self key value st = (Ok p, st') →
  FS.get_url_for_key self key protocol st''
  = (Ok (default (L "file:") protocol ++ L "//" ++ p), st'').
Proof.
  intros Hset.
  destruct (set_inv _ _ _ _ _ _ Hset) as (rel & q & st1 & Hrel & -> & _).
  unfold FS.get_url_for_key, FS._convert_key_to_filepath, lift, mbind, ret.
  by rewrite Hrel.
Qed.

Lemma url_of_stored_key_witness :
  FS.get_url_for_key store_backend [L "a"; L "f"] None store_fs
  = (Ok (default (L "file:") None ++ L "//" ++ L "/ge/store/a/f"), store_fs).
Proof.
  apply (url_of_stored_key store_backend [L "a"; L "f"] (L "v")
           (L "/ge/store/a/f") None emptied_store_fs store_fs store_fs).
  vm_cast_no_check (eq_refl (Ok (L "/ge/store/a/f"), store_fs)).
Defined.

(** ** [list_keys] after [_move] *)

Lemma move_unfold (self : FS.t) (source_key dest_key : list str)
    (source_rel dest_rel : str) (st : fs) :
  _convert_key_to_filepath (FS.base self) source_key = Ok source_rel →
  _convert_key_to_filepath (FS.base self) dest_key = Ok dest_rel →
  FS._move self source_key dest_key st
  = (do! found <- os_path_exists
                    (os_path_join2 (FS.full_base_directory self) source_rel);
     if found then
       do! _ <- os_makedirs (os_path_dirname
                  (os_path_join2 (FS.full_base_directory self) dest_rel));
       do! _ <- shutil_move
                  (os_path_join2 (FS.full_base_directory self) source_rel)
                  (os_path_join2 (FS.full_base_directory self) dest_rel);
       ret (Some dest_key)
     else ret None) st.
Proof.
  intros Hsource Hdest.
  unfold FS._move, FS._convert_key_to_filepath, lift, mbind at 1 2.
  rewrite Hsource. unfold mbind at 1. rewrite Hdest.
  unfold os_path_dirname.
  by destruct (os_path_split _) as [dest_dir dest_filename].
Qed.

Lemma move_encodes (self : FS.t) (source_key dest_key : list str)
    (st st' : fs) (moved : option (list str)) :
  FS._move self source_key dest_key st = (Ok moved, st') →
  ∃ source_rel dest_rel,
    _convert_key_to_filepath (FS.base self) source_key = Ok source_rel
    ∧ _convert_key_to_filepath (FS.base self) dest_key = Ok dest_rel.
Proof.
  unfold FS._move, FS._convert_key_to_filepath, lift, mbind at 1 2.
  destruct (_convert_key_to_filepath _ source_key) as [source_rel| |]; try done.
  unfold mbind at 1.
  destruct (_convert_key_to_filepath _ dest_key) as [dest_rel| |]; try done.
  intros _. by exists source_rel, dest_rel.
Qed.

Lemma makedirs_from_new (reached todo : list str) (st st1 : fs) r
    (q : list str) (x : node) :
  makedirs_from reached todo st = (r, st1) → st1 !! q = Some x →
  st !! q = Some x
  ∨ (x = Dir ∧ ∃ n, 1 ≤ n ≤ length todo ∧ q = reached ++ take n todo).
Proof.
  revert reached st. induction todo as [|name rest IH]; intros reached st.
  - intros [= _ <-]. by left.
  - simpl. intros Hrun Hq.
    assert (∀ n, 1 ≤ n ≤ length rest →
              q = (reached ++ [name]) ++ take n rest →
              ∃ m, 1 ≤ m ≤ S (length rest)
                   ∧ q = reached ++ take m (name :: rest)) as Hshift.
    { intros n Hn ->. exists (S n). split; [lia|]. by rewrite <- app_assoc. }
    destruct (st !! (reached ++ [name])) as [[c|]|] eqn:Hd.
    + injection Hrun as _ <-. by left.
    + destruct (IH _ _ Hrun Hq) as [?|[-> (n & Hn & Hqn)]]; [by left|].
      right. split; [done|]. by apply (Hshift n).
    + destruct (IH _ _ Hrun Hq) as [Hins|[-> (n & Hn & Hqn)]].
      * apply lookup_insert_Some in Hins as [[<- <-]|[_ ?]]; [|by left].
        right. split; [done|]. exists 1. split; [lia|done].
      * right. split; [done|]. by apply (Hshift n).
Qed.

(** The store a [_move] of a plain backend leaves when it returned the
    destination key and the destination was not a directory. *)
Lemma move_plain_state (self : FS.t) (source_key dest_key : list str)
    (st st' : fs) (b : list str) :
  plain (FS.base self) → tree st → proper_names st →
  resolve (FS.full_base_directory self) = Some b →
  source_key ≠ [] → Forall (λ s, proper_name s = true) source_key →
  dest_key ≠ [] → Forall (λ s, proper_name s = true) dest_key →
  source_key ≠ dest_key →
  is_dir (st !! (b ++ dest_key)) = false →
  FS._move self source_key dest_key st = (Ok (Some dest_key), st') →
  tree st' ∧ proper_names st'
  ∧ ∀ q, file_below st' b q ↔
         q = dest_key ∨ (q ≠ source_key ∧ file_below st b q).
Proof.
  intros Hplain Htree Hnames Hbase Hsne Hskey Hdne Hdkey Hdiff Hnotdir Hmove.
  split; [by apply (move_tree _ _ _ _ _ _ Htree Hmove)|].
  destruct (move_encodes _ _ _ _ _ _ Hmove) as (srel & drel & Hsrel & Hdrel).
  rewrite (move_unfold _ _ _ _ _ _ Hsrel Hdrel) in Hmove.
  apply encode_plain in Hsrel as [-> _]; try done.
  apply encode_plain in Hdrel as [-> _]; try done.
  destruct (resolve_under _ _ _ Hbase Hskey Hsne) as [Hqs _].
  destruct (resolve_under _ _ _ Hbase Hdkey Hdne) as [Hqd Hdir].
  pose proof (resolve_proper _ _ Hbase) as Hb.
  unfold mbind at 1 in Hmove. unfold os_path_exists, with_path in Hmove.
  rewrite Hqs in Hmove.
  destruct (st !! (b ++ source_key)) as [node|] eqn:Hnode.
  2:{ by rewrite bool_decide_false in Hmove by (by intros [? ?]). }
  rewrite bool_decide_true in Hmove by eauto.
  unfold mbind at 1 in Hmove. unfold os_makedirs, with_path in Hmove.
  rewrite Hdir in Hmove.
  destruct (makedirs_from [] (b ++ removelast dest_key) st) as [[[]|e|] st1] eqn:Hmk;
    try done.
  assert (proper_names st1) as Hnames1.
  { apply (makedirs_from_names _ _ _ _ _ Hnames) in Hmk; [done|]. cbn.
    apply Forall_app. split; [done|].
    rewrite removelast_firstn_len. by apply Forall_take. }
  assert (is_dir (st1 !! (b ++ dest_key)) = false) as Hnotdir1.
  { destruct (st1 !! (b ++ dest_key)) as [x|] eqn:Hx; [|done].
    destruct (makedirs_from_new _ _ _ _ _ _ _ Hmk Hx) as [Hold|[-> (n & Hn & Heq)]].
    - by rewrite Hold in Hnotdir.
    - exfalso. apply (f_equal length) in Heq. cbn in Heq.
      rewrite length_take, !length_app, removelast_firstn_len, length_take in Heq.
      destruct dest_key; [done|]. cbn in Heq. lia. }
  apply makedirs_from_mono in Hmk as [Hkeep Hfiles].
  unfold mbind at 1 in Hmove.
  unfold shutil_move, mbind at 1, os_path_isdir, with_path in Hmove.
  rewrite Hqd, Hnotdir1 in Hmove.
  unfold os_rename, with_path in Hmove. rewrite Hqs, Hqd in Hmove.
  rewrite (Hkeep _ _ Hnode) in Hmove.
  destruct node as [c|]; [|done].
  rewrite bool_decide_false, Hnotdir1 in Hmove.
  2:{ intros Heq. by apply app_inv_head in Heq. }
  destruct (is_dir (st1 !! parent (b ++ dest_key)) && _); [|done].
  injection Hmove as <-.
  split.
  - intros q x Hq. apply lookup_insert_Some in Hq as [[<- _]|[_ Hq]].
    + apply Forall_app. by split.
    + apply lookup_delete_Some in Hq as [_ Hq]. by apply (Hnames1 q x).
  - intros q. unfold file_below. split.
    + intros [Hq0 [c' Hc]]. apply lookup_insert_Some in Hc as [[Heq _]|[_ Hc]].
      * left. by apply app_inv_head in Heq.
      * apply lookup_delete_Some in Hc as [Hne Hc]. right. split.
        -- by intros ->.
        -- split; [done|]. exists c'. by apply Hfiles.
    + intros [->|[Hqs' [Hq0 [c' Hc]]]].
      * split; [done|]. exists c. apply lookup_insert_eq.
      * split; [done|]. destruct (decide (b ++ dest_key = b ++ q)) as [Heq|Hneq].
        -- exists c. rewrite <- Heq. apply lookup_insert_eq.
        -- exists c'. rewrite lookup_insert_ne by done.
           rewrite lookup_delete_ne.
           ++ by apply Hkeep.
           ++ intros Heq. by apply app_inv_head in Heq.
Qed.

(** For a backend without template, prefix and suffix, whose base
    directory has no ".." component, on a well-formed tree, a [_move]
    between two different keys of proper names that returned the
    destination key, the source being a regular file and the destination
    not a directory, replaces the source key by the destination key in
    what [list_keys()] returns: the source key is gone, the destination
    key is there unless it is ignored, and every other key stays. *)
Theorem move_renames_key_in_list (self : FS.t) (is_ignored_key : slots → bool)
    (source_key dest_key : list str) (st st' : fs) (b : list str) :
  plain (FS.base self) → tree st → proper_names st →
  L ".." ∉ split_on chr_slash (FS.full_base_directory self) →
  resolve (FS.full_base_directory self) = Some b →
  source_key ≠ [] → Forall (λ s, proper_name s = true) source_key →
  dest_key ≠ [] → Forall (λ s, proper_name s = true) dest_key →
  source_key ≠ dest_key →
  is_file (st !! (b ++ source_key)) = true →
  is_dir (st !! (b ++ dest_key)) = false →
  FS._move self source_key dest_key st = (Ok (Some dest_key), st') →
  ∃ l l', FS.list_keys self is_ignored_key [] st = (Ok l, st)
    ∧ FS.list_keys self is_ignored_key [] st' = (Ok l', st')
    ∧ ∀ k, k ∈ l' ↔
        (k = Some <$> dest_key ∧ is_ignored_key k = false)
        ∨ (k ∈ l ∧ k ≠ Some <$> source_key).
Proof.
  intros Hplain Htree Hnames _ Hbase Hsne Hskey Hdne Hdkey Hdiff _ Hnotdir Hmove.
  destruct (move_plain_state _ _ _ _ _ _ Hplain Htree Hnames Hbase Hsne Hskey
              Hdne Hdkey Hdiff Hnotdir Hmove) as (Htree' & Hnames' & Hfiles).
  destruct (list_keys_plain_spec self is_ignored_key st b Hplain Htree Hnames Hbase)
    as (l & Hrun & Hmem).
  destruct (list_keys_plain_spec self is_ignored_key st' b Hplain Htree' Hnames' Hbase)
    as (l' & Hrun' & Hmem').
  exists l, l'. split; [done|]. split; [done|].
  intros k. rewrite Hmem', Hmem. split.
  - intros (q & [->|[Hqs Hq]]%Hfiles & -> & Hign); [by left|].
    right. split; [by exists q|].
    intros Heq. by apply (inj (fmap Some)) in Heq.
  - intros [[-> Hign]|[(q & Hq & -> & Hign) Hk]].
    + exists dest_key. split; [|done]. apply Hfiles. by left.
    + exists q. split; [|done]. apply Hfiles. right. split; [|done].
      by intros ->.
Qed.

Lemma move_renames_key_in_list_witness :
  ∃ l l',
    FS.list_keys store_backend (λ _, false) [] store_fs = (Ok l, store_fs)
    ∧ FS.list_keys store_backend (λ _, false) [] moved_store_fs
      = (Ok l', moved_store_fs)
    ∧ ∀ k, k ∈ l' ↔
        (k = Some <$> [L "b"; L "g"] ∧ (λ _ : slots, false) k = false)
        ∨ (k ∈ l ∧ k ≠ Some <$> [L "a"; L "f"]).
Proof.
  apply (move_renames_key_in_list store_backend (λ _, false) [L "a"; L "f"]
           [L "b"; L "g"] store_fs moved_store_fs [L "ge"; L "store"]).
  - apply store_backend_plain.
  - apply store_fs_tree.
  - apply store_fs_proper_names.
  - vm_compute. intros Hin.
    repeat (apply elem_of_cons in Hin as [Hin|Hin]; [discriminate|]).
    by apply elem_of_nil in Hin.
  - reflexivity.
  - discriminate.
  - by repeat constructor.
  - discriminate.
  - by repeat constructor.
  - discriminate.
  - reflexivity.
  - reflexivity.
  - vm_cast_no_check (eq_refl (Ok (Some [L "b"; L "g"]), moved_store_fs)).
Defined.

(** ** A move onto a directory *)

Lemma makedirs_from_existing (reached todo : list str) (st : fs) :
  (∀ n, 1 ≤ n ≤ length todo → st !! (reached ++ take n todo) = Some Dir) →
  makedirs_from reached todo st = (Ok tt, st).
Proof.
  revert reached. induction todo as [|name rest IH]; intros reached Hdirs; [done|].
  simpl. assert (st !! (reached ++ [name]) = Some Dir) as ->.
  { apply (Hdirs 1). cbn. lia. }
  apply IH.
  intros n Hn. rewrite <- app_assoc. apply (Hdirs (S n)). cbn. lia.
Qed.

Lemma basename_below (b : str) (cs : list str) (name : str) :
  startswith b (L "/") = true →
  Forall (λ s, proper_name s = true) (cs ++ [name]) →
  _basename (os_path_join2 b (join (L "/") (cs ++ [name]))) = name.
Proof.
  intros Hb Hall.
  assert (proper_name name = true) as Hname.
  { apply Forall_app in Hall as [_ Hn]. by inversion Hn. }
  apply proper_name_spec in Hname as (Hne & _ & _ & Hfree).
  destruct (join2_under b (join (L "/") (cs ++ [name]))) as (x & Hx & _).
  { done. }
  { apply join_no_leading_slash; [done|by destruct cs]. }
  assert (∃ y, os_path_join2 b (join (L "/") (cs ++ [name]))
               = y ++ chr_slash :: name) as [y Hy].
  { rewrite Hx. destruct cs as [|c cs]; [by exists x|].
    rewrite join_snoc by done. exists (x ++ chr_slash :: join (L "/") (c :: cs)).
    by rewrite <- app_assoc. }
  rewrite Hy. unfold _basename. rewrite rstrip_id.
  - unfold os_path_split. by rewrite cut_last_slash_app.
  - rewrite last_app_cons. destruct name as [|a name _] using rev_ind; [done|].
    rewrite app_comm_cons, last_snoc. intros [= ->].
    apply Forall_app in Hfree as [_ Hfree]. by inversion Hfree.
Qed.

(** For a backend without template, prefix and suffix, whose base
    directory has no ".." component, on a well-formed tree and with valid
    keys of proper names: a [_move] of a regular file onto a key whose
    path is an existing directory that has no entry of the name of the
    file moves the file into that directory, under its own name, and yet
    returns the destination key; afterwards neither the source key nor
    the destination key is a key of the store. *)
Theorem move_into_directory (self : FS.t) (source_key dest_key : list str)
    (name content : str) (st : fs) (b : list str) :
  plain (FS.base self) → tree st →
  L ".." ∉ split_on chr_slash (FS.full_base_directory self) →
  resolve (FS.full_base_directory self) = Some b →
  Forall (λ s, proper_name s = true) (source_key ++ [name]) →
  dest_key ≠ [] → Forall (λ s, proper_name s = true) dest_key →
  _validate_key (FS.base self) (source_key ++ [name]) = Ok tt →
  _validate_key (FS.base self) dest_key = Ok tt →
  st !! (b ++ source_key ++ [name]) = Some (File content) →
  st !! (b ++ dest_key) = Some Dir →
  st !! (b ++ dest_key ++ [name]) = None →
  ∃ st', FS._move self (source_key ++ [name]) dest_key st
         = (Ok (Some dest_key), st')
    ∧ st' = <[b ++ dest_key ++ [name] := File content]>
              (delete (b ++ source_key ++ [name]) st)
    ∧ FS._has_key self (source_key ++ [name]) st' = (Ok false, st')
    ∧ FS._has_key self dest_key st' = (Ok false, st').
Proof.
  intros Hplain Htree _ Hbase Hskey Hdne Hdkey Hsvalid Hdvalid Hfile Hdir Hfree.
  assert (source_key ++ [name] ≠ []) as Hsne by (by destruct source_key).
  pose proof (encode_plain_Ok _ _ Hplain Hskey Hsne Hsvalid) as Hsrel.
  pose proof (encode_plain_Ok _ _ Hplain Hdkey Hdne Hdvalid) as Hdrel.
  destruct (resolve_under _ _ _ Hbase Hskey Hsne) as [Hqs _].
  destruct (resolve_under _ _ _ Hbase Hdkey Hdne) as [Hqd Hqdir].
  assert (proper_name name = true) as Hname.
  { apply Forall_app in Hskey as [_ Hn]. by inversion Hn. }
  eexists. split; [|split; [reflexivity|]].
  - rewrite (move_unfold _ _ _ _ _ _ Hsrel Hdrel).
    unfold mbind at 1. unfold os_path_exists, with_path.
    rewrite Hqs, Hfile, bool_decide_true by eauto.
    unfold mbind at 1. unfold os_makedirs, with_path. rewrite Hqdir.
    rewrite makedirs_from_existing.
    2:{ intros n Hn. cbn. rewrite <- removelast_app in * by done.
        rewrite removelast_firstn_len, length_take in Hn.
        apply (tree_ancestors st _ (drop n (b ++ dest_key)) Dir Htree).
        - rewrite removelast_firstn_len, take_take.
          replace (n `min` Init.Nat.pred (length (b ++ dest_key))) with n by lia.
          by rewrite take_drop.
        - intros Hnil. apply (f_equal length) in Hnil.
          rewrite length_drop in Hnil. cbn in Hnil. lia. }
    unfold mbind at 1. unfold shutil_move, mbind at 1, os_path_isdir, with_path.
    rewrite Hqd, Hdir. cbn [is_dir]. unfold mbind at 1. rewrite Hqs, Hfile.
    cbn [is_file is_dir].
    rewrite basename_below by (by apply (resolve_absolute _ b) || done).
    destruct (resolve_child _ _ name Hqd Hname) as (Hreal & _).
    unfold mbind at 1. unfold os_path_exists, with_path.
    rewrite Hreal, <- app_assoc, Hfree.
    rewrite bool_decide_false by (by intros [? ?]).
    unfold os_rename, with_path. rewrite Hqs, Hreal, Hfile.
    rewrite bool_decide_false.
    2:{ intros Heq. rewrite Heq, <- app_assoc in Hfile. congruence. }
    rewrite <- app_assoc, Hfree. cbn [is_dir].
    replace (parent (b ++ dest_key ++ [name])) with (b ++ dest_key).
    2:{ unfold parent. by rewrite app_assoc, removelast_last. }
    rewrite Hdir. cbn [is_dir andb].
    rewrite bool_decide_false; [done|].
    intros Hnil. apply (f_equal length) in Hnil.
    rewrite !length_app in Hnil. cbn in Hnil. lia.
  - unfold FS._has_key, FS._convert_key_to_filepath, lift, mbind.
    rewrite Hsrel, Hdrel. unfold os_path_isfile, with_path. rewrite Hqs, Hqd.
    split; f_equal.
    + rewrite lookup_insert_ne, lookup_delete_eq; [done|].
      intros Heq. rewrite <- Heq in Hfile. congruence.
    + rewrite lookup_insert_ne, lookup_delete_ne, Hdir; [done| |].
      * intros Heq. rewrite Heq in Hfile. congruence.
      * intros Heq. rewrite <- Heq in Hdir. congruence.
Qed.

Lemma move_into_directory_witness :
  ∃ st', FS._move store_backend ([L "a"] ++ [L "f"]) [L "b"]
           (<[ [L "ge"; L "store"; L "b"] := Dir ]> store_fs)
         = (Ok (Some [L "b"]), st')
    ∧ st' = <[ [L "ge"; L "store"] ++ [L "b"] ++ [L "f"] := File (L "v") ]>
              (delete ([L "ge"; L "store"] ++ [L "a"] ++ [L "f"])
                 (<[ [L "ge"; L "store"; L "b"] := Dir ]> store_fs))
    ∧ FS._has_key store_backend ([L "a"] ++ [L "f"]) st' = (Ok false, st')
    ∧ FS._has_key store_backend [L "b"] st' = (Ok false, st').
Proof.
  apply (move_into_directory store_backend [L "a"] [L "b"] (L "f") (L "v")
           (<[ [L "ge"; L "store"; L "b"] := Dir ]> store_fs) [L "ge"; L "store"]).
  - apply store_backend_plain.
  - apply tree_insert; [apply store_fs_tree|discriminate|reflexivity|by left].
  - vm_compute. intros Hin.
    repeat (apply elem_of_cons in Hin as [Hin|Hin]; [discriminate|]).
    by apply elem_of_nil in Hin.
  - reflexivity.
  - by repeat constructor.
  - discriminate.
  - by repeat constructor.
  - reflexivity.
  - reflexivity.
  - vm_compute. reflexivity.
  - vm_compute. reflexivity.
  - vm_compute. reflexivity.
Defined.

(** * The S3 backend: keys of objects *)

Module S3 := TupleS3StoreBackend.

Lemma startswith_app_ne (b y p : str) :
  b ≠ [] → length p ≤ 1 → startswith (b ++ y) p = startswith b p.
Proof.
  intros Hb Hp. destruct b as [|a b]; [done|].
  destruct p as [|c [|c' p]]; [done|done|cbn in Hp; lia].
Qed.

Lemma endswith_app_ne (x b : str) (c : ascii) :
  b ≠ [] → endswith (x ++ b) [c] = endswith b [c].
Proof.
  intros Hb. destruct b as [|a b _] using rev_ind; [done|].
  unfold endswith. by rewrite app_assoc, !reverse_app.
Qed.

Lemma join2_abs (a b : str) :
  startswith b [chr_slash] = true → os_path_join2 a b = b.
Proof. intros Hb. unfold os_path_join2. by rewrite Hb. Qed.

Lemma join2_rel (a b : str) :
  startswith b [chr_slash] = false →
  os_path_join2 a b
  = (if bool_decide (a = []) || endswith a [chr_slash]
     then a else a ++ [chr_slash]) ++ b.
Proof.
  intros Hb. unfold os_path_join2. rewrite Hb.
  destruct (_ || _); by rewrite <- ?app_assoc.
Qed.

Lemma join2_assoc (a b c : str) :
  os_path_join2 a (os_path_join2 b c) = os_path_join2 (os_path_join2 a b) c.
Proof.
  destruct (startswith c [chr_slash]) eqn:Hc.
  { by rewrite !(join2_abs _ c). }
  rewrite (join2_rel b c), (join2_rel _ c) by done.
  destruct (decide (b = [])) as [->|Hb].
  - cbn [bool_decide orb app]. rewrite bool_decide_true by done. cbn [orb app].
    rewrite (join2_rel a c), (join2_rel a []) by done. rewrite app_nil_r.
    f_equal. destruct (decide (a = [])) as [->|Ha]; [done|].
    rewrite (bool_decide_false (a = [])) by done. cbn [orb].
    destruct (endswith a [chr_slash]) eqn:He.
    + by rewrite (bool_decide_false (a = [])), He by done.
    + rewrite endswith_app_ne by done.
      change (endswith [chr_slash] [chr_slash]) with true.
      by rewrite orb_true_r.
  - rewrite (bool_decide_false (b = [])) by done. cbn [orb].
    destruct (startswith b [chr_slash]) eqn:Hbs.
    + rewrite (join2_abs a b) by done.
      rewrite (bool_decide_false (b = [])) by done. cbn [orb].
      apply join2_abs.
      destruct (endswith b [chr_slash]).
      * by rewrite startswith_app_ne by (done || (cbn; lia)).
      * rewrite <- app_assoc. by rewrite startswith_app_ne by (done || (cbn; lia)).
    + rewrite (join2_rel a b) by done.
      set (sa := if bool_decide (a = []) || endswith a [chr_slash]
                 then a else a ++ [chr_slash]).
      rewrite (bool_decide_false (sa ++ b = [])) by (by destruct sa, b).
      cbn [orb]. rewrite endswith_app_ne by done.
      rewrite join2_rel.
      * fold sa. destruct (endswith b [chr_slash]); by rewrite <- !app_assoc.
      * destruct (endswith b [chr_slash]).
        -- by rewrite startswith_app_ne by (done || (cbn; lia)).
        -- rewrite <- app_assoc.
           by rewrite startswith_app_ne by (done || (cbn; lia)).
Qed.

Lemma join2_absolute (a b : str) :
  startswith a (L "/") = true → startswith (os_path_join2 a b) (L "/") = true.
Proof.
  intros Ha. change (L "/") with [chr_slash] in *.
  destruct (startswith b [chr_slash]) eqn:Hb.
  - by rewrite join2_abs.
  - rewrite join2_rel by done. assert (a ≠ []) as Hne by (by intros ->).
    destruct (_ || _).
    + by rewrite startswith_app_ne by (done || (cbn; lia)).
    + rewrite <- app_assoc. by rewrite startswith_app_ne by (done || (cbn; lia)).
Qed.

Lemma resolve_is_Some (p : str) :
  startswith p (L "/") = true → ∃ q, resolve p = Some q.
Proof. intros Hp. unfold resolve. rewrite Hp. eauto. Qed.

Lemma join2_nil (a b : str) : os_path_join2 a b = [] → b = [].
Proof.
  unfold os_path_join2. destruct (startswith b [chr_slash]); [done|].
  destruct (_ || _); intros H; apply app_eq_nil in H as [_ H]; [done|].
  by apply app_eq_nil in H as [? _].
Qed.

(** The path of a key below the store prefix, relative to the prefix. *)
Lemma relpath_in_below (cwd prefix : str) (key : list str) :
  os_path_isabs cwd = true →
  Forall (λ s, proper_name s = true) key → key ≠ [] →
  os_path_relpath_in cwd (os_path_join2 prefix (join (L "/") key)) prefix
  = Ok (join (L "/") key).
Proof.
  intros Hcwd Hkey Hne. unfold os_path_relpath_in.
  rewrite bool_decide_false.
  2:{ intros Hnil%join2_nil. destruct key as [|w key]; [done|].
      apply (join_not_nil w key); [|done].
      apply Forall_inv in Hkey. by apply proper_name_spec in Hkey as [? _]. }
  destruct (resolve_is_Some (os_path_join2 cwd prefix)) as [qp Hqp].
  { by apply join2_absolute. }
  rewrite join2_assoc.
  destruct (resolve_under _ _ _ Hqp Hkey Hne) as [Hq _].
  rewrite (relpath_below _ _ qp key) by done. by destruct key.
Qed.

Lemma relpath_in_total (cwd path start : str) :
  os_path_isabs cwd = true → path ≠ [] →
  ∃ rel, os_path_relpath_in cwd path start = Ok rel.
Proof.
  intros Hcwd Hne. unfold os_path_relpath_in, os_path_relpath.
  rewrite bool_decide_false by done.
  rewrite bool_decide_false.
  2:{ intros Hnil. pose proof (join2_absolute cwd path Hcwd) as H.
      by rewrite Hnil in H. }
  destruct (resolve_is_Some (os_path_join2 cwd start)) as [qs ->].
  { by apply join2_absolute. }
  destruct (resolve_is_Some (os_path_join2 cwd path)) as [qp ->].
  { by apply join2_absolute. }
  cbv zeta. destruct (os_path_join _); eauto.
Qed.

Lemma decode_plain_total (self : t) (filepath : str) :
  plain self →
  selected self filepath = true
  ∧ ∃ key, _convert_filepath_to_key self filepath = Ok (Some key) ∧ key ≠ [].
Proof.
  intros (Ht & Hp & Hs). unfold selected. rewrite Hp, Hs. split; [done|].
  unfold _convert_filepath_to_key, strip_prefix, decode_stripped, strip_suffix.
  rewrite Hp, Hs, Ht. cbn [bind]. eexists. split; [done|].
  intros Hnil%fmap_nil_inv. by apply split_on_not_nil in Hnil.
Qed.

Lemma s3_list_keys_object_plain (cwd : str) (self : S3.t) (s3_object_key : str) :
  plain (S3.base self) → os_path_isabs cwd = true → s3_object_key ≠ [] →
  ∃ x, S3.list_keys_object cwd self s3_object_key = Ok x.
Proof.
  intros Hplain Hcwd Hne. unfold S3.list_keys_object. cbv zeta.
  destruct (relpath_in_total cwd s3_object_key (S3.prefix self) Hcwd Hne)
    as [rel ->]. cbn [bind].
  destruct (decode_plain_total _ rel Hplain) as [_ (key & -> & Hkey)].
  destruct Hplain as (_ & -> & ->). cbn [andb bind].
  destruct key; [done|]. eauto.
Qed.

Lemma s3_set_inv {S} (s3 : S3.boto3 S) (self : S3.t) (key : list str)
    (value k : str) (st st1 : S) :
  S3._set s3 self key value st = (Ok k, st1) →
  ∃ path, _convert_key_to_filepath (S3.base self) key = Ok path
          ∧ k = os_path_join2 (S3.prefix self) path
          ∧ S3.Object_put s3 (S3.bucket self) k value st = (Ok tt, st1).
Proof.
  unfold S3._set, lift, mbind at 1.
  destruct (_convert_key_to_filepath _ key) as [path| |]; try done.
  unfold mbind, ret.
  destruct (S3.Object_put s3 _ _ value st) as [[[]|e|] st'] eqn:Hput; try done.
  intros [= <- <-]. by exists path.
Qed.

(** ** [_has_key] after [_set] *)

(** For an S3 backend without template, prefix and suffix, once a key of
    proper names is [_set], [_has_key] is true for it as soon as the
    listing of the store prefix names the object that [_set] wrote (and
    no object with an empty name), whatever the store prefix and the
    working directory are. *)
Theorem s3_has_key_after_set {S} (s3 : S3.boto3 S) (cwd : str) (self : S3.t)
    (key : list str) (value k : str) (keys : list str) (st st1 st2 : S) :
  plain (S3.base self) → os_path_isabs cwd = true →
  key ≠ [] → Forall (λ s, proper_name s = true) key →
  S3._set s3 self key value st = (Ok k, st1) →
  S3.list_objects (S3.s3_client s3) (S3.bucket self) (S3.prefix self) st1
  = (Ok keys, st2) →
  k ∈ keys → Forall (λ k', k' ≠ []) keys →
  S3._has_key cwd s3 self key st1 = (Ok true, st2).
Proof.
  intros Hplain Hcwd Hne Hkey Hset Hlist Hin Hkeys.
  destruct (s3_set_inv _ _ _ _ _ _ _ Hset) as (path & Hpath & -> & _).
  apply encode_plain in Hpath as [-> _]; try done.
  unfold S3._has_key, S3.list_keys, mbind, lift, ret. rewrite Hlist.
  destruct (collect_total (S3.list_keys_object cwd self) keys) as [l Hl].
  { intros k' Hk'. apply s3_list_keys_object_plain; [done|done|].
    rewrite Forall_forall in Hkeys. by apply Hkeys. }
  rewrite Hl. do 2 f_equal. apply bool_decide_eq_true.
  apply (collect_Ok _ _ _ Hl).
  exists (os_path_join2 (S3.prefix self) (join (L "/") key)), [Some <$> key].
  split; [done|]. split; [|by apply list_elem_of_singleton].
  unfold S3.list_keys_object. cbv zeta.
  rewrite relpath_in_below by done. cbn [bind].
  destruct (decode_plain _ key Hplain Hkey Hne) as [_ ->].
  destruct Hplain as (_ & -> & ->). cbn [andb bind].
  by destruct key.
Qed.

Lemma s3_has_key_after_set_witness :
  S3._has_key (L "/home") simple_boto3 (s3_backend (L "p")) [L "a"; L "f"]
    (<[L "p/a/f" := L "v"]> {[L "q/c" := L "3"]})
  = (Ok true, <[L "p/a/f" := L "v"]> {[L "q/c" := L "3"]}).
Proof.
  apply (s3_has_key_after_set simple_boto3 (L "/home") (s3_backend (L "p"))
           [L "a"; L "f"] (L "v") (L "p/a/f") [L "p/a/f"]
           {[L "q/c" := L "3"]}).
  - by repeat split.
  - reflexivity.
  - discriminate.
  - by repeat constructor.
  - vm_cast_no_check (eq_refl (Ok (L "p/a/f"), (<[L "p/a/f" := L "v"]> ({[L "q/c" := L "3"]} : gmap str str)))).
  - vm_cast_no_check (eq_refl (Ok [L "p/a/f"], (<[L "p/a/f" := L "v"]> ({[L "q/c" := L "3"]} : gmap str str)))).
  - apply list_elem_of_here.
  - by repeat constructor.
Defined.

(** ** The object a key names *)

(** [_move] works on the objects that [_set] writes and [_get] reads, the
    one at [os.path.join(prefix, path)] for each key, when the store prefix
    is empty or neither path starts with it: it copies the source object
    to the destination and then deletes the source.  Otherwise [_move]
    takes a path that starts with the store prefix for the name of the
    object itself. *)
Theorem s3_move_addresses_stored_objects {S} (s3 : S3.boto3 S) (self : S3.t)
    (source_key dest_key : list str) (source_path dest_path : str) (st : S) :
  _convert_key_to_filepath (S3.base self) source_key = Ok source_path →
  _convert_key_to_filepath (S3.base self) dest_key = Ok dest_path →
  S3.prefix self = []
  ∨ (startswith source_path (S3.prefix self) = false
     ∧ startswith dest_path (S3.prefix self) = false) →
  S3._move s3 self source_key dest_key st
  = (do! _ <- S3.Bucket_copy s3 (S3.bucket self)
                (os_path_join2 (S3.prefix self) source_path)
                (os_path_join2 (S3.prefix self) dest_path);
     S3.Object_delete s3 (S3.bucket self)
       (os_path_join2 (S3.prefix self) source_path)) st
  ∧ (∀ value st0 k st1,
       S3._set s3 self source_key value st0 = (Ok k, st1) →
       k = os_path_join2 (S3.prefix self) source_path)
  ∧ (∀ value st0 k st1,
       S3._set s3 self dest_key value st0 = (Ok k, st1) →
       k = os_path_join2 (S3.prefix self) dest_path).
Proof.
  intros Hsource Hdest Hprefix. split; [|split].
  - unfold S3._move, lift, mbind at 1 2. rewrite Hsource.
    unfold mbind at 1. rewrite Hdest.
    destruct Hprefix as [->|[-> ->]]; [|done].
    assert (∀ p, startswith p [] = true) as Hnil by (by intros []).
    assert (∀ p, os_path_join2 [] p = p) as Hjoin.
    { intros p. unfold os_path_join2. by destruct (startswith p [chr_slash]). }
    by rewrite !Hnil, !Hjoin.
  - intros value st0 k st1 (path & Hpath & -> & _)%s3_set_inv. congruence.
  - intros value st0 k st1 (path & Hpath & -> & _)%s3_set_inv. congruence.
Qed.

Lemma s3_move_addresses_stored_objects_witness :
  S3._move simple_boto3 (s3_backend (L "p")) [L "a"; L "f"] [L "b"; L "g"]
    (<[L "p/a/f" := L "v"]> {[L "q/c" := L "3"]})
  = (do! _ <- S3.Bucket_copy simple_boto3 (S3.bucket (s3_backend (L "p")))
                (os_path_join2 (S3.prefix (s3_backend (L "p"))) (L "a/f"))
                (os_path_join2 (S3.prefix (s3_backend (L "p"))) (L "b/g"));
     S3.Object_delete simple_boto3 (S3.bucket (s3_backend (L "p")))
       (os_path_join2 (S3.prefix (s3_backend (L "p"))) (L "a/f")))
      (<[L "p/a/f" := L "v"]> {[L "q/c" := L "3"]})
  ∧ (∀ value st0 k st1,
       S3._set simple_boto3 (s3_backend (L "p")) [L "a"; L "f"] value st0
       = (Ok k, st1) →
       k = os_path_join2 (S3.prefix (s3_backend (L "p"))) (L "a/f"))
  ∧ (∀ value st0 k st1,
       S3._set simple_boto3 (s3_backend (L "p")) [L "b"; L "g"] value st0
       = (Ok k, st1) →
       k = os_path_join2 (S3.prefix (s3_backend (L "p"))) (L "b/g")).
Proof.
  apply (s3_move_addresses_stored_objects simple_boto3 (s3_backend (L "p"))
           [L "a"; L "f"] [L "b"; L "g"] (L "a/f") (L "b/g")).
  - reflexivity.
  - reflexivity.
  - right. split; reflexivity.
Defined.

(** The URL of a key names the object that [_set] writes for this key,
    after the host of the bucket's region and the bucket, when the store
    prefix is empty, or does not end with "/" while the path of the key
    does not start with "/". *)
Theorem s3_url_of_stored_key {S} (s3 : S3.boto3 S) (self : S3.t)
    (key : list str) (value path k : str) (location : option str)
    (st0 st1 st st' : S) :
  S3._set s3 self key value st0 = (Ok k, st1) →
  _convert_key_to_filepath (S3.base self) key = Ok path →
  S3.prefix self = []
  ∨ (endswith (S3.prefix self) [chr_slash] = false
     ∧ startswith path [chr_slash] = false) →
  S3.get_bucket_location s3 (S3.bucket self) st = (Ok location, st') →
  S3.get_url_for_key s3 self key st
  = (Ok (L "https://"
         ++ match location with
            | None => L "s3"
            | Some region => L "s3-" ++ region
            end
         ++ L ".amazonaws.com/" ++ S3.bucket self ++ L "/" ++ k), st').
Proof.
  intros (path' & Hpath' & -> & _)%s3_set_inv Hpath Hprefix Hlocation.
  assert (path' = path) as -> by congruence.
  unfold S3.get_url_for_key, mbind, lift, ret. rewrite Hlocation, Hpath.
  destruct Hprefix as [->|[Hend Hstart]].
  - rewrite bool_decide_true by done. do 6 f_equal.
    unfold os_path_join2. by destruct (startswith path [chr_slash]).
  - destruct (decide (S3.prefix self = [])) as [Hnil|Hne].
    + rewrite Hnil, bool_decide_true by done. do 6 f_equal.
      unfold os_path_join2. by destruct (startswith path [chr_slash]).
    + rewrite bool_decide_false by done. do 6 f_equal.
      unfold os_path_join2.
      by rewrite Hstart, Hend, (bool_decide_false (S3.prefix self = [])).
Qed.

Lemma s3_url_of_stored_key_witness :
  S3.get_url_for_key simple_boto3 (s3_backend (L "p")) [L "a"; L "f"]
    {[L "q/c" := L "3"]}
  = (Ok (L "https://"
         ++ match None with
            | None => L "s3"
            | Some region => L "s3-" ++ region
            end
         ++ L ".amazonaws.com/" ++ S3.bucket (s3_backend (L "p")) ++ L "/"
         ++ L "p/a/f"), {[L "q/c" := L "3"]}).
Proof.
  apply (s3_url_of_stored_key simple_boto3 (s3_backend (L "p")) [L "a"; L "f"]
           (L "v") (L "a/f") (L "p/a/f") None
           {[L "q/c" := L "3"]} (<[L "p/a/f" := L "v"]> {[L "q/c" := L "3"]})
           {[L "q/c" := L "3"]} {[L "q/c" := L "3"]}).
  - vm_cast_no_check (eq_refl (Ok (L "p/a/f"), (<[L "p/a/f" := L "v"]> ({[L "q/c" := L "3"]} : gmap str str)))).
  - reflexivity.
  - right. split; reflexivity.
  - reflexivity.
Defined.

(** * The GCS backend *)

Module GCS := TupleGCSStoreBackend.

Lemma gcs_list_keys_blob_plain (cwd : str) (self : GCS.t) (gcs_object_name : str) :
  plain (GCS.base self) → os_path_isabs cwd = true → gcs_object_name ≠ [] →
  ∃ x, GCS.list_keys_blob cwd self gcs_object_name = Ok x.
Proof.
  intros Hplain Hcwd Hne. unfold GCS.list_keys_blob. cbv zeta.
  destruct (relpath_in_total cwd gcs_object_name (GCS.prefix self) Hcwd Hne)
    as [rel ->]. cbn [bind].
  destruct (decode_plain_total _ rel Hplain) as [_ (key & -> & Hkey)].
  destruct Hplain as (_ & -> & ->). cbn [andb bind].
  destruct key; [done|]. eauto.
Qed.

Lemma gcs_set_inv {S} (gcs : GCS.storage S) (self : GCS.t) (key : list str)
    (value k : str) (st st1 : S) :
  GCS._set gcs self key value st = (Ok k, st1) →
  ∃ path, _convert_key_to_filepath (GCS.base self) key = Ok path
          ∧ k = os_path_join2 (GCS.prefix self) path
          ∧ GCS.upload_from_string gcs (GCS.bucket self) k value st
            = (Ok tt, st1).
Proof.
  unfold GCS._set, lift, mbind at 1.
  destruct (_convert_key_to_filepath _ key) as [path| |]; try done.
  unfold mbind, ret.
  destruct (GCS.upload_from_string gcs _ _ value st) as [[[]|e|] st'] eqn:Hput;
    try done.
  intros [= <- <-]. by exists path.
Qed.

(** For a GCS backend without template, prefix and suffix, once a key of
    proper names is [_set], [_has_key] is true for it as soon as the
    listing of the store prefix names the blob that [_set] wrote (and no
    blob with an empty name), whatever the store prefix and the working
    directory are. *)
Theorem gcs_has_key_after_set {S} (gcs : GCS.storage S) (cwd : str)
    (self : GCS.t) (key : list str) (value k : str) (blobs : list str)
    (st st1 st2 : S) :
  plain (GCS.base self) → os_path_isabs cwd = true →
  key ≠ [] → Forall (λ s, proper_name s = true) key →
  GCS._set gcs self key value st = (Ok k, st1) →
  GCS.list_blobs gcs (GCS.bucket self) (GCS.prefix self) st1 = (Ok blobs, st2) →
  k ∈ blobs → Forall (λ k', k' ≠ []) blobs →
  GCS._has_key cwd gcs self key st1 = (Ok true, st2).
Proof.
  intros Hplain Hcwd Hne Hkey Hset Hlist Hin Hblobs.
  destruct (gcs_set_inv _ _ _ _ _ _ _ Hset) as (path & Hpath & -> & _).
  apply encode_plain in Hpath as [-> _]; try done.
  unfold GCS._has_key, GCS.list_keys, mbind, lift, ret. rewrite Hlist.
  destruct (collect_total (GCS.list_keys_blob cwd self) blobs) as [l Hl].
  { intros k' Hk'. apply gcs_list_keys_blob_plain; [done|done|].
    rewrite Forall_forall in Hblobs. by apply Hblobs. }
  rewrite Hl. do 2 f_equal. apply bool_decide_eq_true.
  apply (collect_Ok _ _ _ Hl).
  exists (os_path_join2 (GCS.prefix self) (join (L "/") key)), [Some <$> key].
  split; [done|]. split; [|by apply list_elem_of_singleton].
  unfold GCS.list_keys_blob. cbv zeta.
  rewrite relpath_in_below by done. cbn [bind].
  destruct (decode_plain _ key Hplain Hkey Hne) as [_ ->].
  destruct Hplain as (_ & -> & ->). cbn [andb bind].
  by destruct key.
Qed.

Lemma gcs_has_key_after_set_witness :
  GCS._has_key (L "/home") simple_gcs (gcs_backend (L "p")) [L "a"; L "f"]
    (<[L "p/a/f" := L "v"]> {[L "q/c" := L "3"]})
  = (Ok true, <[L "p/a/f" := L "v"]> {[L "q/c" := L "3"]}).
Proof.
  apply (gcs_has_key_after_set simple_gcs (L "/home") (gcs_backend (L "p"))
           [L "a"; L "f"] (L "v") (L "p/a/f") [L "p/a/f"]
           {[L "q/c" := L "3"]}).
  - by repeat split.
  - reflexivity.
  - discriminate.
  - by repeat constructor.
  - vm_cast_no_check (eq_refl (Ok (L "p/a/f"), (<[L "p/a/f" := L "v"]> ({[L "q/c" := L "3"]} : gmap str str)))).
  - vm_cast_no_check (eq_refl (Ok [L "p/a/f"], (<[L "p/a/f" := L "v"]> ({[L "q/c" := L "3"]} : gmap str str)))).
  - apply list_elem_of_here.
  - by repeat constructor.
Defined.

(** The URL of a key names the blob that [_set] writes for this key,
    after the host and the bucket, when the store prefix is empty or the
    path of the key does not start with it; [_move] then renames the blob
    of the source key to the name [_set] gives the destination key. *)
Theorem gcs_url_of_stored_key {S} (gcs : GCS.storage S) (self : GCS.t)
    (key : list str) (value path k : str) (st0 st1 : S) :
  GCS._set gcs self key value st0 = (Ok k, st1) →
  _convert_key_to_filepath (GCS.base self) key = Ok path →
  GCS.prefix self = [] ∨ startswith path (GCS.prefix self) = false →
  GCS.get_url_for_key self key
  = Ok (L "https://storage.googleapis.com/" ++ GCS.bucket self ++ L "/" ++ k)
  ∧ ∀ dest_key dest_path st,
      _convert_key_to_filepath (GCS.base self) dest_key = Ok dest_path →
      GCS.prefix self = [] ∨ startswith dest_path (GCS.prefix self) = false →
      GCS._move gcs self key dest_key st
      = GCS.rename_blob gcs (GCS.bucket self) k
          (os_path_join2 (GCS.prefix self) dest_path) st.
Proof.
  intros (path' & Hpath' & -> & _)%gcs_set_inv Hpath Hprefix.
  assert (path' = path) as -> by congruence.
  assert (∀ p, GCS.prefix self = [] ∨ startswith p (GCS.prefix self) = false →
            (if negb (startswith p (GCS.prefix self))
             then os_path_join2 (GCS.prefix self) p else p)
            = os_path_join2 (GCS.prefix self) p) as Hname.
  { intros p [Hnil| ->]; [|done]. rewrite Hnil.
    assert (startswith p [] = true) as -> by (by destruct p).
    unfold os_path_join2. by destruct (startswith p [chr_slash]). }
  split.
  - unfold GCS.get_url_for_key. rewrite Hpath. cbn [bind]. by rewrite Hname.
  - intros dest_key dest_path st Hdest Hdprefix.
    unfold GCS._move, lift, mbind. rewrite Hpath, Hdest.
    by rewrite !Hname.
Qed.

Lemma gcs_url_of_stored_key_witness :
  GCS.get_url_for_key (gcs_backend (L "p")) [L "a"; L "f"]
  = Ok (L "https://storage.googleapis.com/" ++ GCS.bucket (gcs_backend (L "p"))
        ++ L "/" ++ L "p/a/f")
  ∧ ∀ dest_key dest_path st,
      _convert_key_to_filepath (GCS.base (gcs_backend (L "p"))) dest_key
      = Ok dest_path →
      GCS.prefix (gcs_backend (L "p")) = []
      ∨ startswith dest_path (GCS.prefix (gcs_backend (L "p"))) = false →
      GCS._move simple_gcs (gcs_backend (L "p")) [L "a"; L "f"] dest_key st
      = GCS.rename_blob simple_gcs (GCS.bucket (gcs_backend (L "p"))) (L "p/a/f")
          (os_path_join2 (GCS.prefix (gcs_backend (L "p"))) dest_path) st.
Proof.
  apply (gcs_url_of_stored_key simple_gcs (gcs_backend (L "p")) [L "a"; L "f"]
           (L "v") (L "a/f") (L "p/a/f") {[L "q/c" := L "3"]}
           (<[L "p/a/f" := L "v"]> {[L "q/c" := L "3"]})).
  - vm_cast_no_check (eq_refl (Ok (L "p/a/f"), (<[L "p/a/f" := L "v"]> ({[L "q/c" := L "3"]} : gmap str str)))).
  - reflexivity.
  - right. reflexivity.
Defined.
